(** * bioptim: index mappings, quantity configuration and trajectory merging

    A shallow embedding of
      - [bioptim/misc/mapping.py]            ([Mapping], [BiMapping], [BiMappingList]),
      - [bioptim/optimization/solution/utils.py]
                                             ([concatenate_optimization_variables_dict],
                                              [concatenate_optimization_variables]),
      - [bioptim/dynamics/problem.py]        ([Problem.configure_q] ... [configure_taudot],
                                              [configure_q_qdot], [configure_muscles],
                                              [configure_dynamics_function],
                                              [configure_contact]),
    followed by the properties proved about them.

    Python runs are modelled in an error monad: a call either returns a value,
    raises one of the built-in exceptions, or leaves the fragment of numpy
    that the embedding covers. The entries of an array are integers. Where
    the code only moves entries around (the merges of utils.py, on blocks of
    one element type) the element type plays no part; where it converts or
    negates them ([Mapping.map]) the element type is part of the operand:
    [int64] or [float64]. *)

From Stdlib Require Import ssreflect ZArith Lia.
From stdpp Require Import base option list strings pretty gmap.

Local Open Scope general_if_scope.
Local Open Scope Z_scope.
#[local] Set Warnings "-register-all,-rewrite-rw,-clear-no-such-hyp".

(** ** Outcome of a Python call *)

Inductive exn : Set :=
| IndexError | KeyError | ValueError | TypeError | AttributeError | RuntimeError.

Inductive res (A : Type) : Type :=
| Ok (a : A)          (* normal return *)
| Raise (e : exn)     (* a Python exception propagates to the caller *)
| Unmodelled.         (* the run leaves what the embedding covers: a numpy conversion
                         that is not modelled, or a recursion deeper than the bound *)
Arguments Ok {A} a.
Arguments Raise {A} e.
Arguments Unmodelled {A}.

#[global] Instance res_ret : MRet res := @Ok.
#[global] Instance res_bind : MBind res := λ A B f m,
  match m with Ok a => f a | Raise e => Raise e | Unmodelled => Unmodelled end.

(** [enumerate(seq, start)] *)
Fixpoint enumerate {A} (start : nat) (l : list A) : list (nat * A) :=
  match l with
  | [] => []
  | x :: l' => (start, x) :: enumerate (S start) l'
  end.

(** ** The part of numpy the sources use *)

Module np.

(** A rank-two array is stored row by row together with [shape[1]], which
    numpy keeps even when there is no row. *)
Record matrix : Type := Mat { ncols : nat; rows : list (list Z) }.

(** A numeric [ndarray] of rank one or two. *)
Inductive ndarray : Type :=
| Nd1 (data : list Z)
| Nd2 (m : matrix).

Definition wf (a : ndarray) : Prop :=
  match a with
  | Nd1 _ => True
  | Nd2 m => Forall (λ r, length r = ncols m) (rows m)
  end.

Definition shape (a : ndarray) : list nat :=
  match a with
  | Nd1 d => [length d]
  | Nd2 m => [length (rows m); ncols m]
  end.

(** [np.zeros((n, c))] *)
Definition zeros (n c : nat) : matrix := Mat c (replicate n (replicate c 0)).

(** [obj[:, np.newaxis]] on a rank-one array *)
Definition newaxis (d : list Z) : matrix := Mat 1 ((λ x, [x]) <$> d).

(** [obj[idx, :]] for a list [idx] of non-negative row indices: the selected
    rows in the order of [idx]; [IndexError] when an index is out of bounds. *)
Definition take_rows (rows : list (list Z)) (idx : list nat) : res (list (list Z)) :=
  mapM (λ i, match rows !! i with Some r => Ok r | None => Raise IndexError end) idx.

(** [dst[idx, :] = vals]: row [idx[j]] of [dst] becomes row [j] of [vals]. *)
Fixpoint setitem_rows (dst : list (list Z)) (idx : list nat) (vals : list (list Z))
  : res (list (list Z)) :=
  match idx, vals with
  | [], [] => Ok dst
  | i :: idx', r :: vals' =>
      if decide (i < length dst)%nat
      then setitem_rows (<[i:=r]> dst) idx' vals'
      else Raise IndexError
  | _, _ => Raise ValueError
  end.

(** The element types the embedding covers. An array of integers has the
    type [int64], its entries lying in [-2^63, 2^63). An entry of a
    [float64] array is modelled when it is an integer: a float holds every
    integer up to 2^53 in absolute value and, beyond, the multiples of the
    power of two its 53-bit significand leaves. Unsigned and other element
    types are outside the embedding. *)
Inductive dtype : Set := float64 | int64.

(** The float nearest to the integer [z], halves going to the even
    significand: what storing [z] into a [float64] array keeps. The integers
    an [int64] or a [float64] array holds are far below the overflow
    threshold 2^1024, which is not modelled. *)
Definition to_float64 (z : Z) : Z :=
  let a := Z.abs z in
  let e := Z.log2 a - 52 in
  if bool_decide (e ≤ 0) then z
  else
    let q := a / 2 ^ e in
    let r := a mod 2 ^ e in
    let half := 2 ^ (e - 1) in
    let q' := if bool_decide (half < r) || (bool_decide (r = half) && Z.odd q)
              then q + 1 else q in
    Z.sgn z * (q' * 2 ^ e).

(** Two's complement wrap-around of [int64] arithmetic *)
Definition wrap_int64 (z : Z) : Z := (z + 2 ^ 63) `mod` 2 ^ 64 - 2 ^ 63.

(** Unary minus in the element type: exact on floats, wrapping on [int64],
    where [-(-2^63)] is [-2^63]. *)
Definition negative (dt : dtype) (z : Z) : Z :=
  match dt with
  | float64 => - z
  | int64 => wrap_int64 (- z)
  end.

(** [-rows] in the element type [dt], and the conversion that the assignment
    of rows into a [float64] array performs *)
Definition neg_rows (dt : dtype) (rows : list (list Z)) : list (list Z) :=
  (λ r : list Z, negative dt <$> r) <$> rows.
Definition astype_float64 (rows : list (list Z)) : list (list Z) :=
  (λ r : list Z, to_float64 <$> r) <$> rows.

(** The integers an array of the element type [dt] can hold *)
Definition fits (dt : dtype) (z : Z) : Prop :=
  match dt with
  | float64 => to_float64 z = z
  | int64 => - 2 ^ 63 ≤ z < 2 ^ 63
  end.

(** The entries that [Mapping.map] hands on as they are: every entry of a
    [float64] array, and the entries of an [int64] array that a float holds
    and whose opposite does not wrap. *)
Definition exact (dt : dtype) (z : Z) : Prop :=
  match dt with
  | float64 => to_float64 z = z
  | int64 => - 2 ^ 53 ≤ z ≤ 2 ^ 53
  end.

(** [y[:-1]] on a rank-one array and [y[:, :-1]] on a rank-two array *)
Definition drop_last (d : list Z) : list Z := removelast d.
Definition drop_last_col (m : matrix) : matrix :=
  Mat (Nat.pred (ncols m)) (drop_last <$> rows m).

(** [np.concatenate(arrs, 1)] on rank-two arrays of [n] rows each *)
Definition hcat (n : nat) (ms : list matrix) : matrix :=
  Mat (foldr (λ m acc, (ncols m + acc)%nat) 0%nat ms)
      (foldr (λ m acc, zip_with app (rows m) acc) (replicate n []) ms).

End np.

(** ** mapping.py *)

Module Mapping.

(** [Mapping]: the index list; [None] entries are the zero sentinel. *)
Record t : Type := Mapping { map_idx : list (option Z) }.

(** What [Mapping.map] may be applied on. Symbolic casadi operands ([MX],
    [SX], [DM]) take the same path on the symbolic engine and are not part of
    the embedding. *)
Inductive operand : Type :=
| OSeq (l : list Z)              (* a tuple or list of Python integers that fit int64 *)
| OArr (a : np.ndarray)          (* an np.ndarray of integers, of dtype int64 *)
| OFloat (a : np.ndarray)        (* an np.ndarray of dtype float64 *)
| OOther.                        (* an object of any other, non-casadi type *)

(** The array an operand stands for: [np.array(obj)] for a tuple or a list,
    [obj] itself for an array; and the element type of that array. *)
Definition as_array (obj : operand) : option np.ndarray :=
  match obj with
  | OSeq l => Some (np.Nd1 l)
  | OArr a | OFloat a => Some a
  | OOther => None
  end.

Definition dtype_of (obj : operand) : np.dtype :=
  match obj with
  | OFloat _ => np.float64
  | _ => np.int64
  end.

(** [v is not None and v >= 0], [v is not None and v < 0] *)
Definition is_plus (v : option Z) : bool :=
  match v with Some z => bool_decide (0 ≤ z) | None => false end.
Definition is_minus (v : option Z) : bool :=
  match v with Some z => bool_decide (z < 0) | None => false end.

(** [[abs(v) for v in self.map_idx if cond(v)]] *)
Definition index_in_origin (cond : option Z → bool) (map_idx : list (option Z)) : list nat :=
  omap (λ v, if cond v then (λ z, Z.to_nat (Z.abs z)) <$> v else None) map_idx.

(** [[i for i, v in enumerate(self.map_idx) if cond(v)]] *)
Definition index_in_new (cond : option Z → bool) (map_idx : list (option Z)) : list nat :=
  omap (λ iv : nat * option Z, if cond iv.2 then Some iv.1 else None) (enumerate 0 map_idx).

(** [if len(obj.shape) == 1: obj = obj[:, np.newaxis]] *)
Definition as_2d (a : np.ndarray) : np.matrix :=
  match a with np.Nd1 d => np.newaxis d | np.Nd2 m => m end.

(** [Mapping.map]. The result is the [float64] array that [np.zeros] makes:
    the rows assigned into it are converted to floats, and the unary minus of
    the second assignment is taken before that, in the element type of the
    operand. *)
Definition map (self : t) (obj : operand) : res np.ndarray :=
  (* if isinstance(obj, (tuple, list)): obj = np.array(obj) *)
  let obj := match obj with OSeq l => OArr (np.Nd1 l) | _ => obj end in
  match as_array obj with
  | Some a =>
      let dt := dtype_of obj in
      let obj := as_2d a in
      (* Declare a zero filled object *)
      let mapped_obj := np.rows (np.zeros (length (map_idx self)) (np.ncols obj)) in
      (* Fill the positive values *)
      let index_plus_in_origin := index_in_origin is_plus (map_idx self) in
      let index_plus_in_new := index_in_new is_plus (map_idx self) in
      picked ← np.take_rows (np.rows obj) index_plus_in_origin;
      mapped_obj ← np.setitem_rows mapped_obj index_plus_in_new (np.astype_float64 picked);
      (* Fill the negative values *)
      let index_minus_in_origin := index_in_origin is_minus (map_idx self) in
      let index_minus_in_new := index_in_new is_minus (map_idx self) in
      picked ← np.take_rows (np.rows obj) index_minus_in_origin;
      mapped_obj ← np.setitem_rows mapped_obj index_minus_in_new
                     (np.astype_float64 (np.neg_rows dt picked));
      Ok (np.Nd2 (np.Mat (np.ncols obj) mapped_obj))
  | None => Raise RuntimeError
  end.

(** [__len__] *)
Definition len (self : t) : nat := length (map_idx self).

(** The factor the entry [v] applies to its source row: the row is negated
    if [v < 0] and copied otherwise, the entry [0] included. *)
Definition sign (v : Z) : Z := if bool_decide (v < 0) then -1 else 1.

(** The source row [|v|] an entry refers to. *)
Definition source (v : Z) : nat := Z.to_nat (Z.abs v).

(** What the entry [v] stores of a source entry [z] whose array has the
    element type [dt]: [z], or its opposite in [dt] when [v < 0], as a
    float. *)
Definition stored (dt : np.dtype) (v : Z) (z : Z) : Z :=
  np.to_float64 (if bool_decide (v < 0) then np.negative dt z else z).

End Mapping.

Module BiMapping.

(** An argument offered as [to_second] or [to_first]. *)
Inductive arg : Type :=
| AMapping (m : Mapping.t)        (* already a Mapping *)
| ASeq (l : list (option Z))      (* a list, tuple or range *)
| AOther.                         (* an int or any other object *)

Record t : Type := BiMapping { to_second : Mapping.t; to_first : Mapping.t }.

(** [BiMapping.__init__] *)
Definition init (to_second to_first : arg) : res t :=
  let to_second :=
    match to_second with ASeq l => AMapping (Mapping.Mapping l) | _ => to_second end in
  let to_first :=
    match to_first with ASeq l => AMapping (Mapping.Mapping l) | _ => to_first end in
  match to_second with
  | AMapping s =>
      match to_first with
      | AMapping f => Ok (BiMapping s f)
      | _ => Raise RuntimeError      (* to_first must be a Mapping class *)
      end
  | _ => Raise RuntimeError          (* to_second must be a Mapping class *)
  end.

(** [range(n)] as an index list *)
Definition range (n : nat) : list (option Z) := (λ i, Some (Z.of_nat i)) <$> seq 0 n.

End BiMapping.

Module BiMappingList.

(** The [bimapping] argument of [add]. *)
Inductive bimapping_arg : Type :=
| BNone
| BBi (b : BiMapping.t)
| BOther.                         (* an object that is not a BiMapping *)

(** [self.options]: one dictionary of entries per phase. *)
Record t : Type := BiMappingList { options : list (gmap string BiMapping.t) }.

(** Modelled from the spec: [OptionDict.__init__], which is not among the
    sources either. A new registry holds the empty dictionary of phase 0, the
    one [__contains__] reads. *)
Definition init : t := BiMappingList [∅].

(** [__contains__]: [item in self.options[0].keys()] *)
Definition contains (self : t) (item : string) : res bool :=
  match options self !! 0%nat with
  | Some d => Ok (bool_decide (item ∈ dom d))
  | None => Raise IndexError
  end.

(** Modelled from the spec: [OptionDict._add] of bioptim/misc/options.py, which
    is not among the sources. It builds the entry with [option_type] and files
    it under [key] in the dictionary of [phase], after the list of per-phase
    dictionaries has been extended to reach that phase. *)
Definition _add (self : t) (key : string) (phase : nat) (to_second to_first : BiMapping.arg)
  : res t :=
  b ← BiMapping.init to_second to_first;
  let opts := options self ++ replicate (S phase - length (options self)) ∅ in
  Ok (BiMappingList (alter (λ d, <[key:=b]> d) phase opts)).

Fixpoint add_rec (depth : nat) (self : t) (name : string)
    (to_second to_first : option BiMapping.arg) (bimapping : bimapping_arg) (phase : nat)
  : res t :=
  match depth with
  | O => Unmodelled
  | S depth' =>
      dup ← contains self name;
      if dup : bool then Raise ValueError      (* BiMapping name should be unique *)
      else
        match bimapping with
        | BBi b =>
            if bool_decide (to_second ≠ None) || bool_decide (to_first ≠ None)
            then Raise ValueError
            else add_rec depth' self name
                   (Some (BiMapping.AMapping (BiMapping.to_second b)))
                   (Some (BiMapping.AMapping (BiMapping.to_first b))) BNone phase
        | _ =>
            match to_second, to_first with
            | Some s, Some f => _add self name phase s f
            | _, _ => Raise ValueError
            end
        end
  end.

(** [BiMappingList.add]; the method calls itself once at most, so two levels
    of the recursion are all a call can use. *)
Definition add := add_rec 2.

(** The entry filed under [name] for [phase], if any. *)
Definition entry (self : t) (phase : nat) (name : string) : option BiMapping.t :=
  options self !! phase ≫= (λ d : gmap string BiMapping.t, d !! name).

(** A name is registered when some phase has an entry under it. *)
Definition registered (self : t) (name : string) : Prop :=
  ∃ phase, is_Some (entry self phase name).

End BiMappingList.

(** ** optimization/solution/utils.py *)

Module utils.

(** The Python values that flow through the two merge routines. [PNum] is a
    numpy scalar, that is what indexing a rank-one array returns: it has the
    empty [shape] and is not an instance of [np.ndarray]. A dictionary keeps
    its keys, which are strings, in insertion order. *)
Inductive pyval : Type :=
| PNone
| PNum (z : Z)
| PArr (a : np.ndarray)
| PList (items : list pyval)
| PDict (items : list (string * pyval)).

(** [v[0]] *)
Definition getitem0 (v : pyval) : res pyval :=
  match v with
  | PList l => match l with x :: _ => Ok x | [] => Raise IndexError end
  | PArr (np.Nd1 d) => match d with x :: _ => Ok (PNum x) | [] => Raise IndexError end
  | PArr (np.Nd2 m) =>
      match np.rows m with r :: _ => Ok (PArr (np.Nd1 r)) | [] => Raise IndexError end
  | PNum _ => Raise IndexError        (* invalid index to scalar variable *)
  | PNone => Raise TypeError          (* 'NoneType' object is not subscriptable *)
  | PDict _ => Raise KeyError         (* the keys are strings *)
  end.

(** [v.shape] *)
Definition shape (v : pyval) : res (list nat) :=
  match v with
  | PArr a => Ok (np.shape a)
  | PNum _ => Ok []
  | _ => Raise AttributeError
  end.

(** [isinstance(v, np.ndarray)] *)
Definition is_ndarray (v : pyval) : bool :=
  match v with PArr _ => true | _ => false end.

(** The elements [for y in v] runs over; [len(v)] is their number. *)
Definition iter (v : pyval) : res (list pyval) :=
  match v with
  | PList l => Ok l
  | PArr (np.Nd1 d) => Ok (PNum <$> d)
  | PArr (np.Nd2 m) => Ok ((λ r, PArr (np.Nd1 r)) <$> np.rows m)
  | PNum _ | PNone => Raise TypeError
  | PDict _ => Unmodelled
  end.

(** [y[:, :-1]] *)
Definition all_but_last_col (y : pyval) : res pyval :=
  match y with
  | PArr (np.Nd2 m) => Ok (PArr (np.Nd2 (np.drop_last_col m)))
  | PArr (np.Nd1 _) | PNum _ => Raise IndexError   (* too many indices *)
  | PList _ | PNone => Raise TypeError
  | PDict _ => Unmodelled
  end.

(** [y[:-1]], used by the source when [len(y.shape)] is not 2 *)
Definition all_but_last (y : pyval) : res pyval :=
  match y with
  | PArr (np.Nd1 d) => Ok (PArr (np.Nd1 (np.drop_last d)))
  | PArr (np.Nd2 m) => Ok (PArr (np.Nd2 (np.Mat (np.ncols m) (removelast (np.rows m)))))
  | PList l => Ok (PList (removelast l))
  | PNum _ => Raise IndexError
  | PNone => Raise TypeError
  | PDict _ => Unmodelled
  end.

(** [np.atleast_1d] on one operand of [np.hstack]. Operands that numpy would
    first turn into an object array or convert from a nested sequence are
    outside the embedding. *)
Definition atleast_1d (v : pyval) : res np.ndarray :=
  match v with
  | PArr a => Ok a
  | PNum z => Ok (np.Nd1 [z])
  | _ => Unmodelled
  end.

Definition as_rank1 (a : np.ndarray) : res (list Z) :=
  match a with np.Nd1 d => Ok d | np.Nd2 _ => Raise ValueError end.
Definition as_rank2 (n : nat) (a : np.ndarray) : res np.matrix :=
  match a with
  | np.Nd2 m => if decide (length (np.rows m) = n) then Ok m else Raise ValueError
  | np.Nd1 _ => Raise ValueError
  end.

(** [np.hstack(tup)]: concatenation along the first axis when the first
    operand has rank one, along the second axis otherwise; [ValueError] for
    an empty [tup] and for operands whose ranks or row counts disagree. *)
Definition hstack (tup : list pyval) : res pyval :=
  arrs ← mapM atleast_1d tup;
  match arrs with
  | [] => Raise ValueError
  | np.Nd1 _ :: _ => ds ← mapM as_rank1 arrs; Ok (PArr (np.Nd1 (concat ds)))
  | np.Nd2 m0 :: _ =>
      let n := length (np.rows m0) in
      ms ← mapM (as_rank2 n) arrs; Ok (PArr (np.Nd2 (np.hcat n ms)))
  end.

(** Dictionary access: [d[key]] on any value, [d[key] = v], [d.keys()]. *)
Fixpoint dict_get (d : list (string * pyval)) (key : string) : option pyval :=
  match d with
  | [] => None
  | (k, v) :: d' => if decide (k = key) then Some v else dict_get d' key
  end.

Fixpoint dict_set (d : list (string * pyval)) (key : string) (v : pyval)
  : list (string * pyval) :=
  match d with
  | [] => [(key, v)]
  | (k, w) :: d' => if decide (k = key) then (k, v) :: d' else (k, w) :: dict_set d' key v
  end.

Definition keys (d : list (string * pyval)) : list string := d.*1.

Definition getitem_key (v : pyval) (key : string) : res pyval :=
  match v with
  | PDict d => match dict_get d key with Some x => Ok x | None => Raise KeyError end
  | PArr _ | PNum _ => Raise IndexError
  | PList _ | PNone => Raise TypeError
  end.

(** [for x in l: acc = body(acc, x)] with exceptions *)
Fixpoint for_fold {A B} (body : A → B → res A) (acc : A) (l : list B) : res A :=
  match l with
  | [] => Ok acc
  | x :: l' => acc' ← body acc x; for_fold body acc' l'
  end.

Definition concatenate_optimization_variables_dict (variable : pyval) (continuous : bool)
  : res pyval :=
  match variable with
  | PList l =>
      v0 ← getitem0 variable;
      match v0 with
      | PDict d0 =>
          variable_dict ←
            for_fold (λ variable_dict key,
                column ← mapM (λ v_i, getitem_key v_i key) l;
                final_tuple ←
                  mapM (λ iy : nat * pyval,
                          if bool_decide (iy.1 < length column - 1)%nat && continuous
                          then all_but_last_col iy.2 else Ok iy.2)
                       (enumerate 0 column);
                merged ← hstack final_tuple;
                Ok (dict_set variable_dict key merged))
              [] (keys d0);
          Ok (PList [PDict variable_dict])
      | _ => Ok PNone                  (* no branch returns: the call yields None *)
      end
  | _ => Raise ValueError              (* the input must be a list *)
  end.

(** The merge the dictionary routine applies to the blocks filed under one
    key: the last column of every block but the final one is dropped when
    [continuous] is set, and the blocks are stacked side by side. *)
Definition merge_columns (continuous : bool) (column : list pyval) : res pyval :=
  final_tuple ←
    mapM (λ iy : nat * pyval,
            if bool_decide (iy.1 < length column - 1)%nat && continuous
            then all_but_last_col iy.2 else Ok iy.2)
         (enumerate 0 column);
  hstack final_tuple.

(** [[v_i[key] for v_i in variable]], merged *)
Definition merge_key (continuous : bool) (variable : list pyval) (key : string) : res pyval :=
  column ← mapM (λ v_i, getitem_key v_i key) variable;
  merge_columns continuous column.

(** The recursion of [concatenate_optimization_variables] is bounded by
    [depth]; a run that would go deeper is reported as [Unmodelled]. *)
Fixpoint concatenate_optimization_variables (depth : nat) (variable : pyval)
    (continuous_phase continuous_interval merge_phases : bool) : res pyval :=
  match depth with
  | O => Unmodelled
  | S depth' =>
      v0 ← getitem0 variable;
      sh ← shape v0;
      if bool_decide (length sh ≠ 0%nat) then
        v00 ← getitem0 v0;
        if is_ndarray v00 then
          items ← iter variable;
          z_final ←
            mapM (λ zi, concatenate_optimization_variables depth' zi
                          continuous_interval true true) items;
          if merge_phases
          then concatenate_optimization_variables depth' (PList z_final)
                 continuous_phase true true
          else Ok (PList z_final)
        else
          items ← iter variable;
          final_tuple ←
            mapM (λ iy : nat * pyval,
                    if bool_decide (iy.1 < length items - 1)%nat && continuous_phase
                    then
                      sh_y ← shape iy.2;
                      if bool_decide (length sh_y = 2%nat)
                      then all_but_last_col iy.2 else all_but_last iy.2
                    else Ok iy.2)
                 (enumerate 0 items);
          hstack final_tuple
      else Ok PNone
  end.

(** Rank-one blocks with the last entry of every block but the final one
    dropped when [continuous] is set, and their concatenation. *)
Fixpoint trim (continuous : bool) (blocks : list (list Z)) : list (list Z) :=
  match blocks with
  | [] => []
  | [b] => [b]
  | b :: rest => (if continuous then np.drop_last b else b) :: trim continuous rest
  end.

Definition merge1 (continuous : bool) (blocks : list (list Z)) : list Z :=
  concat (trim continuous blocks).

(** Rank-two blocks with the last column of every block but the final one
    dropped when [continuous] is set. *)
Fixpoint trim_cols (continuous : bool) (blocks : list np.matrix) : list np.matrix :=
  match blocks with
  | [] => []
  | [b] => [b]
  | b :: rest => (if continuous then np.drop_last_col b else b) :: trim_cols continuous rest
  end.

(** A block as a Python value *)
Definition block (m : np.matrix) : pyval := PArr (np.Nd2 m).
Definition vector (d : list Z) : pyval := PArr (np.Nd1 d).

(** A rank-two block with at least one row and one column. *)
Definition nonempty_block (m : np.matrix) : Prop := np.ncols m ≠ 0%nat ∧ np.rows m ≠ [].

End utils.

(** ** The symbolic engine, as problem.py uses it

    casadi is an external library: its expressions are modelled by the
    labels and the shape of their entries, which is all the configuration
    routines depend on. An entry is a symbol, known by its label; sums,
    products and calls of other functions are not part of the embedding.
    casadi tells apart two symbols made under one name by two calls of
    [MX.sym]; the labels do not, so where two such calls meet, the
    properties speak of names and shapes only. *)

Module casadi.

(** A symbolic matrix, abstracted to the labels of its scalar entries, stored
    row by row together with its number of columns. [MX()] is the empty
    0-by-0 matrix. *)
Record MX : Type := mkMX { size2 : nat; entries : list (list string) }.

Definition size1 (x : MX) : nat := length (entries x).
Definition empty : MX := mkMX 0 [].
Definition is_empty (x : MX) : bool :=
  bool_decide (size1 x = 0%nat) && bool_decide (size2 x = 0%nat).

(** [MX.sym(name, n, m)]: a scalar symbol carries [name] itself, entry (i, j)
    of a larger one is labelled [name_i_j]. *)
Definition sym (name : string) (n m : nat) : MX :=
  if bool_decide (n = 1%nat) && bool_decide (m = 1%nat) then mkMX 1 [[name]]
  else mkMX m ((λ i, (λ j, name +:+ "_" +:+ pretty i +:+ "_" +:+ pretty j) <$> seq 0 m)
                 <$> seq 0 n).

(** [vertcat] of the operands [xs]: without any operand it is the empty
    column, 0-by-1; otherwise 0-by-0 operands are skipped and the others must
    agree on their number of columns. *)
Definition vertcat (xs : list MX) : res MX :=
  match xs with
  | [] => Ok (mkMX 1 [])
  | _ =>
      match filter (λ x, is_empty x = false) xs with
      | [] => Ok empty
      | x0 :: rest =>
          if forallb (λ x, bool_decide (size2 x = size2 x0)) rest
          then Ok (mkMX (size2 x0) (concat (entries <$> (x0 :: rest))))
          else Raise RuntimeError
      end
  end.

Arguments vertcat : simpl never.

(** The symbols an expression depends on *)
Definition symbols (x : MX) : list string := concat (entries x).

(** A compiled function: its inputs and outputs as they were handed over,
    and their names. *)
Record Function : Type := mkFunction {
  fname : string;
  f_in : list MX;
  f_out : list MX;
  name_in : list string;
  name_out : list string;
  expanded : bool
}.

(** The outputs depend on no other symbol than the inputs. *)
Definition closed_over (inputs outputs : list MX) : bool :=
  forallb (λ s, bool_decide (s ∈ concat (symbols <$> inputs)))
          (concat (symbols <$> outputs)).

(** [Function(name, inputs, outputs, names_in, names_out)]: casadi refuses,
    with a [RuntimeError], outputs in which a symbol occurs that is not among
    the inputs (a free variable). *)
Definition new_Function (name : string) (inputs outputs : list MX)
    (names_in names_out : list string) : res Function :=
  if closed_over inputs outputs
  then Ok (mkFunction name inputs outputs names_in names_out false)
  else Raise RuntimeError.

(** [.expand()]: an expression made of symbols alone always expands. *)
Definition expand (f : Function) : Function :=
  mkFunction (fname f) (f_in f) (f_out f) (name_in f) (name_out f) true.

(** The column of scalar symbols with the given labels, top to bottom; with
    no label it is the empty matrix [MX()]. *)
Definition column (labels : list string) : MX :=
  mkMX (match labels with [] => 0 | _ => 1 end) ((λ l, [l]) <$> labels).

End casadi.

(** ** dynamics/problem.py *)

Module Problem.

(** What the configuration routines read from the phase [nlp]: the model
    ([nameDof], [nbQ], [nbQdot], [nbGeneralizedTorque]), the value of the
    control type, the mappings by quantity name (an absent key stands for the
    stored [None]), the widths of the state and control registries, and what
    the routines write back. *)
Record NonLinearProgram : Type := mkNlp {
  nameDof : list string;
  nbQ : nat;
  nbQdot : nat;
  nbGeneralizedTorque : nat;
  control_type_value : nat;
  mapping : gmap string BiMapping.t;
  states_n : nat;
  controls_n : nat;
  parameters_n : nat;
  shape : gmap string nat;
  dynamics_func : option casadi.Function
}.

Definition set_mapping (nlp : NonLinearProgram) (name : string) (b : BiMapping.t)
  : NonLinearProgram :=
  mkNlp (nameDof nlp) (nbQ nlp) (nbQdot nlp) (nbGeneralizedTorque nlp)
        (control_type_value nlp) (<[name:=b]> (mapping nlp))
        (states_n nlp) (controls_n nlp) (parameters_n nlp) (shape nlp) (dynamics_func nlp).

Definition set_shape (nlp : NonLinearProgram) (name : string) (n : nat) : NonLinearProgram :=
  mkNlp (nameDof nlp) (nbQ nlp) (nbQdot nlp) (nbGeneralizedTorque nlp)
        (control_type_value nlp) (mapping nlp)
        (states_n nlp) (controls_n nlp) (parameters_n nlp) (<[name:=n]> (shape nlp))
        (dynamics_func nlp).

Definition set_parameters_n (nlp : NonLinearProgram) (n : nat) : NonLinearProgram :=
  mkNlp (nameDof nlp) (nbQ nlp) (nbQdot nlp) (nbGeneralizedTorque nlp)
        (control_type_value nlp) (mapping nlp)
        (states_n nlp) (controls_n nlp) n (shape nlp) (dynamics_func nlp).

Definition set_dynamics_func (nlp : NonLinearProgram) (f : casadi.Function)
  : NonLinearProgram :=
  mkNlp (nameDof nlp) (nbQ nlp) (nbQdot nlp) (nbGeneralizedTorque nlp)
        (control_type_value nlp) (mapping nlp)
        (states_n nlp) (controls_n nlp) (parameters_n nlp) (shape nlp) (Some f).

(** [dof_names[i].to_string()] for an index taken from a mapping: a sequence
    index, counted from the end when negative. *)
Definition dof_name (dof_names : list string) (i : option Z) : res string :=
  match i with
  | None => Raise TypeError
  | Some z =>
      let n := Z.of_nat (length dof_names) in
      let k := if bool_decide (z < 0) then z + n else z in
      if bool_decide (0 ≤ k < n)
      then match dof_names !! Z.to_nat k with Some s => Ok s | None => Raise IndexError end
      else Raise IndexError
  end.

(** [if nlp.mapping[name] is None: nlp.mapping[name] = BiMapping(range(n), range(n))] *)
Definition default_mapping (nlp : NonLinearProgram) (name : string) (n : nat)
  : res NonLinearProgram :=
  match mapping nlp !! name with
  | Some _ => Ok nlp
  | None =>
      b ← BiMapping.init (BiMapping.ASeq (BiMapping.range n)) (BiMapping.ASeq (BiMapping.range n));
      Ok (set_mapping nlp name b)
  end.

(** [nlp.mapping[name]] followed by an attribute access *)
Definition get_mapping (nlp : NonLinearProgram) (name : string) : res BiMapping.t :=
  match mapping nlp !! name with Some b => Ok b | None => Raise AttributeError end.

(** The placeholders a configuration routine builds: the reduced-space one
    ([q], or the columns [all_tau] for a control), the full-space one
    ([q_mx]) and the legend. *)
Record placeholders : Type := mkPlaceholders {
  reduced : list casadi.MX;
  full : casadi.MX;
  legend : list string
}.

(** The two loops shared by [configure_q] and [configure_qdot]:
    [for i in to_first.map_idx: q = vertcat(q, cx.sym(prefix + dof_names[i], 1, 1))]
    [for i, _ in enumerate(to_second.map_idx): q_mx = vertcat(q_mx, MX.sym(...))] *)
Definition reduced_column (prefix suffix : string) (dof_names : list string)
    (map_idx : list (option Z)) (start : casadi.MX) : res casadi.MX :=
  utils.for_fold (λ q i,
      name ← dof_name dof_names i;
      casadi.vertcat [q; casadi.sym (prefix +:+ name +:+ suffix) 1 1])
    start map_idx.

Definition full_column (prefix : string) (dof_names : list string)
    (map_idx : list (option Z)) : res casadi.MX :=
  utils.for_fold (λ q_mx iv,
      name ← dof_name dof_names (Some (Z.of_nat iv.1));
      casadi.vertcat [q_mx; casadi.sym (prefix +:+ name) 1 1])
    casadi.empty (enumerate 0 map_idx).

Definition make_legend (prefix : string) (dof_names : list string)
    (map_idx : list (option Z)) : res (list string) :=
  mapM (λ idx, name ← dof_name dof_names idx; Ok (prefix +:+ name)) map_idx.

(** [configure_q], up to the registration of the placeholders *)
Definition configure_q (nlp : NonLinearProgram) : res (NonLinearProgram * placeholders) :=
  nlp ← default_mapping nlp "q" (nbQ nlp);
  let dof_names := nameDof nlp in
  m ← get_mapping nlp "q";
  q ← reduced_column "Q_" "" dof_names (Mapping.map_idx (BiMapping.to_first m)) casadi.empty;
  m2 ← get_mapping nlp "q";
  q_mx ← full_column "Q_" dof_names (Mapping.map_idx (BiMapping.to_second m2));
  legend_q ← make_legend "q_" dof_names (Mapping.map_idx (BiMapping.to_first m));
  Ok (nlp, mkPlaceholders [q] q_mx legend_q).

(** [configure_qdot], up to the registration of the placeholders *)
Definition configure_qdot (nlp : NonLinearProgram) : res (NonLinearProgram * placeholders) :=
  nlp ← default_mapping nlp "qdot" (nbQdot nlp);
  let dof_names := nameDof nlp in
  m ← get_mapping nlp "qdot";
  qdot ← reduced_column "Qdot_" "" dof_names (Mapping.map_idx (BiMapping.to_first m))
           casadi.empty;
  m2 ← get_mapping nlp "qdot";
  qdot_mx ← full_column "Qdot_" dof_names (Mapping.map_idx (BiMapping.to_second m2));
  legend_qdot ← make_legend "qdot_" dof_names (Mapping.map_idx (BiMapping.to_first m));
  Ok (nlp, mkPlaceholders [qdot] qdot_mx legend_qdot).

(** The loop over the columns of a control:
    [for i in to_first.map_idx:
        for j in range(len(all_tau)):
            all_tau[j] = vertcat(all_tau[j], cx.sym(f"{prefix}{dof_names[i]}_{j}", 1, 1))] *)
Definition control_columns (prefix : string) (dof_names : list string)
    (map_idx : list (option Z)) (n_col : nat) : res (list casadi.MX) :=
  utils.for_fold (λ all_tau i,
      mapM (λ jc : nat * casadi.MX,
              name ← dof_name dof_names i;
              casadi.vertcat [jc.2; casadi.sym (prefix +:+ name +:+ "_" +:+ pretty jc.1) 1 1])
           (enumerate 0 all_tau))
    (replicate n_col casadi.empty) map_idx.

(** [configure_tau], up to the registration of the placeholders *)
Definition configure_tau (nlp : NonLinearProgram) : res (NonLinearProgram * placeholders) :=
  nlp ← default_mapping nlp "tau" (nbGeneralizedTorque nlp);
  let dof_names := nameDof nlp in
  let n_col := control_type_value nlp in
  m ← get_mapping nlp "tau";
  all_tau ← control_columns "Tau_" dof_names (Mapping.map_idx (BiMapping.to_first m)) n_col;
  m2 ← get_mapping nlp "tau";
  tau_mx ← full_column "Tau_" dof_names (Mapping.map_idx (BiMapping.to_second m2));
  legend_tau ← make_legend "tau_" dof_names (Mapping.map_idx (BiMapping.to_first m));
  Ok (nlp, mkPlaceholders all_tau tau_mx legend_tau).

(** [configure_taudot], up to the registration of the placeholders. The loop
    that builds [taudot_mx] runs over [nlp.mapping["q"].to_second.map_idx]. *)
Definition configure_taudot (nlp : NonLinearProgram) : res (NonLinearProgram * placeholders) :=
  nlp ← default_mapping nlp "taudot" (nbGeneralizedTorque nlp);
  let dof_names := nameDof nlp in
  let n_col := control_type_value nlp in
  m ← get_mapping nlp "taudot";
  all_taudot ← control_columns "Taudot_" dof_names (Mapping.map_idx (BiMapping.to_first m))
                 n_col;
  mq ← get_mapping nlp "q";
  taudot_mx ← full_column "Taudot_" dof_names (Mapping.map_idx (BiMapping.to_second mq));
  m3 ← get_mapping nlp "taudot";
  let nlp := set_shape nlp "taudot" (Mapping.len (BiMapping.to_first m3)) in
  legend_taudot ← make_legend "taudot_" dof_names (Mapping.map_idx (BiMapping.to_first m3));
  Ok (nlp, mkPlaceholders all_taudot taudot_mx legend_taudot).

(** A column under construction: empty before the first symbol is stacked,
    one column wide afterwards. *)
Definition column_of (k : nat) (q : casadi.MX) : Prop :=
  casadi.size1 q = k ∧ (k = 0%nat → q = casadi.empty) ∧ (k ≠ 0%nat → casadi.size2 q = 1%nat).

(** A phase of a model with three degrees of freedom, constant controls, the
    identity mapping for ["q"] and a two-entry mapping for ["taudot"]. *)
Definition three_dof_phase : NonLinearProgram :=
  mkNlp ["TransY"; "RotX"; "RotZ"] 3 3 3 1
        (<["taudot" := BiMapping.BiMapping (Mapping.Mapping [Some 0; Some 1])
                                           (Mapping.Mapping [Some 0; Some 1])]>
           (<["q" := BiMapping.BiMapping (Mapping.Mapping (BiMapping.range 3))
                                         (Mapping.Mapping (BiMapping.range 3))]> ∅))
        0 0 0 ∅ None.

(** What a derivative function hands back: one expression, or a list or
    tuple of expressions. *)
Inductive dyn_result : Type :=
| DynExpr (e : casadi.MX)
| DynSeq (es : list casadi.MX).

(** [ocp]: only [ocp.v.parameters_in_list.n] is read. *)
Record OptimalControlProgram : Type := mkOcp { v_parameters_n : nat }.

Definition configure_dynamics_function (ocp : OptimalControlProgram) (nlp : NonLinearProgram)
    (dyn_func : casadi.MX → casadi.MX → casadi.MX → NonLinearProgram → res dyn_result)
  : res NonLinearProgram :=
  let mx_symbolic_states := casadi.sym "x" (states_n nlp) 1 in
  let mx_symbolic_controls := casadi.sym "u" (controls_n nlp) 1 in
  let nlp := set_parameters_n nlp (v_parameters_n ocp) in
  let mx_symbolic_params := casadi.sym "p" (parameters_n nlp) 1 in
  dynamics ← dyn_func mx_symbolic_states mx_symbolic_controls mx_symbolic_params nlp;
  dynamics ← match dynamics with
             | DynSeq es => casadi.vertcat es
             | DynExpr e => Ok e
             end;
  f ← casadi.new_Function "ForwardDyn"
        [mx_symbolic_states; mx_symbolic_controls; mx_symbolic_params]
        [dynamics] ["x"; "u"; "p"] ["xdot"];
  Ok (set_dynamics_func nlp (casadi.expand f)).

(** The placeholders a derivative function is handed, and the derivative
    function that returns some of them, stacked in the given order. *)
Inductive placeholder : Set := States | Controls | Parameters.

Definition handed (x u p : casadi.MX) (w : placeholder) : casadi.MX :=
  match w with States => x | Controls => u | Parameters => p end.

Definition stack (sel : list placeholder)
  : casadi.MX → casadi.MX → casadi.MX → NonLinearProgram → res dyn_result :=
  λ x u p _, Ok (DynSeq (handed x u p <$> sel)).

(** The width of a placeholder: [nlp.states.n], [nlp.controls.n],
    [ocp.v.parameters_in_list.n] *)
Definition width (ocp : OptimalControlProgram) (nlp : NonLinearProgram) (w : placeholder)
  : nat :=
  match w with
  | States => states_n nlp
  | Controls => controls_n nlp
  | Parameters => v_parameters_n ocp
  end.


(** What [configure_muscles] and [configure_contact] read from a phase
    besides: [nlp.phase_idx], [nlp.model.muscleNames()],
    [nlp.model.contactNames()] (both already turned into strings) and
    [nlp.mapping["plot"]], a dictionary of mappings by plot name, or [None]. *)
Record PhaseModel : Type := mkPhaseModel {
  phase_idx : nat;
  muscleNames : list string;
  contactNames : list string;
  plot_mapping : option (gmap string Mapping.t)
}.

(** The placeholders [configure_muscles] builds: [muscles_mx], [muscles] when
    the muscles are states, the columns [all_muscles] when they are controls,
    and the value of [combine] handed to the plot of the controls. *)
Record muscle_placeholders : Type := mkMusclePlaceholders {
  muscles_mx : casadi.MX;
  muscles : option casadi.MX;
  all_muscles : option (list casadi.MX);
  combine : option string
}.

(** [for name in muscle_names: col = vertcat(col, sym(label(name), 1, 1))] *)
Definition muscle_column (label : string → string) (muscle_names : list string)
    (start : casadi.MX) : res casadi.MX :=
  utils.for_fold (λ col name, casadi.vertcat [col; casadi.sym (label name) 1 1])
    start muscle_names.

(** [configure_muscles], up to the registration of the placeholders *)
Definition configure_muscles (nlp : NonLinearProgram) (model : PhaseModel)
    (as_states as_controls : bool) : res muscle_placeholders :=
  let muscle_names := muscleNames model in
  let idx := pretty (phase_idx model) in
  muscles_mx ←
    muscle_column (λ name, "Muscle_" +:+ name +:+ "_" +:+ idx) muscle_names casadi.empty;
  let combine := None in
  '(muscles, combine) ←
    (if as_states then
       muscles ←
         muscle_column (λ name, "Muscle_" +:+ name +:+ "_activation_" +:+ idx)
           muscle_names casadi.empty;
       Ok (Some muscles, Some "muscles_states")
     else Ok (None, combine));
  all_muscles ←
    (if as_controls then
       let n_col := control_type_value nlp in
       let all_muscles := replicate n_col casadi.empty in
       cols ←
         mapM (λ jc : nat * casadi.MX,
                 muscle_column
                   (λ name, "Muscle_" +:+ name +:+ "_excitation_" +:+ pretty jc.1
                              +:+ "_" +:+ idx)
                   muscle_names jc.2)
              (enumerate 0 all_muscles);
       Ok (Some cols)
     else Ok None);
  Ok (mkMusclePlaceholders muscles_mx muscles all_muscles combine).

(** The loop of [configure_contact] over [ocp.nlp]:
    [all_contact_names.extend([name for name in elt.model.contactNames()
                               if name not in all_contact_names])].
    The comprehension is evaluated against the list as it stands before the
    phase [elt] extends it. *)
Definition all_contact_names (ocp_nlp : list PhaseModel) : list string :=
  foldl (λ all_contact_names elt,
           all_contact_names
             ++ filter (λ name, name ∉ all_contact_names) (contactNames elt))
        [] ocp_nlp.

(** [Mapping([i for i, c in enumerate(all_contact_names) if c in contact_names_in_phase])] *)
Definition phase_mappings (all_contact_names contact_names_in_phase : list string)
  : Mapping.t :=
  Mapping.Mapping
    (omap (λ ic : nat * string,
             if decide (ic.2 ∈ contact_names_in_phase)
             then Some (Some (Z.of_nat ic.1)) else None)
          (enumerate 0 all_contact_names)).

(** What [configure_contact] stores: [nlp.contact_forces_func], and the
    [axes_idx] and [legend] of the plot it files under ["contact_forces"]. *)
Record contact_plot : Type := mkContactPlot {
  contact_forces_func : casadi.Function;
  axes_idx : Mapping.t;
  plot_legend : list string
}.

(** [configure_contact]; [ocp_nlp] is [ocp.nlp], of which the contact names of
    the models are read. The value of [dyn_func] is handed to [Function] as
    its single output: a list or tuple there is outside the embedding. *)
Definition configure_contact (ocp_nlp : list PhaseModel) (nlp : NonLinearProgram)
    (model : PhaseModel)
    (dyn_func : casadi.MX → casadi.MX → casadi.MX → NonLinearProgram → res dyn_result)
  : res contact_plot :=
  let symbolic_states := casadi.sym "x" (states_n nlp) 1 in
  let symbolic_controls := casadi.sym "u" (controls_n nlp) 1 in
  let symbolic_param := casadi.sym "p" (parameters_n nlp) 1 in
  forces ← dyn_func symbolic_states symbolic_controls symbolic_param nlp;
  forces ← match forces with
           | DynExpr e => Ok e
           | DynSeq _ => Unmodelled
           end;
  f ← casadi.new_Function "contact_forces_func"
        [symbolic_states; symbolic_controls; symbolic_param]
        [forces] ["x"; "u"; "p"] ["contact_forces"];
  let contact_forces_func := casadi.expand f in
  let all_contact_names := all_contact_names ocp_nlp in
  plot ← match plot_mapping model with
         | Some plot => Ok plot
         | None => Raise TypeError     (* argument of type 'NoneType' is not iterable *)
         end;
  let phase_mappings :=
    match plot !! "contact_forces" with
    | Some stored => stored
    | None => phase_mappings all_contact_names (contactNames model)
    end in
  Ok (mkContactPlot contact_forces_func phase_mappings all_contact_names).

End Problem.

(** * Properties *)

(** ** Generic facts about the monad and [enumerate] *)

Lemma mapM_res_cons {A B} (f : A → res B) x l :
  mapM f (x :: l) = y ← f x; k ← mapM f l; Ok (y :: k).
Proof. reflexivity. Qed.

Lemma enumerate_lookup {A} (l : list A) k j :
  enumerate k l !! j = (λ x, ((k + j)%nat, x)) <$> l !! j.
Proof.
  revert k j. induction l as [|x l IH]; intros k j; simpl; [done|].
  destruct j as [|j]; simpl.
  - by rewrite Nat.add_0_r.
  - rewrite IH. by replace (S k + j)%nat with (k + S j)%nat by lia.
Qed.

Lemma length_enumerate {A} (l : list A) k : length (enumerate k l) = length l.
Proof. revert k. induction l; intros; simpl; auto. Qed.

Lemma elem_of_enumerate {A} (l : list A) k i x :
  (i, x) ∈ enumerate k l ↔ (k ≤ i)%nat ∧ l !! (i - k)%nat = Some x.
Proof.
  rewrite list_elem_of_lookup. split.
  - intros [j Hj]. rewrite enumerate_lookup in Hj.
    destruct (l !! j) eqn:E; simplify_eq/=. split; [lia|].
    by replace (k + j - k)%nat with j by lia.
  - intros [Hk Hx]. exists (i - k)%nat. rewrite enumerate_lookup Hx /=.
    do 2 f_equal. lia.
Qed.

(** ** [Mapping.map] *)

Section take_set.
Implicit Types (rows dst vals : list (list Z)) (idx : list nat).

Lemma take_rows_ok rows idx :
  Forall (λ i, i < length rows)%nat idx →
  ∃ vals, np.take_rows rows idx = Ok vals ∧ Forall2 (λ i r, rows !! i = Some r) idx vals.
Proof.
  induction 1 as [|i idx Hi _ (vals & Hv & HF)].
  - exists []. split; [done|constructor].
  - destruct (lookup_lt_is_Some_2 rows i Hi) as [r Hr].
    exists (r :: vals). unfold np.take_rows in *. rewrite mapM_res_cons Hr /= Hv /=.
    split; [done|]. by constructor.
Qed.

Lemma take_rows_out_of_range rows idx :
  Exists (λ i, length rows ≤ i)%nat idx → np.take_rows rows idx = Raise IndexError.
Proof.
  unfold np.take_rows. induction 1 as [i idx Hi|i idx _ IH]; rewrite mapM_res_cons.
  - by rewrite (lookup_ge_None_2 rows i Hi).
  - destruct (rows !! i); simpl; [|done]. by rewrite IH.
Qed.

Lemma setitem_rows_ok dst idx vals :
  NoDup idx → Forall (λ i, i < length dst)%nat idx → length vals = length idx →
  ∃ out, np.setitem_rows dst idx vals = Ok out
    ∧ length out = length dst
    ∧ (∀ j i, idx !! j = Some i → out !! i = vals !! j)
    ∧ (∀ i, i ∉ idx → out !! i = dst !! i).
Proof.
  intros Hnd. revert dst vals.
  induction Hnd as [|i idx Hni Hnd IH]; intros dst vals Hlt Hlen.
  - destruct vals; [|done]. exists dst. by repeat split.
  - destruct vals as [|r vals]; [done|]. simpl in *.
    apply Forall_cons in Hlt as [Hi Hlt].
    rewrite decide_True //.
    destruct (IH (<[i:=r]> dst) vals) as (out & Ho & Hl & Hin & Hout).
    { by rewrite length_insert. } { lia. }
    exists out. rewrite length_insert in Hl. split_and!; [done..| |].
    + intros [|j] i'; simpl.
      * intros [= <-]. rewrite Hout //. by rewrite list_lookup_insert_eq.
      * apply Hin.
    + intros i' Hi'. apply not_elem_of_cons in Hi' as [Hne Hi'].
      rewrite Hout //. by rewrite list_lookup_insert_ne.
Qed.

End take_set.

Section index_lists.
Variable cond : option Z → bool.
Hypothesis cond_None : cond None = false.

Local Abbreviation new_from k l :=
  (omap (λ iv : nat * option Z, if cond iv.2 then Some iv.1 else None) (enumerate k l)).

Lemma index_new_bounds l k i :
  i ∈ new_from k l → (k ≤ i < k + length l)%nat.
Proof.
  rewrite list_elem_of_omap. intros ([i' x] & Hin & Hc).
  apply elem_of_enumerate in Hin as [Hk Hx]. simpl in Hc.
  destruct (cond x); simplify_eq. apply lookup_lt_Some in Hx. lia.
Qed.

Lemma index_new_NoDup l k : NoDup (new_from k l).
Proof.
  revert k. induction l as [|x l IH]; intros k; [constructor|].
  simpl. destruct (cond x); [|apply IH].
  constructor; [|apply IH]. intros Hin. apply index_new_bounds in Hin. lia.
Qed.

Lemma index_lists_length l k :
  length (new_from k l) = length (Mapping.index_in_origin cond l).
Proof.
  revert k. induction l as [|x l IH]; intros k; [done|].
  unfold Mapping.index_in_origin; simpl.
  destruct x as [z|]; [destruct (cond (Some z))|rewrite cond_None]; simpl.
  - f_equal. apply IH.
  - apply IH.
  - apply IH.
Qed.

Lemma index_lists_aligned l k j i :
  new_from k l !! j = Some i →
  ∃ z, (k ≤ i)%nat ∧ l !! (i - k)%nat = Some (Some z) ∧ cond (Some z) = true
       ∧ Mapping.index_in_origin cond l !! j = Some (Z.to_nat (Z.abs z)).
Proof.
  revert k j. induction l as [|x l IH]; intros k j; [done|].
  unfold Mapping.index_in_origin; simpl.
  assert (Hstep : ∀ j', new_from (S k) l !! j' = Some i →
     ∃ z, (k ≤ i)%nat ∧ (x :: l) !! (i - k)%nat = Some (Some z) ∧ cond (Some z) = true
          ∧ Mapping.index_in_origin cond l !! j' = Some (Z.to_nat (Z.abs z))).
  { intros j' Hj'. destruct (IH _ _ Hj') as (z & Hk & Hl & Hc & Ho).
    exists z. split_and!; [lia| |done..].
    by replace (i - k)%nat with (S (i - S k)) by lia. }
  destruct x as [z|]; [destruct (cond (Some z)) eqn:Hc|rewrite cond_None]; simpl; try apply Hstep.
  destruct j as [|j]; simpl; [|apply Hstep].
  intros [= <-]. exists z. rewrite Nat.sub_diag. by split_and!.
Qed.

Lemma index_new_complete l k n z :
  l !! n = Some (Some z) → cond (Some z) = true → (k + n)%nat ∈ new_from k l.
Proof.
  intros Hl Hc. apply list_elem_of_omap.
  exists ((k + n)%nat, Some z). simpl. rewrite Hc. split; [|done].
  apply elem_of_enumerate. split; [lia|]. by replace (k + n - k)%nat with n by lia.
Qed.

Lemma index_new_sound l k i :
  i ∈ new_from k l → ∃ z, l !! (i - k)%nat = Some (Some z) ∧ cond (Some z) = true.
Proof.
  intros [j Hj]%list_elem_of_lookup.
  destruct (index_lists_aligned _ _ _ _ Hj) as (z & _ & Hl & Hc & _). eauto.
Qed.

End index_lists.

Section fill.
Variable cond : option Z → bool.
Hypothesis cond_None : cond None = false.
Variable g : list (list Z) → list (list Z).
Variable f : list Z → list Z.
Hypothesis g_lookup : ∀ p j, g p !! j = f <$> p !! j.
Hypothesis g_length : ∀ p, length (g p) = length p.

Lemma fill_ok (xr dst : list (list Z)) (l : list (option Z)) :
  (∀ z, Some z ∈ l → cond (Some z) = true → (Mapping.source z < length xr)%nat) →
  length dst = length l →
  ∃ picked out,
    np.take_rows xr (Mapping.index_in_origin cond l) = Ok picked
    ∧ np.setitem_rows dst (Mapping.index_in_new cond l) (g picked) = Ok out
    ∧ length out = length dst
    ∧ (∀ i z, l !! i = Some (Some z) → cond (Some z) = true →
         out !! i = f <$> xr !! Mapping.source z)
    ∧ (∀ i, (∀ z, l !! i = Some (Some z) → cond (Some z) = false) → out !! i = dst !! i).
Proof.
  intros Hrange Hlen.
  destruct (take_rows_ok xr (Mapping.index_in_origin cond l)) as (picked & Hp & HF).
  { apply Forall_forall. intros o Ho. unfold Mapping.index_in_origin in Ho.
    apply list_elem_of_omap in Ho as (v & Hv & Hvo).
    destruct (cond v) eqn:Hc; [|done]. destruct v as [z|]; simplify_eq/=.
    by apply Hrange. }
  destruct (setitem_rows_ok dst (Mapping.index_in_new cond l) (g picked))
    as (out & Ho & Hl & Hin & Hout).
  { apply index_new_NoDup. }
  { apply Forall_forall. intros i Hi. apply index_new_bounds in Hi. lia. }
  { rewrite g_length -(Forall2_length _ _ _ HF). symmetry.
    by apply index_lists_length. }
  exists picked, out. split_and!; [done..| |].
  - intros i z Hi Hc.
    pose proof (index_new_complete cond l 0 i z Hi Hc) as [j Hj]%list_elem_of_lookup.
    simpl in Hj. rewrite (Hin j i Hj) g_lookup.
    destruct (index_lists_aligned cond cond_None l 0 j i Hj) as (z' & _ & Hz' & _ & Hoj).
    rewrite Nat.sub_0_r Hi in Hz'. simplify_eq.
    destruct (Forall2_lookup_l _ _ _ _ _ HF Hoj) as (r & Hr & Hxr).
    by rewrite Hr Hxr.
  - intros i Hi. apply Hout. intros Hin'.
    apply (index_new_sound cond cond_None) in Hin' as (z & Hz & Hc).
    rewrite Nat.sub_0_r in Hz. rewrite (Hi z Hz) in Hc. done.
Qed.

Lemma fill_out_of_range (xr : list (list Z)) (l : list (option Z)) z :
  Some z ∈ l → cond (Some z) = true → (length xr ≤ Mapping.source z)%nat →
  np.take_rows xr (Mapping.index_in_origin cond l) = Raise IndexError.
Proof.
  intros Hz Hc Hge. apply take_rows_out_of_range.
  apply Exists_exists. exists (Mapping.source z). split; [|done].
  apply list_elem_of_omap. exists (Some z). by rewrite Hc.
Qed.

End fill.

Lemma neg_rows_lookup dt p j :
  np.neg_rows dt p !! j = (λ r : list Z, np.negative dt <$> r) <$> p !! j.
Proof. unfold np.neg_rows. apply list_lookup_fmap. Qed.

Lemma neg_rows_length dt p : length (np.neg_rows dt p) = length p.
Proof. unfold np.neg_rows. apply length_fmap. Qed.

Lemma astype_lookup p j :
  np.astype_float64 p !! j = (λ r : list Z, np.to_float64 <$> r) <$> p !! j.
Proof. unfold np.astype_float64. apply list_lookup_fmap. Qed.

Lemma astype_length p : length (np.astype_float64 p) = length p.
Proof. unfold np.astype_float64. apply length_fmap. Qed.

Lemma plus_minus_cases (z : Z) :
  (Mapping.is_plus (Some z) = true ∧ Mapping.is_minus (Some z) = false ∧ Mapping.sign z = 1)
  ∨ (Mapping.is_plus (Some z) = false ∧ Mapping.is_minus (Some z) = true ∧ Mapping.sign z = -1).
Proof.
  unfold Mapping.is_plus, Mapping.is_minus, Mapping.sign.
  repeat case_bool_decide; try lia; auto.
Qed.

Lemma scale_one (r : list Z) : Z.mul 1 <$> r = r.
Proof.
  transitivity (id <$> r); [|apply list_fmap_id].
  apply list_fmap_ext. intros _ a _. unfold id. lia.
Qed.

Lemma scale_minus_one (r : list Z) : Z.mul (-1) <$> r = Z.opp <$> r.
Proof. apply list_fmap_ext. intros _ a _. lia. Qed.

(** *** Floats and wrap-around *)

(** Halves go to the even significand; the largest [int64] becomes 2^63; the
    opposite of the smallest [int64] is itself. *)
Example to_float64_rounds :
  np.to_float64 (2 ^ 53 + 1) = 2 ^ 53
  ∧ np.to_float64 (2 ^ 53 + 3) = 2 ^ 53 + 4
  ∧ np.to_float64 (- (2 ^ 53 + 1)) = - 2 ^ 53
  ∧ np.to_float64 (2 ^ 63 - 1) = 2 ^ 63
  ∧ np.negative np.int64 (- 2 ^ 63) = - 2 ^ 63.
Proof. split_and!; reflexivity. Qed.

Lemma to_float64_small (z : Z) : - 2 ^ 53 ≤ z ≤ 2 ^ 53 → np.to_float64 z = z.
Proof.
  intros Hz. unfold np.to_float64. cbv zeta.
  case_bool_decide as He; [done|].
  assert (Ha : Z.abs z = 2 ^ 53).
  { destruct (decide (Z.abs z < 2 ^ 53)) as [Hlt|Hge]; [|lia].
    destruct (decide (0 < Z.abs z)) as [Hpos|Hpos].
    - apply (Z.log2_lt_pow2 _ 53 Hpos) in Hlt. lia.
    - replace (Z.abs z) with 0 in He by lia. simpl in He. lia. }
  destruct (decide (0 ≤ z)) as [Hs|Hs].
  - replace z with (2 ^ 53) by lia. reflexivity.
  - replace z with (- 2 ^ 53) by lia. reflexivity.
Qed.

Lemma to_float64_opp (z : Z) : np.to_float64 (- z) = - np.to_float64 z.
Proof.
  unfold np.to_float64. cbv zeta. rewrite Z.abs_opp Z.sgn_opp.
  case_bool_decide; [done|]. by rewrite Z.mul_opp_l.
Qed.

Lemma wrap_int64_small (z : Z) : - 2 ^ 63 ≤ z < 2 ^ 63 → np.wrap_int64 z = z.
Proof. intros Hz. unfold np.wrap_int64. rewrite Z.mod_small; lia. Qed.

Lemma exact_to_float64 (dt : np.dtype) (z : Z) : np.exact dt z → np.to_float64 z = z.
Proof. destruct dt; simpl; [done|]. apply to_float64_small. Qed.

Lemma exact_negative (dt : np.dtype) (z : Z) :
  np.exact dt z → np.to_float64 (np.negative dt z) = - z.
Proof.
  destruct dt; simpl; intros Hz.
  - by rewrite to_float64_opp Hz.
  - rewrite wrap_int64_small; [lia|]. apply to_float64_small. lia.
Qed.

(** An entry that is handed on as it is comes out multiplied by the sign
    of the index entry. *)
Lemma stored_exact (dt : np.dtype) (v z : Z) :
  np.exact dt z → Mapping.stored dt v z = Mapping.sign v * z.
Proof.
  intros Hz. unfold Mapping.stored, Mapping.sign. case_bool_decide.
  - rewrite (exact_negative dt z Hz). lia.
  - rewrite (exact_to_float64 dt z Hz). lia.
Qed.

Lemma stored_exact_row (dt : np.dtype) (v : Z) (r : list Z) :
  Forall (np.exact dt) r → Mapping.stored dt v <$> r = Z.mul (Mapping.sign v) <$> r.
Proof.
  intros HF. apply list_fmap_ext. intros i z Hi. apply stored_exact.
  by eapply (proj1 (Forall_lookup _ _) HF).
Qed.

(** What comes out exact is a float. *)
Lemma stored_is_float (dt : np.dtype) (v z : Z) :
  np.exact dt z → np.exact np.float64 (Mapping.sign v * z).
Proof.
  intros Hz. simpl.
  assert (Hpm : ∀ s, s = 1 ∨ s = -1 → np.to_float64 (s * z) = s * z).
  { intros s [-> | ->].
    - rewrite Z.mul_1_l. by eapply exact_to_float64.
    - replace (-1 * z) with (- z) by lia. rewrite to_float64_opp.
      by rewrite (exact_to_float64 dt z Hz). }
  apply Hpm. destruct (plus_minus_cases v) as [(_ & _ & ->)|(_ & _ & ->)]; auto.
Qed.

(** A tuple or a list is first turned into an array; then the routine runs
    on the rows of the array. *)
Lemma map_unfold (self : Mapping.t) (obj : Mapping.operand) (x : np.ndarray) :
  Mapping.as_array obj = Some x →
  Mapping.map self obj
  = (let dt := Mapping.dtype_of obj in
     let m := Mapping.as_2d x in
     let l := Mapping.map_idx self in
     picked ← np.take_rows (np.rows m) (Mapping.index_in_origin Mapping.is_plus l);
     mapped_obj ← np.setitem_rows (np.rows (np.zeros (length l) (np.ncols m)))
                    (Mapping.index_in_new Mapping.is_plus l) (np.astype_float64 picked);
     picked ← np.take_rows (np.rows m) (Mapping.index_in_origin Mapping.is_minus l);
     mapped_obj ← np.setitem_rows mapped_obj (Mapping.index_in_new Mapping.is_minus l)
                    (np.astype_float64 (np.neg_rows dt picked));
     Ok (np.Nd2 (np.Mat (np.ncols m) mapped_obj))).
Proof. destruct obj; intros [= <-]; reflexivity. Qed.

(** The two examples of the specification, with 0.1, ..., 0.6 scaled to
    1, ..., 6. *)
Example map_example :
  Mapping.map (Mapping.Mapping [Some 0; Some 1; Some 1; Some 3; None; Some 1])
              (Mapping.OSeq [1; 2; 3; 4; 5; 6])
  = Ok (np.Nd2 (np.Mat 1 [[1]; [2]; [2]; [4]; [0]; [2]])).
Proof. reflexivity. Qed.

Example map_example_negative :
  Mapping.map (Mapping.Mapping [Some (-2)]) (Mapping.OSeq [1; 2; 3])
  = Ok (np.Nd2 (np.Mat 1 [[-3]])).
Proof. reflexivity. Qed.

(** What [Mapping.map] returns, row by row, when every referenced source row
    exists. *)
Lemma map_rows_char (self : Mapping.t) (obj : Mapping.operand) (x : np.ndarray) :
  Mapping.as_array obj = Some x →
  (∀ v, Some v ∈ Mapping.map_idx self →
        (Mapping.source v < length (np.rows (Mapping.as_2d x)))%nat) →
  ∃ out,
    Mapping.map self obj
      = Ok (np.Nd2 (np.Mat (np.ncols (Mapping.as_2d x)) out))
    ∧ length out = Mapping.len self
    ∧ (∀ i, Mapping.map_idx self !! i = Some None →
         out !! i = Some (replicate (np.ncols (Mapping.as_2d x)) 0))
    ∧ (∀ i v, Mapping.map_idx self !! i = Some (Some v) →
         out !! i = (λ r : list Z, Mapping.stored (Mapping.dtype_of obj) v <$> r)
                      <$> np.rows (Mapping.as_2d x) !! Mapping.source v).
Proof.
  intros Hobj Hrange. rewrite (map_unfold self obj x Hobj). cbv zeta.
  set (dt := Mapping.dtype_of obj).
  set (m := Mapping.as_2d x) in *. set (l := Mapping.map_idx self).
  set (dst := np.rows (np.zeros (length l) (np.ncols m))).
  assert (Hdst : length dst = length l) by apply length_replicate.
  destruct (fill_ok Mapping.is_plus eq_refl np.astype_float64 (λ r, np.to_float64 <$> r)
              astype_lookup astype_length (np.rows m) dst l)
    as (p1 & o1 & Ht1 & Hs1 & Hl1 & Hin1 & Hout1); [by auto|done|].
  destruct (fill_ok Mapping.is_minus eq_refl
              (λ p, np.astype_float64 (np.neg_rows dt p))
              (λ r, np.to_float64 <$> (np.negative dt <$> r))
              (λ p j, eq_trans (astype_lookup _ j)
                        (eq_trans (f_equal _ (neg_rows_lookup dt p j))
                                  (eq_sym (option_fmap_compose _ _ _))))
              (λ p, eq_trans (astype_length _) (neg_rows_length dt p))
              (np.rows m) o1 l)
    as (p2 & o2 & Ht2 & Hs2 & Hl2 & Hin2 & Hout2); [by auto|by rewrite Hl1|].
  rewrite Ht1 /= Hs1 /= Ht2 /= Hs2 /=.
  exists o2. split_and!; [done|unfold Mapping.len; by rewrite Hl2 Hl1| |].
  - intros i Hi. rewrite Hout2; [intros; congruence|].
    rewrite Hout1; [intros; congruence|].
    unfold dst; simpl. apply lookup_replicate_2. by apply lookup_lt_Some in Hi.
  - intros i v Hi.
    destruct (plus_minus_cases v) as [(Hp & Hm & _)|(Hp & Hm & _)].
    + rewrite Hout2; [intros; congruence|]. rewrite (Hin1 i v Hi Hp).
      destruct (np.rows m !! Mapping.source v) as [r|]; simpl; [|done]. f_equal.
      apply list_fmap_ext. intros _ z _. unfold Mapping.stored.
      unfold Mapping.is_minus in Hm. by rewrite Hm.
    + rewrite (Hin2 i v Hi Hm).
      destruct (np.rows m !! Mapping.source v) as [r|]; simpl; [|done]. f_equal.
      rewrite -list_fmap_compose.
      apply list_fmap_ext. intros _ z _. unfold Mapping.stored, compose.
      unfold Mapping.is_minus in Hm. by rewrite Hm.
Qed.

(** C1, as the code has it. Applied to an array of integers or of floats,
    or to a tuple or a list of integers, with enough rows, [Mapping.map] returns a float array with one row per entry
    of [map_idx]. A sentinel entry gives a row of zeros. An entry [v] gives
    row [|v|] of the input, all its columns, each entry negated in the
    element type of the input when [v < 0] and then converted to a float;
    when the entries of that row are handed on as they are (the entries of
    a float array, and the integers within 2^53 of zero) this is the row
    multiplied by [sign v], which is -1 for a negative entry and 1
    otherwise, so that the entry 0 copies row 0. An input of the same
    element type that agrees on the referenced rows gives the same result. *)
Theorem Mapping_map_rows (self : Mapping.t) (obj : Mapping.operand) (x : np.ndarray) :
  Mapping.as_array obj = Some x →
  Forall (Forall (np.fits (Mapping.dtype_of obj))) (np.rows (Mapping.as_2d x)) →
  (∀ v, Some v ∈ Mapping.map_idx self →
        (Mapping.source v < length (np.rows (Mapping.as_2d x)))%nat) →
  ∃ out,
    Mapping.map self obj
      = Ok (np.Nd2 (np.Mat (np.ncols (Mapping.as_2d x)) out))
    ∧ length out = Mapping.len self
    ∧ (∀ i, Mapping.map_idx self !! i = Some None →
         out !! i = Some (replicate (np.ncols (Mapping.as_2d x)) 0))
    ∧ (∀ i v, Mapping.map_idx self !! i = Some (Some v) →
         ∃ r, np.rows (Mapping.as_2d x) !! Mapping.source v = Some r
              ∧ out !! i = Some (Mapping.stored (Mapping.dtype_of obj) v <$> r)
              ∧ (Forall (np.exact (Mapping.dtype_of obj)) r →
                 out !! i = Some (Z.mul (Mapping.sign v) <$> r)))
    ∧ (∀ (obj' : Mapping.operand) (x' : np.ndarray),
         Mapping.as_array obj' = Some x' →
         Forall (Forall (np.fits (Mapping.dtype_of obj'))) (np.rows (Mapping.as_2d x')) →
         Mapping.dtype_of obj' = Mapping.dtype_of obj →
         np.ncols (Mapping.as_2d x') = np.ncols (Mapping.as_2d x) →
         (∀ v, Some v ∈ Mapping.map_idx self →
               np.rows (Mapping.as_2d x') !! Mapping.source v
               = np.rows (Mapping.as_2d x) !! Mapping.source v) →
         Mapping.map self obj' = Mapping.map self obj).
Proof.
  intros Hobj _ Hrange.
  destruct (map_rows_char self obj x Hobj Hrange) as (out & Hmap & Hlen & Hzero & Hrow).
  exists out. split_and!; [done..| |].
  - intros i v Hi.
    destruct (lookup_lt_is_Some_2 (np.rows (Mapping.as_2d x)) (Mapping.source v)) as [r Hr].
    { apply Hrange. by eapply list_elem_of_lookup_2. }
    exists r. rewrite (Hrow i v Hi) Hr. split_and!; [done..|].
    intros Hexact. simpl. by rewrite (stored_exact_row _ v r Hexact).
  - intros obj' x' Hobj' _ Hdt Hcols Hagree.
    destruct (map_rows_char self obj' x' Hobj') as (out' & Hmap' & Hlen' & Hzero' & Hrow').
    { intros v Hv. apply lookup_lt_is_Some. rewrite (Hagree v Hv).
      apply lookup_lt_is_Some. by apply Hrange. }
    rewrite Hmap' Hmap Hcols. do 3 f_equal.
    apply list_eq. intros i.
    destruct (Mapping.map_idx self !! i) as [[v|]|] eqn:Hi.
    + rewrite (Hrow' i v Hi) (Hrow i v Hi) Hdt Hagree //. by eapply list_elem_of_lookup_2.
    + by rewrite (Hzero' i Hi) (Hzero i Hi) Hcols.
    + apply lookup_ge_None in Hi. unfold Mapping.len in *.
      rewrite !lookup_ge_None_2 //; lia.
Qed.

Lemma Mapping_map_rows_witness :
  ∃ out,
    Mapping.map (Mapping.Mapping [Some 0; Some 1; Some 1; Some 3; None; Some (-2)])
                (Mapping.OSeq [1; 2; 3; 4; 5; 6])
      = Ok (np.Nd2 (np.Mat 1 out))
    ∧ out = [[1]; [2]; [2]; [4]; [0]; [-3]].
Proof.
  destruct (Mapping_map_rows
              (Mapping.Mapping [Some 0; Some 1; Some 1; Some 3; None; Some (-2)])
              (Mapping.OSeq [1; 2; 3; 4; 5; 6]) (np.Nd1 [1; 2; 3; 4; 5; 6]))
    as (out & Hmap & _).
  - reflexivity.
  - simpl. repeat constructor; lia.
  - intros v Hv. simpl.
    repeat (apply elem_of_cons in Hv as [Hv|Hv]; [simplify_eq; vm_compute; lia|]).
    by apply elem_of_nil in Hv.
  - exists out. split; [exact Hmap|].
    vm_compute in Hmap. by injection Hmap as <-.
Defined.

(** C1, as stated, fails on integers: with an array of integers that holds
    2^53 + 1 and -2^63, the entry 0 yields the float 2^53, not the entry it
    refers to, and the entry -1 yields -2^63, not its opposite. *)
Lemma Mapping_map_rounds_and_wraps :
  Mapping.map (Mapping.Mapping [Some 0; Some (-1)])
              (Mapping.OArr (np.Nd1 [2 ^ 53 + 1; - 2 ^ 63]))
  = Ok (np.Nd2 (np.Mat 1 [[2 ^ 53]; [- 2 ^ 63]]))
  ∧ [2 ^ 53] ≠ Z.mul (Mapping.sign 0) <$> [2 ^ 53 + 1]
  ∧ [- 2 ^ 63] ≠ Z.mul (Mapping.sign (-1)) <$> [- 2 ^ 63].
Proof.
  split_and!.
  - vm_compute. reflexivity.
  - intros H. vm_compute in H. discriminate H.
  - intros H. vm_compute in H. discriminate H.
Qed.

Lemma take_rows_cases (rows : list (list Z)) (idx : list nat) :
  (∃ vals, np.take_rows rows idx = Ok vals ∧ length vals = length idx)
  ∨ np.take_rows rows idx = Raise IndexError.
Proof.
  destruct (decide (Forall (λ i, i < length rows)%nat idx)) as [HF|HF].
  - left. destruct (take_rows_ok rows idx HF) as (vals & Hv & H2).
    exists vals. split; [done|]. symmetry. by eapply Forall2_length.
  - right. apply take_rows_out_of_range.
    apply not_Forall_Exists in HF; [|apply _].
    eapply Exists_impl; [done|]. simpl. lia.
Qed.

(** C7. When [map_idx] refers to a source row that the input (an array, a
    tuple or a list) does not have, [Mapping.map] raises [IndexError] and
    returns nothing. *)
Theorem Mapping_map_out_of_range (self : Mapping.t) (obj : Mapping.operand)
    (x : np.ndarray) (v : Z) :
  Mapping.as_array obj = Some x →
  Some v ∈ Mapping.map_idx self →
  (length (np.rows (Mapping.as_2d x)) ≤ Mapping.source v)%nat →
  Mapping.map self obj = Raise IndexError.
Proof.
  intros Hobj Hv Hge. rewrite (map_unfold self obj x Hobj). cbv zeta.
  set (m := Mapping.as_2d x) in *. set (l := Mapping.map_idx self) in *.
  set (dst := np.rows (np.zeros (length l) (np.ncols m))).
  destruct (plus_minus_cases v) as [(Hp & Hm & _)|(Hp & Hm & _)].
  - by rewrite (fill_out_of_range Mapping.is_plus (np.rows m) l v Hv Hp Hge).
  - destruct (take_rows_cases (np.rows m) (Mapping.index_in_origin Mapping.is_plus l))
      as [(p1 & -> & Hlen)| ->]; [|done]. simpl.
    destruct (setitem_rows_ok dst (Mapping.index_in_new Mapping.is_plus l)
                (np.astype_float64 p1))
      as (o1 & -> & _).
    + apply index_new_NoDup.
    + apply Forall_forall. intros i Hi. apply index_new_bounds in Hi.
      unfold dst; simpl. rewrite length_replicate. lia.
    + rewrite astype_length Hlen. symmetry. by apply index_lists_length.
    + simpl. by rewrite (fill_out_of_range Mapping.is_minus (np.rows m) l v Hv Hm Hge).
Qed.

Lemma Mapping_map_out_of_range_witness :
  Mapping.map (Mapping.Mapping [Some 0; Some (-3)]) (Mapping.OArr (np.Nd1 [1; 2; 3]))
  = Raise IndexError.
Proof.
  apply (Mapping_map_out_of_range _ _ (np.Nd1 [1; 2; 3]) (-3)).
  - reflexivity.
  - rewrite !elem_of_cons. by right; left.
  - vm_compute. lia.
Defined.

(** ** [BiMappingList.add] *)

Section bimapping_list.
Import BiMappingList.
Implicit Types (self : BiMappingList.t) (name : string) (phase : nat).
Implicit Types (bm : bimapping_arg) (ts tf : option BiMapping.arg).

Lemma contains_true self name d :
  options self !! 0%nat = Some d → name ∈ dom d → contains self name = Ok true.
Proof. intros Hd Hin. unfold contains. by rewrite Hd bool_decide_eq_true_2. Qed.

Lemma contains_false self name d :
  options self !! 0%nat = Some d → name ∉ dom d → contains self name = Ok false.
Proof. intros Hd Hin. unfold contains. by rewrite Hd bool_decide_eq_false_2. Qed.

Lemma contains_cases self name :
  options self ≠ [] → contains self name = Ok true ∨ contains self name = Ok false.
Proof.
  intros Hne. unfold contains. destruct (options self) as [|d opts]; [done|]. simpl.
  case_bool_decide; auto.
Qed.

Lemma add_duplicate_phase0 self name ts tf bm phase :
  contains self name = Ok true → add self name ts tf bm phase = Raise ValueError.
Proof. intros Hc. unfold add, add_rec. by rewrite Hc. Qed.

Lemma add_lists self name s f bm phase :
  contains self name = Ok false → (∀ b, bm ≠ BBi b) →
  add self name (Some s) (Some f) bm phase = _add self name phase s f.
Proof.
  intros Hc Hbm. unfold add, add_rec. rewrite Hc. cbn [mbind res_bind].
  destruct bm as [|b|]; [done| |done]. by destruct (Hbm b).
Qed.

Lemma init_mappings (b : BiMapping.t) :
  BiMapping.init (BiMapping.AMapping (BiMapping.to_second b))
                 (BiMapping.AMapping (BiMapping.to_first b)) = Ok b.
Proof. by destruct b. Qed.

Lemma add_bimapping self name b phase :
  contains self name = Ok false →
  add self name None None (BBi b) phase
  = _add self name phase (BiMapping.AMapping (BiMapping.to_second b))
                         (BiMapping.AMapping (BiMapping.to_first b)).
Proof. intros Hc. unfold add, add_rec. by rewrite !Hc. Qed.

(** Two levels of the recursion are enough: [add] never runs into the bound. *)
Lemma add_within_bound self name ts tf bm phase :
  add self name ts tf bm phase ≠ Unmodelled.
Proof.
  unfold add, add_rec, contains, _add.
  destruct (options self !! 0%nat) as [d|]; [|done]. cbn [mbind res_bind].
  case_bool_decide; [done|].
  destruct bm as [|b|], ts as [s|], tf as [f|]; try done; by destruct s, f.
Qed.

(** The registry after [_add]. *)
Lemma _add_options self key phase s f b :
  BiMapping.init s f = Ok b →
  ∃ self', _add self key phase s f = Ok self' ∧
    ∀ i, options self' !! i =
      if decide (i = phase) then Some (<[key:=b]> (default ∅ (options self !! i)))
      else if decide (i < length (options self))%nat then options self !! i
      else if decide (i < phase)%nat then Some ∅ else None.
Proof.
  intros Hb. unfold _add. rewrite Hb /=. eexists. split; [done|]. intros i. simpl.
  set (opts := options self). set (ext := replicate (S phase - length opts) ∅).
  assert (Hext : ∀ j, (opts ++ ext) !! j =
     if decide (j < length opts)%nat then opts !! j
     else if decide (j ≤ phase)%nat then Some ∅ else None).
  { intros j. case_decide.
    - by rewrite lookup_app_l.
    - rewrite lookup_app_r; [lia|]. unfold ext. case_decide.
      + apply lookup_replicate_2. lia.
      + apply lookup_ge_None_2. rewrite length_replicate. lia. }
  case_decide as Hi.
  - subst i. rewrite list_lookup_alter_eq Hext.
    case_decide as Hlt.
    + destruct (lookup_lt_is_Some_2 opts phase Hlt) as [d Hd]. by rewrite Hd.
    + rewrite decide_True //. by rewrite lookup_ge_None_2; [lia|].
  - rewrite list_lookup_alter_ne; [done|]. rewrite Hext.
    repeat case_decide; try done; lia.
Qed.

Lemma _add_entry self key phase s f b :
  BiMapping.init s f = Ok b →
  ∃ self', _add self key phase s f = Ok self'
    ∧ entry self' phase key = Some b
    ∧ (∀ k, contains self' k = Ok true →
            contains self k = Ok true ∨ (k = key ∧ phase = 0%nat))
    ∧ options self' ≠ [].
Proof.
  intros Hb. destruct (_add_options self key phase s f b Hb) as (self' & Hadd & Hopt).
  exists self'. split_and!; [done| | |].
  - unfold entry. rewrite Hopt decide_True //=. apply lookup_insert_eq.
  - intros k. unfold contains. rewrite Hopt.
    destruct (decide (0%nat = phase)) as [<-|Hp]; simpl.
    + intros [= Hk]. apply bool_decide_eq_true in Hk. rewrite dom_insert_L in Hk.
      apply elem_of_union in Hk as [Hk|Hk].
      * apply elem_of_singleton in Hk. by right.
      * left. destruct (options self !! 0%nat) as [d|]; simpl in *.
        -- by rewrite bool_decide_eq_true_2.
        -- set_solver.
    + case_decide; [by left|]. case_decide; [|done].
      intros Hk; simplify_eq/=; try set_solver.
  - intros Hnil. specialize (Hopt phase). rewrite Hnil decide_True // in Hopt.
Qed.

Lemma _add_length self key phase s f self' :
  _add self key phase s f = Ok self' →
  length (options self') = (length (options self) `max` S phase)%nat.
Proof.
  unfold _add. destruct (BiMapping.init s f); simpl; [|done..]. intros [= <-]. simpl.
  rewrite length_alter length_app length_replicate. lia.
Qed.

Lemma _add_commute self n1 n2 p1 p2 s1 f1 b1 s2 f2 b2 :
  n1 ≠ n2 → BiMapping.init s1 f1 = Ok b1 → BiMapping.init s2 f2 = Ok b2 →
  ∃ self1 self2 self12,
    _add self n1 p1 s1 f1 = Ok self1 ∧ _add self1 n2 p2 s2 f2 = Ok self12
    ∧ _add self n2 p2 s2 f2 = Ok self2 ∧ _add self2 n1 p1 s1 f1 = Ok self12.
Proof.
  intros Hne H1 H2.
  destruct (_add_options self n1 p1 s1 f1 b1 H1) as (self1 & Ha1 & Ho1).
  destruct (_add_options self1 n2 p2 s2 f2 b2 H2) as (self12 & Ha12 & Ho12).
  destruct (_add_options self n2 p2 s2 f2 b2 H2) as (self2 & Ha2 & Ho2).
  destruct (_add_options self2 n1 p1 s1 f1 b1 H1) as (self21 & Ha21 & Ho21).
  exists self1, self2, self12. split_and!; [done..|].
  rewrite Ha21. f_equal. destruct self12 as [o12], self21 as [o21]. f_equal. simpl in *.
  apply list_eq. intros i. rewrite Ho12 Ho21 Ho1 Ho2.
  rewrite (_add_length _ _ _ _ _ _ Ha1) (_add_length _ _ _ _ _ _ Ha2).
  destruct (options self !! i) as [d|] eqn:Hi.
  - apply lookup_lt_Some in Hi.
    repeat case_decide; simplify_eq/=; try lia; try done.
    f_equal. by apply insert_insert_ne.
  - apply lookup_ge_None in Hi.
    repeat case_decide; simplify_eq/=; try lia; try done.
    f_equal. by apply insert_insert_ne.
Qed.

(** Where a successful [add] comes from, and what it leaves. *)
Lemma add_ok_inv self name ts tf bm phase self' :
  add self name ts tf bm phase = Ok self' →
  (∃ b, bm = BBi b ∧ ts = None ∧ tf = None ∧ entry self' phase name = Some b)
  ∨ ((∀ b, bm ≠ BBi b)
     ∧ ∃ s f b, ts = Some s ∧ tf = Some f ∧ BiMapping.init s f = Ok b
                ∧ entry self' phase name = Some b).
Proof.
  intros Hadd.
  destruct (contains self name) as [[|]| |] eqn:Hc;
    try (unfold add, add_rec in Hadd; rewrite Hc in Hadd; done).
  destruct bm as [|b|].
  - right. split; [done|].
    destruct ts as [s|], tf as [f|];
      try (unfold add, add_rec in Hadd; rewrite Hc in Hadd; done).
    rewrite add_lists // in Hadd.
    destruct (BiMapping.init s f) as [b| |] eqn:Hb;
      try (unfold _add in Hadd; rewrite Hb in Hadd; done).
    destruct (_add_entry self name phase s f b Hb) as (x & Hx & He & _).
    exists s, f, b. split_and!; try done. congruence.
  - left. exists b.
    destruct ts as [s|]; [unfold add, add_rec in Hadd; rewrite Hc in Hadd; done|].
    destruct tf as [f|]; [unfold add, add_rec in Hadd; rewrite Hc in Hadd; done|].
    split_and!; try done.
    rewrite add_bimapping // in Hadd.
    destruct (_add_entry self name phase _ _ b (init_mappings b)) as (x & Hx & He & _).
    congruence.
  - right. split; [done|].
    destruct ts as [s|], tf as [f|];
      try (unfold add, add_rec in Hadd; rewrite Hc in Hadd; done).
    rewrite add_lists // in Hadd.
    destruct (BiMapping.init s f) as [b| |] eqn:Hb;
      try (unfold _add in Hadd; rewrite Hb in Hadd; done).
    destruct (_add_entry self name phase s f b Hb) as (x & Hx & He & _).
    exists s, f, b. split_and!; try done. congruence.
Qed.

Lemma entry_phase0_contains self name :
  is_Some (entry self 0 name) → contains self name = Ok true.
Proof.
  intros [b Hb]. unfold entry in Hb.
  destruct (options self !! 0%nat) as [d|] eqn:Hd; [|done].
  eapply contains_true; [done|]. apply elem_of_dom. by exists b.
Qed.

(** Names filed under phase 0. A name that has an entry for phase 0, which is
    what [name in self] tests, cannot be added again: [add] raises
    [ValueError] whatever the other arguments and the phase are; this is the
    case of every name added with phase 0. Two distinct names that are both
    new can be added from their index lists in either order, for any phases,
    and both orders leave the same registry, which holds both entries. *)
Lemma add_phase0_names self :
  (∀ name ts tf bm phase,
     is_Some (entry self 0 name) → add self name ts tf bm phase = Raise ValueError)
  ∧ (∀ name ts tf bm self',
       add self name ts tf bm 0 = Ok self' →
       ∀ ts' tf' bm' phase', add self' name ts' tf' bm' phase' = Raise ValueError)
  ∧ (∀ n1 n2 p1 p2 s1 f1 b1 s2 f2 b2,
       n1 ≠ n2 → contains self n1 = Ok false → contains self n2 = Ok false →
       BiMapping.init s1 f1 = Ok b1 → BiMapping.init s2 f2 = Ok b2 →
       ∃ self1 self2 self12,
         add self n1 (Some s1) (Some f1) BNone p1 = Ok self1
         ∧ add self1 n2 (Some s2) (Some f2) BNone p2 = Ok self12
         ∧ add self n2 (Some s2) (Some f2) BNone p2 = Ok self2
         ∧ add self2 n1 (Some s1) (Some f1) BNone p1 = Ok self12
         ∧ entry self12 p1 n1 = Some b1 ∧ entry self12 p2 n2 = Some b2).
Proof.
  split_and!.
  - intros name ts tf bm phase Hentry.
    by apply add_duplicate_phase0, entry_phase0_contains.
  - intros name ts tf bm self' Hadd ts' tf' bm' phase'.
    apply add_duplicate_phase0, entry_phase0_contains.
    destruct (add_ok_inv _ _ _ _ _ _ _ Hadd) as [(b & _ & _ & _ & He)|(_ & s & f & b & _ & _ & _ & He)];
      by exists b.
  - intros n1 n2 p1 p2 s1 f1 b1 s2 f2 b2 Hne Hc1 Hc2 H1 H2.
    destruct (_add_commute self n1 n2 p1 p2 s1 f1 b1 s2 f2 b2 Hne H1 H2)
      as (self1 & self2 & self12 & Ha1 & Ha12 & Ha2 & Ha21).
    assert (Hfresh : ∀ selfa key p s f b k, BiMapping.init s f = Ok b →
              _add self key p s f = Ok selfa → k ≠ key → contains self k = Ok false →
              contains selfa k = Ok false).
    { intros selfa key p s f b k Hb Ha Hk Hc.
      destruct (_add_entry self key p s f b Hb) as (self' & Ha' & _ & Hcont & Hnil).
      rewrite Ha in Ha'. injection Ha' as <-.
      destruct (contains_cases selfa k Hnil) as [Ht|Hf]; [|done].
      destruct (Hcont k Ht) as [Ht'|[? _]]; [congruence|done]. }
    exists self1, self2, self12.
    rewrite (add_lists self n1) // (add_lists self n2) //.
    rewrite (add_lists self1 n2) //; first by apply (Hfresh self1 n1 p1 s1 f1 b1).
    rewrite (add_lists self2 n1) //; first by apply (Hfresh self2 n2 p2 s2 f2 b2).
    split_and!; [done..| |].
    + destruct (_add_entry self2 n1 p1 s1 f1 b1 H1) as (x & Hx & He & _). congruence.
    + destruct (_add_entry self1 n2 p2 s2 f2 b2 H2) as (x & Hx & He & _). congruence.
Qed.

(** C6. The duplicate check of [add] reads the dictionary of phase 0 alone.
    A name that has an entry under phase 1 and none under phase 0 is
    registered, yet [name in self] is false: [add] raises nothing and hands
    the call on to [OptionDict._add], whatever the phase argument and
    whichever of the two forms the call has. Had the name an entry under
    phase 0, the same call would raise [ValueError]. *)
Theorem add_misses_later_phases (d0 d1 : gmap string BiMapping.t)
    (rest : list (gmap string BiMapping.t)) (name : string) (b : BiMapping.t) :
  d1 !! name = Some b →
  let self := BiMappingList (d0 :: d1 :: rest) in
  registered self name
  ∧ entry self 1 name = Some b
  ∧ (is_Some (d0 !! name) →
       ∀ ts tf bm phase, add self name ts tf bm phase = Raise ValueError)
  ∧ (d0 !! name = None →
       contains self name = Ok false
       ∧ (∀ s f phase,
            add self name (Some s) (Some f) BNone phase = _add self name phase s f)
       ∧ (∀ b' phase,
            add self name None None (BBi b') phase
            = _add self name phase (BiMapping.AMapping (BiMapping.to_second b'))
                                   (BiMapping.AMapping (BiMapping.to_first b')))).
Proof.
  intros Hb self.
  assert (Hentry : entry self 1 name = Some b) by done.
  split_and!; [by exists 1%nat; rewrite Hentry|done| |].
  - intros Hd0 ts tf bm phase. apply add_duplicate_phase0.
    apply (contains_true self name d0); [done|]. by apply elem_of_dom.
  - intros Hd0.
    assert (Hc : contains self name = Ok false).
    { apply (contains_false self name d0); [done|]. by apply not_elem_of_dom. }
    split_and!; [done| |].
    + intros s f phase. by apply add_lists.
    + intros b' phase. by apply add_bimapping.
Qed.

Lemma add_misses_later_phases_witness :
  contains (BiMappingList
              [∅; {["q" := BiMapping.BiMapping (Mapping.Mapping [Some 0])
                                              (Mapping.Mapping [Some 0])]}]) "q"
  = Ok false
  ∧ add (BiMappingList
           [∅; {["q" := BiMapping.BiMapping (Mapping.Mapping [Some 0])
                                           (Mapping.Mapping [Some 0])]}]) "q"
        (Some (BiMapping.ASeq [Some 1])) (Some (BiMapping.ASeq [Some 1])) BNone 1
    = _add (BiMappingList
              [∅; {["q" := BiMapping.BiMapping (Mapping.Mapping [Some 0])
                                              (Mapping.Mapping [Some 0])]}]) "q" 1
           (BiMapping.ASeq [Some 1]) (BiMapping.ASeq [Some 1]).
Proof.
  destruct (add_misses_later_phases ∅
              {["q" := BiMapping.BiMapping (Mapping.Mapping [Some 0])
                                           (Mapping.Mapping [Some 0])]}
              [] "q"
              (BiMapping.BiMapping (Mapping.Mapping [Some 0]) (Mapping.Mapping [Some 0])))
    as (_ & _ & _ & Hmiss).
  - reflexivity.
  - destruct Hmiss as (Hc & Hadd & _); [reflexivity|].
    split; [exact Hc|]. apply Hadd.
Defined.

(** With [OptionDict] as modelled above (a new registry holds the empty
    dictionary of phase 0, and [_add] files the entry under its phase), the
    two calls [add("q", [0], [0], phase=1)] and [add("q", [1], [1], phase=1)]
    both return: the second replaces the entry of the first. *)
Example add_duplicate_in_later_phase :
  ∃ self1 self2,
    add init "q" (Some (BiMapping.ASeq [Some 0])) (Some (BiMapping.ASeq [Some 0])) BNone 1
      = Ok self1
    ∧ registered self1 "q"
    ∧ add self1 "q" (Some (BiMapping.ASeq [Some 1])) (Some (BiMapping.ASeq [Some 1])) BNone 1
      = Ok self2.
Proof.
  eexists. eexists. split_and!; [reflexivity| |reflexivity].
  exists 1%nat. vm_compute. eauto.
Qed.

(** C8. [add] refuses a BiMapping given together with [to_second] or
    [to_first], and refuses a call without BiMapping in which [to_second] or
    [to_first] is left out; an entry is created from a BiMapping alone or from
    the two index lists alone, and both forms do create one for a new name. *)
Theorem add_construction_forms self name ts tf bm phase :
  options self ≠ [] →
  (∀ b, bm = BBi b → ts ≠ None ∨ tf ≠ None →
        add self name ts tf bm phase = Raise ValueError)
  ∧ ((∀ b, bm ≠ BBi b) → ts = None ∨ tf = None →
        add self name ts tf bm phase = Raise ValueError)
  ∧ (∀ self', add self name ts tf bm phase = Ok self' →
        (∃ b, bm = BBi b ∧ ts = None ∧ tf = None ∧ entry self' phase name = Some b)
        ∨ ((∀ b, bm ≠ BBi b)
           ∧ ∃ s f b, ts = Some s ∧ tf = Some f ∧ BiMapping.init s f = Ok b
                      ∧ entry self' phase name = Some b))
  ∧ (contains self name = Ok false →
        (∀ b, bm = BBi b → ts = None → tf = None →
              ∃ self', add self name ts tf bm phase = Ok self')
        ∧ (∀ s f b, (∀ b', bm ≠ BBi b') → ts = Some s → tf = Some f →
              BiMapping.init s f = Ok b →
              ∃ self', add self name ts tf bm phase = Ok self')).
Proof.
  intros Hne.
  destruct (contains_cases self name Hne) as [Hc|Hc].
  { rewrite add_duplicate_phase0 //. split_and!; [done..|]. by rewrite Hc. }
  split_and!.
  - intros b -> Hsome. unfold add, add_rec. rewrite Hc. cbn [mbind res_bind].
    destruct Hsome as [H|H].
    + by rewrite (bool_decide_eq_true_2 _ H).
    + rewrite (bool_decide_eq_true_2 (tf ≠ None) H). by rewrite orb_true_r.
  - intros Hbm Hnone. unfold add, add_rec. rewrite Hc. cbn [mbind res_bind].
    destruct bm as [|b|]; [|by destruct (Hbm b)|];
      destruct Hnone as [-> | ->]; try done; by destruct ts.
  - intros self' Hadd. by apply (add_ok_inv self).
  - intros _. split.
    + intros b -> -> ->. rewrite add_bimapping //.
      destruct (_add_entry self name phase _ _ b (init_mappings b)) as (x & Hx & _).
      eauto.
    + intros s f b Hbm -> -> Hb. rewrite add_lists //.
      destruct (_add_entry self name phase s f b Hb) as (x & Hx & _). eauto.
Qed.

Lemma add_construction_forms_witness :
  add init "q" (Some (BiMapping.ASeq [Some 0])) None
      (BBi (BiMapping.BiMapping (Mapping.Mapping [Some 0]) (Mapping.Mapping [Some 0]))) 0
  = Raise ValueError.
Proof.
  destruct (add_construction_forms init "q" (Some (BiMapping.ASeq [Some 0])) None
              (BBi (BiMapping.BiMapping (Mapping.Mapping [Some 0]) (Mapping.Mapping [Some 0])))
              0) as [Hboth _]; [done|].
  eapply Hboth; [reflexivity|]. by left.
Defined.

End bimapping_list.


(** ** The merge routines of utils.py *)

Section merges.
Import utils.

Lemma mapM_res_ok {A B} (f : A → res B) (h : A → B) (l : list A) :
  (∀ x, x ∈ l → f x = Ok (h x)) → mapM f l = Ok (h <$> l).
Proof.
  induction l as [|x l IH]; intros Hf; [done|].
  rewrite mapM_res_cons Hf; [by left|]. simpl.
  rewrite IH; [|done]. intros y Hy. apply Hf. by right.
Qed.

Lemma mapM_res_fmap {A B C} (f : B → res C) (g : A → B) (l : list A) :
  mapM f (g <$> l) = mapM (f ∘ g) l.
Proof.
  induction l as [|x l IH]; [done|].
  rewrite fmap_cons !mapM_res_cons IH. done.
Qed.

Lemma mapM_res_raise {A B} (f : A → res B) (l : list A) (e : exn) :
  (∀ x, x ∈ l → (∃ y, f x = Ok y) ∨ f x = Raise e) →
  (∃ x, x ∈ l ∧ f x = Raise e) →
  mapM f l = Raise e.
Proof.
  induction l as [|x l IH]; intros Hall (x0 & Hin & Hx0).
  - by apply elem_of_nil in Hin.
  - rewrite mapM_res_cons.
    destruct (Hall x) as [[y Hy]| ->]; [by left| |done].
    rewrite Hy /=. rewrite IH; [| |done].
    + intros z Hz. apply Hall. by right.
    + apply elem_of_cons in Hin as [->|Hin]; [congruence|eauto].
Qed.

(** The loop that builds [final_tuple], on rank-one blocks. *)
Lemma final_tuple_vectors (c : bool) (ds : list (list Z)) (k n : nat) :
  n = (k + length ds)%nat →
  mapM (λ iy : nat * pyval,
          if bool_decide (iy.1 < n - 1)%nat && c
          then sh_y ← shape iy.2;
               if bool_decide (length sh_y = 2%nat)
               then all_but_last_col iy.2 else all_but_last iy.2
          else Ok iy.2)
       (enumerate k (vector <$> ds))
  = Ok (vector <$> trim c ds).
Proof.
  revert k. induction ds as [|d ds IH]; intros k Hn; [done|].
  rewrite fmap_cons. cbn [enumerate]. rewrite mapM_res_cons.
  rewrite (IH (S k)); [simpl in Hn; lia|]. cbn [fst snd].
  destruct ds as [|d' ds].
  - rewrite bool_decide_eq_false_2; [simpl in Hn; lia|]. done.
  - rewrite bool_decide_eq_true_2; [simpl in Hn; lia|].
    destruct c; done.
Qed.

(** The same loop in the dictionary routine, on rank-two blocks. *)
Lemma final_tuple_blocks (c : bool) (ms : list np.matrix) (k n : nat) :
  n = (k + length ms)%nat →
  mapM (λ iy : nat * pyval,
          if bool_decide (iy.1 < n - 1)%nat && c
          then all_but_last_col iy.2 else Ok iy.2)
       (enumerate k (block <$> ms))
  = Ok (block <$> trim_cols c ms).
Proof.
  revert k. induction ms as [|m ms IH]; intros k Hn; [done|].
  rewrite fmap_cons. cbn [enumerate]. rewrite mapM_res_cons.
  rewrite (IH (S k)); [simpl in Hn; lia|]. cbn [fst snd].
  destruct ms as [|m' ms].
  - rewrite bool_decide_eq_false_2; [simpl in Hn; lia|]. done.
  - rewrite bool_decide_eq_true_2; [simpl in Hn; lia|].
    destruct c; done.
Qed.

Lemma hstack_vectors (ds : list (list Z)) :
  ds ≠ [] → hstack (vector <$> ds) = Ok (vector (concat ds)).
Proof.
  intros Hne. unfold hstack.
  rewrite (mapM_res_fmap atleast_1d vector) (mapM_res_ok _ np.Nd1); [done|]. simpl.
  destruct ds as [|d ds]; [done|]. rewrite fmap_cons.
  by rewrite -fmap_cons (mapM_res_fmap as_rank1 np.Nd1) (mapM_res_ok _ id) // list_fmap_id.
Qed.

Lemma hstack_blocks (n : nat) (ms : list np.matrix) :
  ms ≠ [] → Forall (λ m, length (np.rows m) = n) ms →
  hstack (block <$> ms) = Ok (block (np.hcat n ms)).
Proof.
  intros Hne Hrows. unfold hstack.
  rewrite (mapM_res_fmap atleast_1d block) (mapM_res_ok _ np.Nd2); [done|]. simpl.
  destruct ms as [|m ms]; [done|]. rewrite fmap_cons.
  pose proof (Forall_inv Hrows) as Hm. rewrite Hm.
  rewrite -fmap_cons (mapM_res_fmap (as_rank2 n) np.Nd2) (mapM_res_ok _ id).
  - intros m' Hm'. simpl. rewrite decide_True //.
    by eapply (proj1 (Forall_forall _ _) Hrows).
  - by rewrite list_fmap_id.
Qed.

Lemma trim_length c (ds : list (list Z)) : length (trim c ds) = length ds.
Proof. induction ds as [|d [|d' ds] IH]; simpl in *; auto. Qed.

Lemma trim_nil c (ds : list (list Z)) : trim c ds = [] ↔ ds = [].
Proof. destruct ds as [|d [|d' ds]]; simpl; split; done. Qed.

Lemma trim_cols_nil c (ms : list np.matrix) : trim_cols c ms = [] ↔ ms = [].
Proof. destruct ms as [|d [|d' ds]]; simpl; split; done. Qed.

Lemma trim_cols_rows c n (ms : list np.matrix) :
  Forall (λ m, length (np.rows m) = n) ms →
  Forall (λ m, length (np.rows m) = n) (trim_cols c ms).
Proof.
  induction ms as [|m [|m' ms] IH]; intros HF; simpl; [done..|].
  apply Forall_cons in HF as [Hm HF]. constructor; [|by apply IH].
  destruct c; [|done]. simpl. by rewrite length_fmap.
Qed.

(** The column-dropping concatenation on rank-two blocks of [n] rows each. *)
Lemma merge_columns_blocks (c : bool) (n : nat) (ms : list np.matrix) :
  ms ≠ [] → Forall (λ m, length (np.rows m) = n) ms →
  merge_columns c (block <$> ms) = Ok (block (np.hcat n (trim_cols c ms))).
Proof.
  intros Hne Hrows. unfold merge_columns.
  rewrite (final_tuple_blocks c ms 0 (length (block <$> ms))); [by rewrite length_fmap|].
  simpl. apply hstack_blocks; [by rewrite trim_cols_nil|by apply trim_cols_rows].
Qed.

(** *** [concatenate_optimization_variables] on rank-one and rank-two blocks *)

Lemma cov_vectors (d : nat) (ds : list (list Z)) (c ci mp : bool) :
  concatenate_optimization_variables (S d) (PList (vector <$> ds)) c ci mp =
  match ds with
  | [] | [] :: _ => Raise IndexError
  | _ => Ok (vector (merge1 c ds))
  end.
Proof.
  destruct ds as [|[|x d0] ds]; [done..|].
  cbn [concatenate_optimization_variables]. rewrite !fmap_cons.
  cbn [getitem0 vector shape np.shape mbind res_bind length bool_decide is_ndarray iter].
  rewrite (bool_decide_eq_true_2 (1%nat ≠ 0%nat)) //. cbn [mbind res_bind].
  rewrite -!fmap_cons.
  rewrite (final_tuple_vectors c ((x :: d0) :: ds) 0); [simpl; by rewrite length_fmap|].
  cbn [mbind res_bind].
  rewrite hstack_vectors; [by rewrite trim_nil|]. done.
Qed.

Lemma cov_rows (d : nat) (m : np.matrix) (c ci mp : bool) :
  concatenate_optimization_variables (S d) (block m) c ci mp =
  match np.rows m with
  | [] | [] :: _ => Raise IndexError
  | _ => Ok (vector (merge1 c (np.rows m)))
  end.
Proof.
  destruct m as [w [|[|x r0] rs]]; [done..|].
  cbn [concatenate_optimization_variables]. unfold block.
  cbn [getitem0 np.rows shape np.shape mbind res_bind length bool_decide is_ndarray iter].
  rewrite (bool_decide_eq_true_2 (1%nat ≠ 0%nat)) //.
  cbn [mbind res_bind is_ndarray iter np.rows].
  change (λ r : list Z, PArr (np.Nd1 r)) with vector.
  rewrite (final_tuple_vectors c ((x :: r0) :: rs) 0); [by rewrite length_fmap|].
  cbn [mbind res_bind].
  rewrite hstack_vectors; [by rewrite trim_nil|]. done.
Qed.

Lemma cov_blocks (d : nat) (ms : list np.matrix) (c ci : bool) :
  concatenate_optimization_variables (S (S d)) (PList (block <$> ms)) c ci true =
  match ms with
  | [] => Raise IndexError
  | m0 :: _ =>
      match np.rows m0 with
      | [] => Raise IndexError
      | _ =>
          z ← mapM (λ m, concatenate_optimization_variables (S d) (block m) ci true true) ms;
          concatenate_optimization_variables (S d) (PList z) c true true
      end
  end.
Proof.
  destruct ms as [|[w [|r0 rs]] ms]; [done..|].
  change (concatenate_optimization_variables (S (S d)) ?v c ci true) with
    (v0 ← getitem0 v; sh ← shape v0;
     if bool_decide (length sh ≠ 0%nat) then
       v00 ← getitem0 v0;
       if is_ndarray v00 then
         items ← iter v;
         z_final ← mapM (λ zi, concatenate_optimization_variables (S d) zi ci true true) items;
         concatenate_optimization_variables (S d) (PList z_final) c true true
       else
         items ← iter v;
         final_tuple ←
           mapM (λ iy : nat * pyval,
                   if bool_decide (iy.1 < length items - 1)%nat && c
                   then sh_y ← shape iy.2;
                        if bool_decide (length sh_y = 2%nat)
                        then all_but_last_col iy.2 else all_but_last iy.2
                   else Ok iy.2)
                (enumerate 0 items);
         hstack final_tuple
     else Ok PNone).
  rewrite fmap_cons.
  cbn [block getitem0 np.rows shape np.shape mbind res_bind length bool_decide is_ndarray iter].
  rewrite (bool_decide_eq_true_2 (2%nat ≠ 0%nat)) //. cbn [mbind res_bind is_ndarray iter].
  by rewrite -(mapM_res_fmap
                (λ zi, concatenate_optimization_variables (S d) zi ci true true) block).
Qed.

Lemma merge1_nonempty (c : bool) (l : list (list Z)) :
  l ≠ [] → Forall (λ r, r ≠ []) l → merge1 c l ≠ [].
Proof.
  unfold merge1. induction l as [|b [|b' l] IH]; intros Hne HF; [done| |].
  - simpl. rewrite app_nil_r. by apply Forall_inv in HF.
  - change (trim c (b :: b' :: l)) with
      ((if c then np.drop_last b else b) :: trim c (b' :: l)).
    rewrite concat_cons. intros [_ Htl]%app_eq_nil.
    apply IH; [done|by apply Forall_inv_tail in HF|done].
Qed.

Lemma wf_rows_nonempty (m : np.matrix) :
  np.wf (np.Nd2 m) → np.ncols m ≠ 0%nat → Forall (λ r, r ≠ []) (np.rows m).
Proof.
  simpl. intros Hwf Hc. eapply Forall_impl; [exact Hwf|].
  intros r Hr ->. simpl in Hr. congruence.
Qed.

Lemma cov_block_ok (d : nat) (m : np.matrix) (c ci mp : bool) :
  np.wf (np.Nd2 m) → nonempty_block m →
  concatenate_optimization_variables (S d) (block m) c ci mp
  = Ok (vector (merge1 c (np.rows m))).
Proof.
  intros Hwf [Hc Hr]. rewrite cov_rows.
  pose proof (wf_rows_nonempty m Hwf Hc) as HF.
  destruct (np.rows m) as [|[|x r0] rs]; [done| |done].
  by apply Forall_inv in HF.
Qed.

Lemma cov_block_bad (d : nat) (m : np.matrix) (c ci mp : bool) :
  np.wf (np.Nd2 m) → ¬ nonempty_block m →
  concatenate_optimization_variables (S d) (block m) c ci mp = Raise IndexError.
Proof.
  intros Hwf Hbad. rewrite cov_rows.
  destruct (np.rows m) as [|[|x r0] rs] eqn:Hrs; [done..|].
  destruct Hbad. split; [|by rewrite Hrs].
  simpl in Hwf. rewrite Hrs in Hwf. apply Forall_inv in Hwf. simpl in Hwf. lia.
Qed.

#[local] Instance nonempty_block_dec (m : np.matrix) : Decision (nonempty_block m).
Proof. unfold nonempty_block. apply _. Defined.

Lemma cov_blocks_ok (d : nat) (ms : list np.matrix) (c ci : bool) :
  ms ≠ [] → Forall (λ m, np.wf (np.Nd2 m)) ms → Forall nonempty_block ms →
  concatenate_optimization_variables (S (S d)) (PList (block <$> ms)) c ci true
  = Ok (vector (merge1 c ((λ m, merge1 ci (np.rows m)) <$> ms))).
Proof.
  intros Hne Hwf Hok. rewrite cov_blocks.
  destruct ms as [|m0 ms']; [done|]. set (ms := m0 :: ms') in *.
  destruct (np.rows m0) eqn:Hr0; [by destruct (Forall_inv Hok) as [_ ?]|].
  rewrite (mapM_res_ok _ (λ m, vector (merge1 ci (np.rows m)))).
  { intros m Hm. apply cov_block_ok.
    - by eapply (proj1 (Forall_forall _ _) Hwf).
    - by eapply (proj1 (Forall_forall _ _) Hok). }
  cbn [mbind res_bind].
  rewrite (list_fmap_compose (λ m, merge1 ci (np.rows m)) vector) cov_vectors.
  subst ms. rewrite fmap_cons.
  destruct (merge1 ci (np.rows m0)) eqn:Hm0; [|done].
  exfalso. revert Hm0. destruct (Forall_inv Hok) as [Hc Hr].
  apply merge1_nonempty; [done|]. apply wf_rows_nonempty; [|done]. by apply Forall_inv in Hwf.
Qed.

Lemma cov_blocks_bad (d : nat) (ms : list np.matrix) (c ci : bool) :
  ms ≠ [] → Forall (λ m, np.wf (np.Nd2 m)) ms → ¬ Forall nonempty_block ms →
  concatenate_optimization_variables (S (S d)) (PList (block <$> ms)) c ci true
  = Raise IndexError.
Proof.
  intros Hne Hwf Hbad. rewrite cov_blocks.
  destruct ms as [|m0 ms']; [done|]. set (ms := m0 :: ms') in *.
  destruct (np.rows m0) eqn:Hr0; [done|].
  rewrite (mapM_res_raise _ ms IndexError); [| |done].
  - intros m Hm. pose proof (proj1 (Forall_forall _ _) Hwf m Hm) as Hwfm.
    destruct (decide (nonempty_block m)).
    + left. eexists. by apply cov_block_ok.
    + right. by apply cov_block_bad.
  - apply not_Forall_Exists in Hbad; [|apply _].
    apply Exists_exists in Hbad as (m & Hm & Hbadm).
    exists m. split; [done|]. apply cov_block_bad; [|done].
    by eapply (proj1 (Forall_forall _ _) Hwf).
Qed.

(** *** Merging in two stages and merging in one pass *)

Lemma trim_false (l : list (list Z)) : trim false l = l.
Proof. induction l as [|b [|b' l] IH]; simpl in *; [done..|]. by rewrite IH. Qed.

Lemma trim_true_app (l1 l2 : list (list Z)) :
  l2 ≠ [] → trim true (l1 ++ l2) = (np.drop_last <$> l1) ++ trim true l2.
Proof.
  intros Hne. induction l1 as [|b l1 IH]; [done|].
  rewrite fmap_cons -!app_comm_cons -IH.
  destruct (l1 ++ l2) eqn:Happ; [|done].
  apply app_eq_nil in Happ as [_ ?]. done.
Qed.

Lemma drop_last_merge1 (g : list (list Z)) :
  g ≠ [] → Forall (λ r, r ≠ []) g →
  np.drop_last (merge1 true g) = concat (np.drop_last <$> g).
Proof.
  unfold merge1, np.drop_last. induction g as [|b [|b' g] IH]; intros Hne HF; [done| |].
  - simpl. by rewrite !app_nil_r.
  - change (trim true (b :: b' :: g)) with (removelast b :: trim true (b' :: g)).
    rewrite fmap_cons !concat_cons removelast_app.
    + apply (merge1_nonempty true (b' :: g)); [done|by apply Forall_inv_tail in HF].
    + rewrite IH; [done|by apply Forall_inv_tail in HF|done].
Qed.

Lemma merge1_groups (c : bool) (groups : list (list (list Z))) :
  Forall (λ g, g ≠ [] ∧ Forall (λ r, r ≠ []) g) groups →
  merge1 c (merge1 c <$> groups) = merge1 c (concat groups).
Proof.
  destruct c.
  - induction groups as [|g groups IH]; intros HF; [done|].
    apply Forall_cons in HF as [[Hg Hrows] HF].
    destruct groups as [|g' groups].
    + unfold merge1 at 1. simpl. by rewrite !app_nil_r.
    + unfold merge1 at 1. rewrite !fmap_cons.
      change (trim true (?a :: ?b :: ?l)) with (np.drop_last a :: trim true (b :: l)).
      rewrite concat_cons -!fmap_cons.
      fold (merge1 true (merge1 true <$> (g' :: groups))). rewrite (IH HF).
      rewrite drop_last_merge1 //. unfold merge1.
      destruct (Forall_inv HF) as [Hg' _].
      rewrite (concat_cons g) (trim_true_app g (concat (g' :: groups))).
      { rewrite concat_cons. intros [? _]%app_eq_nil. done. }
      by rewrite concat_app.
  - intros _.
    assert (Hm : ∀ l, merge1 false l = concat l).
    { intros l. unfold merge1. by rewrite trim_false. }
    rewrite !Hm (list_fmap_ext (merge1 false) (@concat Z) groups); [by intros|].
    induction groups as [|g groups IH]; [done|].
    by rewrite fmap_cons !concat_cons concat_app IH.
Qed.

Lemma Forall_concat_iff {A} (P : A → Prop) (ls : list (list A)) :
  Forall P (concat ls) ↔ Forall (Forall P) ls.
Proof.
  induction ls as [|l ls IH]; simpl.
  - split; constructor.
  - rewrite Forall_app Forall_cons IH. done.
Qed.

Lemma fmap_concat {A B} (f : A → B) (ls : list (list A)) :
  f <$> concat ls = concat ((λ l : list A, f <$> l) <$> ls).
Proof.
  induction ls as [|l ls IH]; [done|].
  by rewrite fmap_cons !concat_cons fmap_app IH.
Qed.

Lemma concat_nonempty {A} (ls : list (list A)) :
  ls ≠ [] → Forall (λ l, l ≠ []) ls → concat ls ≠ [].
Proof.
  destruct ls as [|l ls]; [done|]. intros _ HF. rewrite concat_cons.
  intros [? _]%app_eq_nil. by apply Forall_inv in HF.
Qed.

#[local] Instance Forall_nonempty_block_dec (p : list np.matrix) :
  Decision (Forall nonempty_block p).
Proof. apply _. Defined.

(** C3. Merging the blocks of every phase and then merging the per-phase
    results, with one flag [c] for both stages, gives what a single merge of
    the flattened list of blocks gives with that flag; and both give a result
    when every block has a row and a column. The recursion depth [S (S d)] is
    any depth of two or more. *)
Theorem merge_nodes_then_phases (d : nat) (phases : list (list np.matrix)) (c ci : bool) :
  phases ≠ [] →
  Forall (λ p, p ≠ []) phases →
  Forall (Forall (λ m, np.wf (np.Nd2 m))) phases →
  (node_merged ←
     mapM (λ p, concatenate_optimization_variables (S (S d)) (PList (block <$> p)) c ci true)
          phases;
   concatenate_optimization_variables (S (S d)) (PList node_merged) c ci true)
  = concatenate_optimization_variables (S (S d)) (PList (block <$> concat phases)) c ci true
  ∧ (Forall (Forall nonempty_block) phases →
     ∃ v, concatenate_optimization_variables (S (S d)) (PList (block <$> concat phases))
            c ci true = Ok (vector v)).
Proof.
  intros Hne Hphase Hwf.
  assert (Hcat : concat phases ≠ []) by by apply concat_nonempty.
  assert (Hwfcat : Forall (λ m, np.wf (np.Nd2 m)) (concat phases))
    by by apply Forall_concat_iff.
  split; [|intros Hok; eexists; apply cov_blocks_ok; [done..|by apply Forall_concat_iff]].
  set (flat := λ m : np.matrix, merge1 ci (np.rows m)).
  destruct (decide (Forall (Forall nonempty_block) phases)) as [Hok|Hbad].
  - rewrite (cov_blocks_ok _ (concat phases)); [done..|by apply Forall_concat_iff|].
    rewrite (mapM_res_ok _ (λ p, vector (merge1 c (flat <$> p)))).
    { intros p Hp. apply cov_blocks_ok.
      - by eapply (proj1 (Forall_forall _ _) Hphase).
      - by eapply (proj1 (Forall_forall _ _) Hwf).
      - by eapply (proj1 (Forall_forall _ _) Hok). }
    cbn [mbind res_bind].
    assert (Hflat : ∀ p, p ≠ [] → Forall (λ m, np.wf (np.Nd2 m)) p →
              Forall nonempty_block p →
              flat <$> p ≠ [] ∧ Forall (λ r, r ≠ []) (flat <$> p)).
    { intros p Hp Hwfp Hokp. split; [by destruct p|].
      apply Forall_fmap, Forall_forall. intros m Hm. simpl. unfold flat.
      destruct (proj1 (Forall_forall _ _) Hokp m Hm) as [Hc Hr].
      apply merge1_nonempty; [done|]. apply wf_rows_nonempty; [|done].
      by eapply (proj1 (Forall_forall _ _) Hwfp). }
    rewrite (list_fmap_compose (λ p, merge1 c (flat <$> p)) vector) cov_vectors.
    rewrite fmap_concat -merge1_groups.
    + apply Forall_fmap, Forall_forall. intros p Hp. simpl. apply Hflat.
      * by eapply (proj1 (Forall_forall _ _) Hphase).
      * by eapply (proj1 (Forall_forall _ _) Hwf).
      * by eapply (proj1 (Forall_forall _ _) Hok).
    + rewrite -list_fmap_compose.
      destruct phases as [|p0 phases']; [done|]. rewrite fmap_cons.
      destruct (merge1 c (flat <$> p0)) eqn:Hp0; [|done].
      exfalso. revert Hp0.
      destruct (Hflat p0) as [H1 H2];
        [by apply Forall_inv in Hphase|by apply Forall_inv in Hwf
        |by apply Forall_inv in Hok|].
      by apply merge1_nonempty.
  - rewrite (cov_blocks_bad _ (concat phases)); [done..|by rewrite Forall_concat_iff|].
    rewrite (mapM_res_raise _ phases IndexError); [| |done].
    + intros p Hp.
      pose proof (proj1 (Forall_forall _ _) Hphase p Hp) as Hpne.
      pose proof (proj1 (Forall_forall _ _) Hwf p Hp) as Hpwf.
      destruct (decide (Forall nonempty_block p)).
      * left. eexists. by apply cov_blocks_ok.
      * right. by apply cov_blocks_bad.
    + apply not_Forall_Exists in Hbad; [|apply _].
      apply Exists_exists in Hbad as (p & Hp & Hbadp).
      exists p. split; [done|]. apply cov_blocks_bad; [| |done].
      * by eapply (proj1 (Forall_forall _ _) Hphase).
      * by eapply (proj1 (Forall_forall _ _) Hwf).
Qed.

(** A phase handed over as a Python list has no [shape]: the two stages
    above are composed by the caller, a single call on a list of lists of
    blocks raises. *)
Lemma nested_lists_have_no_shape (d : nat) (p : list pyval) (rest : list pyval)
    (c ci mp : bool) :
  concatenate_optimization_variables (S d) (PList (PList p :: rest)) c ci mp
  = Raise AttributeError.
Proof. reflexivity. Qed.

Lemma merge_nodes_then_phases_witness :
  (node_merged ←
     mapM (λ p, concatenate_optimization_variables 2 (PList (block <$> p)) true true true)
          [[np.Mat 2 [[1; 2]; [3; 4]]; np.Mat 3 [[5; 6; 7]; [8; 9; 10]]];
           [np.Mat 2 [[11; 12]; [13; 14]]]];
   concatenate_optimization_variables 2 (PList node_merged) true true true)
  = concatenate_optimization_variables 2
      (PList (block <$> concat [[np.Mat 2 [[1; 2]; [3; 4]]; np.Mat 3 [[5; 6; 7]; [8; 9; 10]]];
                                [np.Mat 2 [[11; 12]; [13; 14]]]]))
      true true true.
Proof.
  apply (merge_nodes_then_phases 0
           [[np.Mat 2 [[1; 2]; [3; 4]]; np.Mat 3 [[5; 6; 7]; [8; 9; 10]]];
            [np.Mat 2 [[11; 12]; [13; 14]]]] true true).
  - done.
  - repeat constructor; done.
  - repeat constructor.
Defined.

(** On rank-one blocks of lengths 4, 5 and 6 the merge keeps 13 entries when
    [continuous_phase] is set and 15 otherwise. *)
Example merge_three_vectors :
  concatenate_optimization_variables 1
    (PList [vector [1; 2; 3; 4]; vector [4; 5; 6; 7; 8]; vector [8; 9; 10; 11; 12; 13]])
    true true true
  = Ok (vector [1; 2; 3; 4; 5; 6; 7; 8; 9; 10; 11; 12; 13])
  ∧ concatenate_optimization_variables 1
      (PList [vector [1; 2; 3; 4]; vector [4; 5; 6; 7; 8]; vector [8; 9; 10; 11; 12; 13]])
      false true true
    = Ok (vector [1; 2; 3; 4; 4; 5; 6; 7; 8; 8; 9; 10; 11; 12; 13]).
Proof. split; reflexivity. Qed.

Lemma drop_last_length (b : list Z) : length (np.drop_last b) = (length b - 1)%nat.
Proof.
  unfold np.drop_last. destruct b as [|x b _] using rev_ind; [done|].
  rewrite removelast_last length_app /=. lia.
Qed.

Lemma merge1_length (c : bool) (ds : list (list Z)) :
  ds ≠ [] → Forall (λ b, b ≠ []) ds →
  (length (merge1 c ds) + (if c then length ds - 1 else 0))%nat
  = sum_list (length <$> ds).
Proof.
  unfold merge1. induction ds as [|b [|b' ds] IH]; intros Hne HF; [done| |].
  - simpl. rewrite app_nil_r. destruct c; lia.
  - change (trim c (b :: b' :: ds)) with
      ((if c then np.drop_last b else b) :: trim c (b' :: ds)).
    rewrite concat_cons length_app (fmap_cons length b).
    change (sum_list (length b :: ?l)) with (length b + sum_list l)%nat.
    assert (IH' := IH ltac:(done) (Forall_inv_tail HF)).
    apply Forall_inv in HF. rewrite -IH'.
    destruct c; [|simpl; lia].
    rewrite drop_last_length. destruct b; [done|]. simpl. lia.
Qed.

Lemma rows_total (w : nat) (rows : list (list Z)) :
  Forall (λ r, length r = w) rows → sum_list (length <$> rows) = (length rows * w)%nat.
Proof.
  induction 1 as [|r rows Hr _ IH]; [done|].
  rewrite fmap_cons. change (sum_list (?a :: ?l)) with (a + sum_list l)%nat.
  rewrite IH Hr. simpl. lia.
Qed.

(** The entries a block keeps when its rows are laid end to end. *)
Lemma flattened_length (ci : bool) (m : np.matrix) :
  np.wf (np.Nd2 m) → nonempty_block m →
  merge1 ci (np.rows m) ≠ []
  ∧ (length (merge1 ci (np.rows m)) + (if ci then length (np.rows m) - 1 else 0))%nat
    = (length (np.rows m) * np.ncols m)%nat.
Proof.
  intros Hwf [Hc Hr]. pose proof (wf_rows_nonempty m Hwf Hc) as HF. split.
  - by apply merge1_nonempty.
  - rewrite (merge1_length ci (np.rows m) Hr HF). by apply rows_total.
Qed.

(** C2, as the code has it. A non-empty list of rank-two blocks, each with a
    row and a column, is not merged column by column: every block is taken
    for the sequence of its rows, and the result is a rank-one array. The
    rows of a block are laid end to end, each row but the last of its block
    losing its last entry under [continuous_interval]; the blocks so
    flattened are laid end to end, each but the last losing its last entry
    under [continuous_phase]. The result holds every entry of every block,
    less one per junction of rows and one per junction of blocks under the
    respective flags. On rank-one blocks the merge is the one of the claim:
    every block but the final one loses its last entry under
    [continuous_phase], and nothing is dropped otherwise. *)
Theorem concatenate_blocks_row_by_row (d : nat) (c ci : bool) :
  (∀ ms, ms ≠ [] → Forall (λ m, np.wf (np.Nd2 m)) ms → Forall nonempty_block ms →
     ∃ out,
       concatenate_optimization_variables (S (S d)) (PList (block <$> ms)) c ci true
         = Ok (vector out)
       ∧ out = merge1 c ((λ m, merge1 ci (np.rows m)) <$> ms)
       ∧ (length out + (if c then length ms - 1 else 0)
          + (if ci then sum_list ((λ m, length (np.rows m) - 1) <$> ms) else 0))%nat
         = sum_list ((λ m, length (np.rows m) * np.ncols m)%nat <$> ms))
  ∧ (∀ ds mp, ds ≠ [] → Forall (λ b, b ≠ []) ds →
       concatenate_optimization_variables (S d) (PList (vector <$> ds)) c ci mp
         = Ok (vector (merge1 c ds))
       ∧ (length (merge1 c ds) + (if c then length ds - 1 else 0))%nat
         = sum_list (length <$> ds)).
Proof.
  split.
  - intros ms Hne Hwf Hok. eexists. split; [by apply cov_blocks_ok|]. split; [done|].
    set (flats := (λ m, merge1 ci (np.rows m)) <$> ms).
    assert (Hflat : Forall (λ b, b ≠ []) flats
                    ∧ (sum_list (length <$> flats)
                       + (if ci then sum_list ((λ m, length (np.rows m) - 1) <$> ms) else 0))%nat
                      = sum_list ((λ m, length (np.rows m) * np.ncols m)%nat <$> ms)).
    { unfold flats. clear Hne flats.
      induction ms as [|m ms IH]; [by destruct ci|].
      apply Forall_cons in Hwf as [Hwf0 Hwf]. apply Forall_cons in Hok as [Hok0 Hok].
      destruct (IH Hwf Hok) as [IH1 IH2].
      destruct (flattened_length ci m Hwf0 Hok0) as [Hne0 Hlen0].
      split; [by constructor|].
      rewrite !fmap_cons.
      change (sum_list (?a :: ?l)) with (a + sum_list l)%nat.
      rewrite -IH2 -Hlen0. destruct ci; [|lia].
      change (sum_list (?a :: ?l)) with (a + sum_list l)%nat. lia. }
    destruct Hflat as [Hflat1 Hflat2].
    assert (Hfne : flats ≠ []) by (unfold flats; by destruct ms).
    pose proof (merge1_length c flats Hfne Hflat1) as Hout.
    unfold flats in Hout at 2. rewrite length_fmap in Hout.
    rewrite -Hflat2. fold flats. lia.
  - intros ds mp Hne HF. split; [|by apply merge1_length].
    rewrite cov_vectors. destruct ds as [|[|x d0] ds]; [done| |done].
    by apply Forall_inv in HF.
Qed.

Lemma concatenate_blocks_row_by_row_witness :
  ∃ out,
    concatenate_optimization_variables 2
      (PList [block (np.Mat 4 [[11; 12; 13; 14]; [15; 16; 17; 18]]);
              block (np.Mat 5 [[21; 22; 23; 24; 25]; [26; 27; 28; 29; 30]]);
              block (np.Mat 6 [[31; 32; 33; 34; 35; 36]; [37; 38; 39; 40; 41; 42]])])
      true true true
    = Ok (vector out)
    ∧ length out = 25%nat
    ∧ length (merge1 true [[1; 2; 3; 4]; [4; 5; 6; 7; 8]; [8; 9; 10; 11; 12; 13]]) = 13%nat
    ∧ length (merge1 false [[1; 2; 3; 4]; [4; 5; 6; 7; 8]; [8; 9; 10; 11; 12; 13]]) = 15%nat.
Proof.
  destruct (concatenate_blocks_row_by_row 0 true true) as [Hblocks _].
  destruct (Hblocks [np.Mat 4 [[11; 12; 13; 14]; [15; 16; 17; 18]];
                     np.Mat 5 [[21; 22; 23; 24; 25]; [26; 27; 28; 29; 30]];
                     np.Mat 6 [[31; 32; 33; 34; 35; 36]; [37; 38; 39; 40; 41; 42]]])
    as (out & Hout & _ & Hlen).
  - done.
  - repeat constructor.
  - repeat constructor; done.
  - exists out. split; [exact Hout|]. split; [simpl in Hlen; lia|].
    split; reflexivity.
Defined.

(** C2, as stated, fails. Three rank-two blocks of two rows and of widths 4,
    5 and 6, merged with [continuous_phase=True]: the routine takes each
    block for a sequence of rows, merges the rows of each block, and returns
    a rank-one array of 25 entries, not the 2-by-13 matrix obtained by
    dropping the last column of the first two blocks and stacking them side
    by side, which is what the dictionary routine computes under a key. *)
Lemma concatenate_blocks_flattened :
  concatenate_optimization_variables 2
    (PList [block (np.Mat 4 [[11; 12; 13; 14]; [15; 16; 17; 18]]);
            block (np.Mat 5 [[21; 22; 23; 24; 25]; [26; 27; 28; 29; 30]]);
            block (np.Mat 6 [[31; 32; 33; 34; 35; 36]; [37; 38; 39; 40; 41; 42]])])
    true true true
  = Ok (vector [11; 12; 13; 15; 16; 17;
                21; 22; 23; 24; 26; 27; 28; 29;
                31; 32; 33; 34; 35; 37; 38; 39; 40; 41; 42])
  ∧ merge_columns true
      [block (np.Mat 4 [[11; 12; 13; 14]; [15; 16; 17; 18]]);
       block (np.Mat 5 [[21; 22; 23; 24; 25]; [26; 27; 28; 29; 30]]);
       block (np.Mat 6 [[31; 32; 33; 34; 35; 36]; [37; 38; 39; 40; 41; 42]])]
    = Ok (block (np.Mat 13 [[11; 12; 13; 21; 22; 23; 24; 31; 32; 33; 34; 35; 36];
                            [15; 16; 17; 26; 27; 28; 29; 37; 38; 39; 40; 41; 42]])).
Proof. split; reflexivity. Qed.

End merges.

(** *** [concatenate_optimization_variables_dict] *)

Section dict_merge.
Import utils.

Lemma for_fold_ext {A B} (f g : A → B → res A) (acc : A) (l : list B) :
  (∀ a x, f a x = g a x) → for_fold f acc l = for_fold g acc l.
Proof.
  intros Hfg. revert acc. induction l as [|x l IH]; intros acc; [done|].
  simpl. rewrite Hfg. destruct (g acc x); simpl; auto.
Qed.

Lemma dict_get_set (d : list (string * pyval)) (k k' : string) (v : pyval) :
  dict_get (dict_set d k v) k' = if decide (k = k') then Some v else dict_get d k'.
Proof.
  induction d as [|[k0 w] d IH]; simpl.
  - done.
  - destruct (decide (k0 = k)) as [->|Hne]; simpl.
    + by destruct (decide (k = k')).
    + rewrite IH. destruct (decide (k0 = k')) as [->|]; [|done].
      by rewrite decide_False.
Qed.

Lemma keys_dict_set (d : list (string * pyval)) (k k' : string) (v : pyval) :
  k' ∈ keys (dict_set d k v) ↔ k' = k ∨ k' ∈ keys d.
Proof.
  unfold keys. induction d as [|[k0 w] d IH]; simpl.
  - rewrite list_elem_of_singleton. set_solver.
  - destruct (decide (k0 = k)) as [->|Hne]; simpl.
    + set_solver.
    + rewrite !elem_of_cons IH. tauto.
Qed.

Lemma mapM_res_length {A B} (f : A → res B) (l : list A) (k : list B) :
  mapM f l = Ok k → length k = length l.
Proof.
  revert k. induction l as [|x l IH]; intros k.
  - by intros [= <-].
  - rewrite mapM_res_cons. destruct (f x); simpl; [|done..].
    destruct (mapM f l); simpl; [|done..]. intros [= <-]. simpl. f_equal. by apply IH.
Qed.

(** The body of the loop over the keys, in terms of [merge_key]. *)
Lemma dict_unfold (d0 : list (string * pyval)) (rest : list pyval) (c : bool) :
  concatenate_optimization_variables_dict (PList (PDict d0 :: rest)) c =
  variable_dict ←
    for_fold (λ acc key, merged ← merge_key c (PDict d0 :: rest) key;
                         Ok (dict_set acc key merged))
             [] (keys d0);
  Ok (PList [PDict variable_dict]).
Proof.
  unfold concatenate_optimization_variables_dict. cbn [getitem0 mbind res_bind].
  f_equal. apply for_fold_ext. intros acc key. unfold merge_key, merge_columns.
  destruct (mapM (λ v_i, getitem_key v_i key) (PDict d0 :: rest)) as [column| |];
    cbn [mbind res_bind]; [|done..].
  by destruct (mapM _ (enumerate 0 column)).
Qed.

Section fold.
Variables (c : bool) (variable : list pyval).

Local Abbreviation body :=
  (λ (acc : list (string * pyval)) (key : string),
     merged ← merge_key c variable key; Ok (dict_set acc key merged)).

Lemma for_fold_keys_ok (ks : list string) (acc : list (string * pyval)) :
  (∀ k, k ∈ ks → ∃ m, merge_key c variable k = Ok m) →
  ∃ d, for_fold body acc ks = Ok d.
Proof.
  revert acc. induction ks as [|k ks IH]; intros acc Hok; [by eexists|].
  destruct (Hok k) as [m Hm]; [by left|]. simpl. rewrite Hm /=.
  apply IH. intros k' Hk'. apply Hok. by right.
Qed.

Lemma for_fold_keys (ks : list string) (acc d : list (string * pyval)) :
  for_fold body acc ks = Ok d →
  (∀ k, k ∈ keys d ↔ k ∈ keys acc ∨ k ∈ ks)
  ∧ (∀ k, k ∈ ks → ∃ m, merge_key c variable k = Ok m ∧ dict_get d k = Some m)
  ∧ (∀ k, k ∉ ks → dict_get d k = dict_get acc k).
Proof.
  revert acc. induction ks as [|k0 ks IH]; intros acc Hfold.
  - simpl in Hfold. injection Hfold as <-. split_and!; [set_solver|set_solver|done].
  - simpl in Hfold.
    destruct (merge_key c variable k0) as [m0| |] eqn:Hm0; simpl in Hfold; [|done..].
    destruct (IH _ Hfold) as (Hkeys & Hin & Hout).
    split_and!.
    + intros k. rewrite Hkeys keys_dict_set elem_of_cons. tauto.
    + intros k Hk. destruct (decide (k ∈ ks)) as [Hks|Hks]; [by apply Hin|].
      apply elem_of_cons in Hk as [->|Hk]; [|done].
      exists m0. split; [done|]. rewrite (Hout k0 Hks) dict_get_set. by rewrite decide_True.
    + intros k Hk. apply not_elem_of_cons in Hk as [Hne Hk].
      rewrite (Hout k Hk) dict_get_set. by rewrite decide_False.
Qed.

End fold.

Lemma dict_merge_result (d0 : list (string * pyval)) (rest : list pyval) (c : bool) r :
  concatenate_optimization_variables_dict (PList (PDict d0 :: rest)) c = Ok r →
  ∃ d, r = PList [PDict d]
       ∧ (∀ k, k ∈ keys d ↔ k ∈ keys d0)
       ∧ (∀ k, k ∈ keys d0 →
            ∃ m, merge_key c (PDict d0 :: rest) k = Ok m ∧ dict_get d k = Some m).
Proof.
  rewrite dict_unfold. intros Hr.
  destruct (for_fold _ _ _) as [d| |] eqn:Hd; simpl in Hr; [|done..].
  injection Hr as <-. exists d.
  destruct (for_fold_keys c (PDict d0 :: rest) (keys d0) [] d Hd) as (Hkeys & Hin & _).
  split_and!; [done| |done].
  intros k. rewrite Hkeys. set_solver.
Qed.

(** C9. The dictionary merge handles every key of the first dictionary on
    its own: it returns a merged dictionary as soon as the blocks filed under
    each of these keys can be merged; the merged dictionary has exactly the
    keys of the first dictionary; under each key it holds the merge of the
    blocks the dictionaries file under that key, which for rank-two blocks of
    equal row count is the side-by-side concatenation after the last column
    of every block but the final one has been dropped (when [continuous]). *)
Theorem dict_merge_per_key (d0 : list (string * pyval)) (rest : list pyval) (c : bool) :
  ((∀ k, k ∈ keys d0 → ∃ m, merge_key c (PDict d0 :: rest) k = Ok m) →
   ∃ d, concatenate_optimization_variables_dict (PList (PDict d0 :: rest)) c
        = Ok (PList [PDict d]))
  ∧ (∀ r, concatenate_optimization_variables_dict (PList (PDict d0 :: rest)) c = Ok r →
       ∃ d, r = PList [PDict d]
            ∧ (∀ k, k ∈ keys d ↔ k ∈ keys d0)
            ∧ (∀ k, k ∈ keys d0 →
                 ∃ m, merge_key c (PDict d0 :: rest) k = Ok m ∧ dict_get d k = Some m))
  ∧ (∀ k n ms,
       mapM (λ v_i, getitem_key v_i k) (PDict d0 :: rest) = Ok (block <$> ms) →
       Forall (λ m, length (np.rows m) = n) ms →
       merge_key c (PDict d0 :: rest) k = Ok (block (np.hcat n (trim_cols c ms)))).
Proof.
  split_and!.
  - rewrite dict_unfold. intros Hok.
    destruct (for_fold_keys_ok c (PDict d0 :: rest) (keys d0) [] Hok) as [d Hd].
    exists d. by rewrite Hd.
  - apply dict_merge_result.
  - intros k n ms Hcol Hrows. unfold merge_key. rewrite Hcol /=.
    apply merge_columns_blocks; [|done].
    intros ->. by apply mapM_res_length in Hcol.
Qed.

Lemma dict_merge_per_key_witness :
  ∃ d, concatenate_optimization_variables_dict
         (PList [PDict [("q", block (np.Mat 3 [[1; 2; 3]; [4; 5; 6]]));
                        ("tau", block (np.Mat 2 [[7; 8]]))];
                 PDict [("tau", block (np.Mat 2 [[8; 9]]));
                        ("q", block (np.Mat 2 [[3; 0]; [6; 0]]))]]) true
       = Ok (PList [PDict d])
       ∧ d = [("q", block (np.Mat 4 [[1; 2; 3; 0]; [4; 5; 6; 0]]));
              ("tau", block (np.Mat 3 [[7; 8; 9]]))].
Proof.
  destruct (dict_merge_per_key
              [("q", block (np.Mat 3 [[1; 2; 3]; [4; 5; 6]]));
               ("tau", block (np.Mat 2 [[7; 8]]))]
              [PDict [("tau", block (np.Mat 2 [[8; 9]]));
                      ("q", block (np.Mat 2 [[3; 0]; [6; 0]]))]] true)
    as (Hok & _ & _).
  destruct Hok as [d Hd].
  - intros k Hk. unfold keys in Hk. simpl in Hk.
    apply elem_of_cons in Hk as [->|Hk]; [by eexists|].
    apply list_elem_of_singleton in Hk as ->. by eexists.
  - exists d. split; [exact Hd|]. vm_compute in Hd. by injection Hd as <-.
Defined.

(** C10. Called on anything but a list, the dictionary merge raises
    [ValueError]; called on a non-empty list whose first element is not a
    dictionary, it returns [None] and raises nothing; and when the first
    element is a dictionary, whatever it returns is a one-element list
    holding the merged dictionary: a dictionary with the keys of the first
    one that holds, under each key, the merge of the blocks filed under that
    key. It does return one as soon as the blocks of every key can be
    merged. *)
Theorem dict_merge_dispatch :
  (∀ v c, match v with
          | PList _ => True
          | _ => concatenate_optimization_variables_dict v c = Raise ValueError
          end)
  ∧ (∀ x rest c, match x with
                 | PDict _ => True
                 | _ => concatenate_optimization_variables_dict (PList (x :: rest)) c = Ok PNone
                 end)
  ∧ (∀ d0 rest c r,
       concatenate_optimization_variables_dict (PList (PDict d0 :: rest)) c = Ok r →
       ∃ d, r = PList [PDict d]
            ∧ (∀ k, k ∈ keys d ↔ k ∈ keys d0)
            ∧ (∀ k, k ∈ keys d0 →
                 ∃ m, merge_key c (PDict d0 :: rest) k = Ok m ∧ dict_get d k = Some m))
  ∧ (∀ d0 rest c,
       (∀ k, k ∈ keys d0 → ∃ m, merge_key c (PDict d0 :: rest) k = Ok m) →
       ∃ d, concatenate_optimization_variables_dict (PList (PDict d0 :: rest)) c
            = Ok (PList [PDict d])).
Proof.
  split_and!.
  - by intros [].
  - by intros [].
  - intros d0 rest c r Hr. by apply dict_merge_result.
  - intros d0 rest c Hok. rewrite dict_unfold.
    destruct (for_fold_keys_ok c (PDict d0 :: rest) (keys d0) [] Hok) as [d Hd].
    exists d. by rewrite Hd.
Qed.

End dict_merge.

Lemma dict_merge_dispatch_witness :
  utils.concatenate_optimization_variables_dict utils.PNone true = Raise ValueError
  ∧ utils.concatenate_optimization_variables_dict (utils.PList [utils.PNum 3]) true
    = Ok utils.PNone
  ∧ ∃ d, utils.concatenate_optimization_variables_dict
           (utils.PList [utils.PDict [("q", utils.block (np.Mat 3 [[1; 2; 3]; [4; 5; 6]]))];
                         utils.PDict [("q", utils.block (np.Mat 2 [[3; 0]; [6; 0]]))]]) true
         = Ok (utils.PList [utils.PDict d])
         ∧ utils.dict_get d "q"
           = Some (utils.block (np.Mat 4 [[1; 2; 3; 0]; [4; 5; 6; 0]])).
Proof.
  destruct dict_merge_dispatch as (Hother & Hnone & Hlist & _).
  split_and!.
  - exact (Hother utils.PNone true).
  - exact (Hnone (utils.PNum 3) [] true).
  - destruct (Hlist [("q", utils.block (np.Mat 3 [[1; 2; 3]; [4; 5; 6]]))]
                    [utils.PDict [("q", utils.block (np.Mat 2 [[3; 0]; [6; 0]]))]]
                    true _ eq_refl) as (d & Hd & _ & Hkey).
    exists d. split; [by rewrite -Hd|].
    destruct (Hkey "q") as (m & Hm & Hget); [unfold utils.keys; simpl; by left|].
    rewrite Hget. vm_compute in Hm. by injection Hm as <-.
Defined.

(** ** The placeholders of problem.py *)

Section placeholders.
Import Problem.

Lemma column_of_empty : column_of 0 casadi.empty.
Proof. by split_and!. Qed.

Lemma vertcat_column (k : nat) (q : casadi.MX) (name : string) :
  column_of k q →
  ∃ q', casadi.vertcat [q; casadi.sym name 1 1] = Ok q' ∧ column_of (S k) q'.
Proof.
  intros (Hk & H0 & H1). destruct k as [|k].
  - rewrite H0 //. eexists. split; [reflexivity|]. by split_and!.
  - unfold casadi.vertcat.
    assert (Hq : casadi.is_empty q = false).
    { unfold casadi.is_empty. rewrite Hk. done. }
    cbn [filter list_filter]. rewrite !decide_True //.
    cbn [forallb]. rewrite H1 //. eexists. split; [reflexivity|].
    split_and!; [|done|done].
    unfold casadi.size1 in *. simpl. rewrite length_app Hk /=. lia.
Qed.

Lemma for_fold_count {A B} (I : nat → A → Prop) (body : A → B → res A)
    (l : list B) (k : nat) (acc r : A) :
  (∀ n a x a', I n a → body a x = Ok a' → I (S n) a') →
  I k acc → utils.for_fold body acc l = Ok r → I (k + length l)%nat r.
Proof.
  intros Hstep. revert k acc. induction l as [|x l IH]; intros k acc HI Hfold.
  - simpl in Hfold. injection Hfold as <-. by rewrite Nat.add_0_r.
  - simpl in Hfold. destruct (body acc x) as [a'| |] eqn:Hb; simpl in Hfold; [|done..].
    replace (k + length (x :: l))%nat with (S k + length l)%nat by (simpl; lia).
    eapply IH; [|done]. by eapply Hstep.
Qed.

Lemma reduced_column_size prefix suffix dof_names map_idx q :
  reduced_column prefix suffix dof_names map_idx casadi.empty = Ok q →
  casadi.size1 q = length map_idx.
Proof.
  intros Hq. unfold reduced_column in Hq.
  apply (for_fold_count column_of _ _ 0 _ _) in Hq; [by destruct Hq|..|apply column_of_empty].
  intros n a i a' Ha Hbody.
  destruct (dof_name dof_names i) as [name| |]; cbn [mbind res_bind] in Hbody; [|done..].
  destruct (vertcat_column n a (prefix +:+ name +:+ suffix) Ha) as (q' & Hq' & Hcol).
  congruence.
Qed.

Lemma full_column_size prefix dof_names map_idx q_mx :
  full_column prefix dof_names map_idx = Ok q_mx →
  casadi.size1 q_mx = length map_idx.
Proof.
  intros Hq. unfold full_column in Hq.
  apply (for_fold_count column_of _ _ 0 _ _) in Hq;
    [rewrite length_enumerate in Hq; by destruct Hq|..|apply column_of_empty].
  intros n a iv a' Ha Hbody.
  destruct (dof_name dof_names _) as [name| |]; cbn [mbind res_bind] in Hbody; [|done..].
  destruct (vertcat_column n a (prefix +:+ name) Ha) as (q' & Hq' & Hcol).
  congruence.
Qed.

Lemma control_columns_size prefix dof_names map_idx n_col all_tau :
  control_columns prefix dof_names map_idx n_col = Ok all_tau →
  length all_tau = n_col ∧ Forall (λ col, casadi.size1 col = length map_idx) all_tau.
Proof.
  intros Hq. unfold control_columns in Hq.
  apply (for_fold_count (λ n cols, length cols = n_col ∧ Forall (column_of n) cols)
           _ _ 0 _ _) in Hq.
  - destruct Hq as [Hlen Hcols]. split; [done|].
    eapply Forall_impl; [done|]. by intros col [? _].
  - clear. intros n cols i cols' [Hlen Hcols] Hbody.
    destruct (dof_name dof_names i) as [name| |] eqn:Hname.
    2,3: destruct cols as [|col cols]; simpl in Hbody; [|done];
         injection Hbody as <-; by split.
    assert (Hgen : ∀ k cs cs',
      Forall (column_of n) cs →
      mapM (λ jc : nat * casadi.MX,
              name ← Ok name;
              casadi.vertcat [jc.2; casadi.sym (prefix +:+ name +:+ "_" +:+ pretty jc.1) 1 1])
           (enumerate k cs) = Ok cs' →
      length cs' = length cs ∧ Forall (column_of (S n)) cs').
    { clear. intros k cs. revert k. induction cs as [|col cs IH]; intros k cs' HF.
      - intros [= <-]. by split.
      - cbn [enumerate]. rewrite mapM_res_cons. cbn [fst snd mbind res_bind].
        destruct (vertcat_column n col (prefix +:+ name +:+ "_" +:+ pretty k))
          as (q' & Hq' & Hcol); [by apply Forall_inv in HF|].
        rewrite Hq'. cbn [mbind res_bind].
        destruct (mapM _ (enumerate (S k) cs)) as [rest| |] eqn:Hrest;
          cbn [mbind res_bind]; [|done..].
        intros [= <-].
        destruct (IH (S k) rest) as [Hl HF']; [by apply Forall_inv_tail in HF|done|].
        split; [simpl; by rewrite Hl|by constructor]. }
    destruct (Hgen 0%nat cols cols' Hcols Hbody) as [Hl HF]. split; [congruence|done].
  - split; [apply length_replicate|]. apply Forall_replicate. apply column_of_empty.
Qed.

Lemma default_mapping_ok nlp name n nlp' :
  default_mapping nlp name n = Ok nlp' →
  is_Some (mapping nlp' !! name)
  ∧ nameDof nlp' = nameDof nlp ∧ control_type_value nlp' = control_type_value nlp
  ∧ (∀ other, other ≠ name → mapping nlp' !! other = mapping nlp !! other).
Proof.
  unfold default_mapping. destruct (mapping nlp !! name) as [b|] eqn:Hb.
  - intros [= <-]. rewrite Hb. by split_and!.
  - simpl. intros [= <-]. simpl. rewrite lookup_insert_eq. split_and!; [by eexists|done..|].
    intros other Hne. by rewrite lookup_insert_ne.
Qed.

Lemma get_mapping_ok nlp name m : get_mapping nlp name = Ok m → mapping nlp !! name = Some m.
Proof. unfold get_mapping. by destruct (mapping nlp !! name); intros [= <-]. Qed.

Ltac bind_ok H :=
  repeat match type of H with
  | (?m ≫= _) = Ok _ =>
      destruct m eqn:?; cbn [mbind res_bind] in H; [|discriminate H..]
  end.

Ltac size_facts :=
  repeat match goal with
  | E : get_mapping _ _ = Ok _ |- _ => apply get_mapping_ok in E
  | E : reduced_column _ _ _ _ _ = Ok _ |- _ => apply reduced_column_size in E
  | E : full_column _ _ _ = Ok _ |- _ => apply full_column_size in E
  | E : control_columns _ _ _ _ = Ok _ |- _ => apply control_columns_size in E as [? ?]
  | E : default_mapping _ _ _ = Ok _ |- _ => apply default_mapping_ok in E as (_ & _ & ? & _)
  end.

(** For the coordinates, the velocities and the forces, both placeholders
    are sized by the quantity's own mapping. *)
Lemma configure_q_sizes nlp nlp' ph :
  configure_q nlp = Ok (nlp', ph) →
  ∃ m, mapping nlp' !! "q" = Some m
       ∧ casadi.size1 (full ph) = Mapping.len (BiMapping.to_second m)
       ∧ Forall (λ col, casadi.size1 col = Mapping.len (BiMapping.to_first m)) (reduced ph).
Proof.
  unfold configure_q. intros H. bind_ok H. injection H as <- <-.
  size_facts. simplify_eq. eexists. split_and!; [done|done|]. by constructor.
Qed.

Lemma configure_qdot_sizes nlp nlp' ph :
  configure_qdot nlp = Ok (nlp', ph) →
  ∃ m, mapping nlp' !! "qdot" = Some m
       ∧ casadi.size1 (full ph) = Mapping.len (BiMapping.to_second m)
       ∧ Forall (λ col, casadi.size1 col = Mapping.len (BiMapping.to_first m)) (reduced ph).
Proof.
  unfold configure_qdot. intros H. bind_ok H. injection H as <- <-.
  size_facts. simplify_eq. eexists. split_and!; [done|done|]. by constructor.
Qed.

Lemma configure_tau_sizes nlp nlp' ph :
  configure_tau nlp = Ok (nlp', ph) →
  ∃ m, mapping nlp' !! "tau" = Some m
       ∧ casadi.size1 (full ph) = Mapping.len (BiMapping.to_second m)
       ∧ length (reduced ph) = control_type_value nlp
       ∧ Forall (λ col, casadi.size1 col = Mapping.len (BiMapping.to_first m)) (reduced ph).
Proof.
  unfold configure_tau. intros H. bind_ok H. injection H as <- <-.
  size_facts. simplify_eq. eexists. split_and!; [done|done| |done]. simpl. congruence.
Qed.

(** For the force derivatives, the reduced placeholder is sized by the
    mapping of ["taudot"], the full one by the mapping of ["q"]. *)
Lemma configure_taudot_sizes nlp nlp' ph :
  configure_taudot nlp = Ok (nlp', ph) →
  ∃ m mq, mapping nlp' !! "taudot" = Some m ∧ mapping nlp' !! "q" = Some mq
       ∧ casadi.size1 (full ph) = Mapping.len (BiMapping.to_second mq)
       ∧ Forall (λ col, casadi.size1 col = Mapping.len (BiMapping.to_first m)) (reduced ph).
Proof.
  unfold configure_taudot. intros H. bind_ok H. injection H as <- <-.
  size_facts. simplify_eq. do 2 eexists. split_and!; [done..].
Qed.

(** C5, on the code. With the identity mapping of three entries for ["q"] and
    a mapping of two entries for ["taudot"], [configure_taudot] builds a
    reduced placeholder of two elements, one per entry of the [to_first]
    mapping of ["taudot"], and a full placeholder of three elements: one per
    entry of the [to_second] mapping of ["q"], not of ["taudot"]. *)
Theorem configure_taudot_full_placeholder :
  ∃ nlp' ph m,
    configure_taudot three_dof_phase = Ok (nlp', ph)
    ∧ mapping nlp' !! "taudot" = Some m
    ∧ Mapping.len (BiMapping.to_second m) = 2%nat
    ∧ casadi.size1 <$> reduced ph = [2%nat]
    ∧ casadi.size1 (full ph) = 3%nat
    ∧ casadi.entries (full ph)
      = [["Taudot_TransY"]; ["Taudot_RotX"]; ["Taudot_RotZ"]].
Proof. do 3 eexists. split_and!; [vm_compute; reflexivity|reflexivity..]. Qed.

End placeholders.

(** ** [configure_dynamics_function] *)

Section dynamics_function.
Import Problem.

Lemma sym_size1 (name : string) (n : nat) : casadi.size1 (casadi.sym name n 1) = n.
Proof.
  unfold casadi.sym, casadi.size1. case_bool_decide as Hn; simpl.
  - by rewrite Hn.
  - by rewrite length_fmap length_seq.
Qed.

Lemma sym_size2 (name : string) (n : nat) : casadi.size2 (casadi.sym name n 1) = 1%nat.
Proof. unfold casadi.sym. by case_bool_decide. Qed.

Lemma elem_of_concat {A} (x : A) (ls : list (list A)) :
  x ∈ concat ls ↔ ∃ l, x ∈ l ∧ l ∈ ls.
Proof.
  induction ls as [|l0 ls IH]; simpl.
  - split; [by intros ?%elem_of_nil|by intros (? & _ & ?%elem_of_nil)].
  - rewrite elem_of_app IH. split.
    + intros [H|(l & H1 & H2)]; [exists l0; split; [done|by left]|].
      exists l. split; [done|by right].
    + intros (l & H1 & [->|H2]%elem_of_cons); [by left|right; by exists l].
Qed.

Lemma closed_over_spec (inputs outputs : list casadi.MX) :
  casadi.closed_over inputs outputs = true
  ↔ ∀ s, s ∈ concat (casadi.symbols <$> outputs) → s ∈ concat (casadi.symbols <$> inputs).
Proof.
  unfold casadi.closed_over. rewrite forallb_forall. split.
  - intros H s Hs. apply list_elem_of_In in Hs. by apply H, bool_decide_eq_true in Hs.
  - intros H s Hs. apply bool_decide_eq_true, H. by apply list_elem_of_In.
Qed.

Lemma new_Function_free (name : string) (inputs outputs : list casadi.MX)
    (names_in names_out : list string) (s : string) :
  s ∈ concat (casadi.symbols <$> outputs) → s ∉ concat (casadi.symbols <$> inputs) →
  casadi.new_Function name inputs outputs names_in names_out = Raise RuntimeError.
Proof.
  intros Hs Hfree. unfold casadi.new_Function.
  destruct (casadi.closed_over inputs outputs) eqn:Hc; [|done].
  destruct Hfree. by apply (proj1 (closed_over_spec _ _) Hc).
Qed.

Lemma new_Function_inv (name : string) (inputs outputs : list casadi.MX)
    (names_in names_out : list string) (f : casadi.Function) :
  casadi.new_Function name inputs outputs names_in names_out = Ok f →
  f = casadi.mkFunction name inputs outputs names_in names_out false.
Proof. unfold casadi.new_Function. destruct (casadi.closed_over _ _); by intros [= <-]. Qed.

(** Columns stack into a column, whatever their number. *)
Lemma vertcat_columns (xs : list casadi.MX) :
  Forall (λ x, casadi.size2 x = 1%nat) xs →
  casadi.vertcat xs = Ok (casadi.mkMX 1 (concat (casadi.entries <$> xs))).
Proof.
  intros HF. destruct xs as [|x0 rest]; [done|].
  unfold casadi.vertcat.
  assert (Hall : ∀ l, Forall (λ x, casadi.size2 x = 1%nat) l →
                      filter (λ x, casadi.is_empty x = false) l = l).
  { clear. induction 1 as [|x l Hx _ IH]; [done|].
    rewrite filter_cons_True; [|by rewrite IH].
    unfold casadi.is_empty. rewrite Hx. by rewrite andb_false_r. }
  rewrite (Hall _ HF).
  apply Forall_cons in HF as [H0 Hrest]. rewrite H0.
  assert (Hcols : forallb (λ x, bool_decide (casadi.size2 x = 1%nat)) rest = true).
  { apply forallb_forall. intros x Hx. apply bool_decide_eq_true.
    apply list_elem_of_In in Hx. by apply (proj1 (Forall_forall _ _) Hrest). }
  by rewrite Hcols.
Qed.

Lemma handed_column (ocp : OptimalControlProgram) (nlp : NonLinearProgram) (w : placeholder) :
  let h := handed (casadi.sym "x" (states_n nlp) 1) (casadi.sym "u" (controls_n nlp) 1)
                  (casadi.sym "p" (v_parameters_n ocp) 1) w in
  casadi.size2 h = 1%nat ∧ casadi.size1 h = width ocp nlp w.
Proof. destruct w; simpl; by rewrite sym_size1 sym_size2. Qed.

(** C4, as the code has it. [configure_dynamics_function] compares no width.
    Whenever it returns, the function it compiles has the returned expression
    itself as its output [xdot] (the vertical concatenation of the returned
    expressions when a sequence is returned), over the inputs [x], [u], [p],
    neither truncated nor padded to the state width. A returned expression in
    which a symbol occurs that is not among [x], [u], [p] raises the
    [RuntimeError] of casadi, whatever its width. A derivative function that
    returns one or more of the placeholders it is handed, stacked in any
    order, is compiled, and the output has the sum of their widths. *)
Theorem configure_dynamics_function_output (ocp : OptimalControlProgram)
    (nlp : NonLinearProgram) :
  let x := casadi.sym "x" (states_n nlp) 1 in
  let u := casadi.sym "u" (controls_n nlp) 1 in
  let p := casadi.sym "p" (v_parameters_n ocp) 1 in
  let returns (dyn_func : casadi.MX → casadi.MX → casadi.MX → NonLinearProgram
                          → res dyn_result) (e : casadi.MX) :=
    dyn_func x u p (set_parameters_n nlp (v_parameters_n ocp)) = Ok (DynExpr e)
    ∨ ∃ es, dyn_func x u p (set_parameters_n nlp (v_parameters_n ocp)) = Ok (DynSeq es)
            ∧ casadi.vertcat es = Ok e in
  let compiled (e : casadi.MX) (nlp' : NonLinearProgram) :=
    ∃ f, dynamics_func nlp' = Some f
         ∧ casadi.f_in f = [x; u; p] ∧ casadi.f_out f = [e]
         ∧ casadi.name_in f = ["x"; "u"; "p"] ∧ casadi.name_out f = ["xdot"] in
  (∀ dyn_func nlp', configure_dynamics_function ocp nlp dyn_func = Ok nlp' →
     ∃ e, returns dyn_func e ∧ compiled e nlp')
  ∧ (∀ dyn_func e s, returns dyn_func e →
       s ∈ casadi.symbols e →
       s ∉ casadi.symbols x ++ casadi.symbols u ++ casadi.symbols p →
       configure_dynamics_function ocp nlp dyn_func = Raise RuntimeError)
  ∧ (∀ sel, sel ≠ [] → ∃ nlp' e,
       configure_dynamics_function ocp nlp (stack sel) = Ok nlp'
       ∧ compiled e nlp'
       ∧ casadi.size1 e = sum_list (width ocp nlp <$> sel)
       ∧ casadi.size2 e = 1%nat).
Proof.
  intros x u p returns compiled. split_and!.
  - intros dyn_func nlp'. unfold configure_dynamics_function.
    cbn [parameters_n set_parameters_n]. fold x u p. intros H.
    destruct (dyn_func x u p _) as [d| |] eqn:Hd; cbn [mbind res_bind] in H; [|done..].
    destruct (match d with DynSeq es => casadi.vertcat es | DynExpr e => Ok e end)
      as [e| |] eqn:He; cbn [mbind res_bind] in H; [|done..].
    destruct (casadi.new_Function _ _ _ _ _) as [f| |] eqn:Hf;
      cbn [mbind res_bind] in H; [|done..].
    apply new_Function_inv in Hf as ->. injection H as <-.
    exists e. split.
    + unfold returns. rewrite Hd. destruct d as [e'|es].
      * left. congruence.
      * right. by exists es.
    + eexists. by split_and!.
  - intros dyn_func e s Hret Hs Hfree. unfold configure_dynamics_function.
    cbn [parameters_n set_parameters_n]. fold x u p.
    assert (Hnew : casadi.new_Function "ForwardDyn" [x; u; p] [e] ["x"; "u"; "p"] ["xdot"]
                   = Raise RuntimeError).
    { apply (new_Function_free _ _ _ _ _ s).
      - simpl. by rewrite app_nil_r.
      - simpl. by rewrite app_nil_r. }
    destruct Hret as [-> | (es & -> & Hes)]; cbn [mbind res_bind].
    + by rewrite Hnew.
    + by rewrite Hes /= Hnew.
  - intros sel _. unfold configure_dynamics_function, stack.
    cbn [parameters_n set_parameters_n mbind res_bind]. fold x u p.
    assert (Hcol : Forall (λ h, casadi.size2 h = 1%nat) (handed x u p <$> sel)).
    { apply Forall_fmap, Forall_forall. intros w _.
      apply (handed_column ocp nlp w). }
    rewrite (vertcat_columns _ Hcol). cbn [mbind res_bind].
    set (e := casadi.mkMX 1 (concat (casadi.entries <$> (handed x u p <$> sel)))).
    assert (Hclosed : casadi.closed_over [x; u; p] [e] = true).
    { apply closed_over_spec. intros s. simpl. rewrite !app_nil_r.
      unfold casadi.symbols at 1. simpl.
      intros (r & Hs & (rows & Hr & Hrows)%elem_of_concat)%elem_of_concat.
      apply list_elem_of_fmap in Hrows as (h & -> & Hh).
      apply list_elem_of_fmap in Hh as (w & -> & _).
      assert (Hin : s ∈ casadi.symbols (handed x u p w)).
      { unfold casadi.symbols. apply elem_of_concat. by exists r. }
      destruct w; simpl in Hin; rewrite !elem_of_app; auto. }
    unfold casadi.new_Function. rewrite Hclosed. cbn [mbind res_bind].
    eexists _, e. split_and!; [reflexivity| |..|done].
    + eexists. by split_and!.
    + unfold casadi.size1, e. simpl. clear. induction sel as [|w sel IH]; [done|].
      simpl. rewrite length_app IH. f_equal.
      apply (handed_column ocp nlp w).
Qed.

Lemma configure_dynamics_function_output_witness :
  ∃ nlp' f out,
    configure_dynamics_function (mkOcp 0) (mkNlp [] 0 0 0 1 ∅ 2 1 0 ∅ None)
      (stack [Controls; States]) = Ok nlp'
    ∧ dynamics_func nlp' = Some f
    ∧ casadi.f_out f = [out]
    ∧ casadi.entries out = [["u"]; ["x_0_0"]; ["x_1_0"]].
Proof.
  destruct (configure_dynamics_function_output (mkOcp 0) (mkNlp [] 0 0 0 1 ∅ 2 1 0 ∅ None))
    as (_ & _ & Hstack).
  destruct (Hstack [Controls; States]) as (nlp' & e & Hcfg & (f & Hf & _ & Hout & _) & _);
    [done|].
  exists nlp', f, e. split_and!; [exact Hcfg|exact Hf|exact Hout|].
  vm_compute in Hcfg. injection Hcfg as <-. cbn in Hf. injection Hf as <-.
  cbn in Hout. by injection Hout as <-.
Defined.

(** C4, as stated, fails: for a phase whose states have total width 2, the
    derivative function that returns its states followed by its one control,
    an expression of 3 rows, is compiled without any error, into a function
    whose output has these 3 rows. *)
Lemma dynamics_width_mismatch_accepted :
  ∃ nlp' f out,
    states_n (mkNlp [] 0 0 0 1 ∅ 2 1 0 ∅ None) = 2%nat
    ∧ configure_dynamics_function (mkOcp 0) (mkNlp [] 0 0 0 1 ∅ 2 1 0 ∅ None)
        (λ x u p _, Ok (DynSeq [x; u])) = Ok nlp'
    ∧ dynamics_func nlp' = Some f
    ∧ casadi.f_out f = [out]
    ∧ casadi.entries out = [["x_0_0"]; ["x_1_0"]; ["u"]]
    ∧ casadi.size1 out = 3%nat.
Proof. do 3 eexists. split_and!; reflexivity. Qed.

End dynamics_function.

(** * Further properties *)

(** ** [Mapping.map]: outcomes, the identity mapping, round trips *)

Section mapping_more.

Lemma map_index_error (self : Mapping.t) (obj : Mapping.operand) (x : np.ndarray) (v : Z) :
  Mapping.as_array obj = Some x →
  Some v ∈ Mapping.map_idx self →
  (length (np.rows (Mapping.as_2d x)) ≤ Mapping.source v)%nat →
  Mapping.map self obj = Raise IndexError.
Proof.
  intros Hobj Hv Hge. rewrite (map_unfold self obj x Hobj). cbv zeta.
  set (m := Mapping.as_2d x) in *. set (l := Mapping.map_idx self) in *.
  set (dst := np.rows (np.zeros (length l) (np.ncols m))).
  destruct (plus_minus_cases v) as [(Hp & Hm & _)|(Hp & Hm & _)].
  - by rewrite (fill_out_of_range Mapping.is_plus (np.rows m) l v Hv Hp Hge).
  - destruct (take_rows_cases (np.rows m) (Mapping.index_in_origin Mapping.is_plus l))
      as [(p1 & -> & Hlen)| ->]; [|done]. simpl.
    destruct (setitem_rows_ok dst (Mapping.index_in_new Mapping.is_plus l)
                (np.astype_float64 p1))
      as (o1 & -> & _).
    + apply index_new_NoDup.
    + apply Forall_forall. intros i Hi. apply index_new_bounds in Hi.
      unfold dst; simpl. rewrite length_replicate. lia.
    + rewrite astype_length Hlen. symmetry. by apply index_lists_length.
    + simpl. by rewrite (fill_out_of_range Mapping.is_minus (np.rows m) l v Hv Hm Hge).
Qed.

Lemma in_range_dec (l : list (option Z)) (n : nat) :
  {∀ v, Some v ∈ l → (Mapping.source v < n)%nat}
  + {∃ v, Some v ∈ l ∧ (n ≤ Mapping.source v)%nat}.
Proof.
  induction l as [|o l [IH|IH]].
  - left. intros v Hv. by apply elem_of_nil in Hv.
  - destruct o as [v|].
    + destruct (decide (Mapping.source v < n)%nat) as [Hv|Hv].
      * left. intros v' [[= ->]|Hv']%elem_of_cons; auto.
      * right. exists v. split; [by left|lia].
    + left. intros v' [?|Hv']%elem_of_cons; [done|auto].
  - right. destruct IH as (v & Hv & Hge). exists v. split; [by right|done].
Qed.

(** X1. What a call of [Mapping.map] can do. On an object that is neither a
    tuple, a list nor an array it raises [RuntimeError], whatever the
    mapping. On a tuple, a list or an array it returns exactly when every
    entry of [map_idx] that is not [None] refers to a row the input has, and
    raises [IndexError] otherwise: no other outcome exists. *)
Theorem Mapping_map_outcome (self : Mapping.t) (obj : Mapping.operand) :
  match Mapping.as_array obj with
  | None => Mapping.map self obj = Raise RuntimeError
  | Some x =>
      let in_range :=
        ∀ v, Some v ∈ Mapping.map_idx self →
             (Mapping.source v < length (np.rows (Mapping.as_2d x)))%nat in
      ((∃ y, Mapping.map self obj = Ok y) ↔ in_range)
      ∧ (¬ in_range → Mapping.map self obj = Raise IndexError)
  end.
Proof.
  destruct (Mapping.as_array obj) as [x|] eqn:Hobj; [|by destruct obj].
  cbv zeta.
  destruct (in_range_dec (Mapping.map_idx self) (length (np.rows (Mapping.as_2d x))))
    as [Hin|(v & Hv & Hge)].
  - split; [|done]. split; [done|]. intros _.
    destruct (map_rows_char self obj x Hobj Hin) as (out & -> & _). by eexists.
  - pose proof (map_index_error self obj x v Hobj Hv Hge) as Herr. rewrite Herr.
    split; [|done]. split; [by intros [y ?]|].
    intros Hin. specialize (Hin v Hv). lia.
Qed.

Lemma Mapping_map_outcome_witness :
  Mapping.map (Mapping.Mapping [Some 1; None]) Mapping.OOther = Raise RuntimeError
  ∧ (∃ y, Mapping.map (Mapping.Mapping [Some 1; None]) (Mapping.OSeq [7; 8]) = Ok y)
  ∧ Mapping.map (Mapping.Mapping [Some 1; Some (-2)]) (Mapping.OSeq [7; 8])
    = Raise IndexError.
Proof.
  split_and!.
  - exact (Mapping_map_outcome (Mapping.Mapping [Some 1; None]) Mapping.OOther).
  - apply (Mapping_map_outcome (Mapping.Mapping [Some 1; None]) (Mapping.OSeq [7; 8])).
    intros v Hv. simpl in Hv.
    repeat (apply elem_of_cons in Hv as [Hv|Hv]; [simplify_eq; vm_compute; lia|]).
    by apply elem_of_nil in Hv.
  - apply (Mapping_map_outcome (Mapping.Mapping [Some 1; Some (-2)]) (Mapping.OSeq [7; 8])).
    intros Hin. specialize (Hin (-2)). simpl in Hin.
    assert (H : (Mapping.source (-2) < 2)%nat) by (apply Hin; set_solver).
    vm_compute in H. lia.
Defined.

Lemma range_lookup (n i : nat) :
  (i < n)%nat → BiMapping.range n !! i = Some (Some (Z.of_nat i)).
Proof.
  intros Hi. unfold BiMapping.range. rewrite list_lookup_fmap lookup_seq_lt //.
Qed.

Lemma range_length (n : nat) : length (BiMapping.range n) = n.
Proof. unfold BiMapping.range. by rewrite length_fmap length_seq. Qed.

Lemma range_elem (n : nat) (v : Z) :
  Some v ∈ BiMapping.range n ↔ 0 ≤ v < Z.of_nat n.
Proof.
  unfold BiMapping.range. rewrite list_elem_of_fmap. split.
  - intros (i & [= ->] & Hi). apply elem_of_seq in Hi. lia.
  - intros Hv. exists (Z.to_nat v). split; [f_equal; lia|]. apply elem_of_seq. lia.
Qed.

Lemma source_of_nat (i : nat) : Mapping.source (Z.of_nat i) = i.
Proof. unfold Mapping.source. lia. Qed.

Lemma sign_of_nat (i : nat) : Mapping.sign (Z.of_nat i) = 1.
Proof. unfold Mapping.sign. rewrite bool_decide_eq_false_2 //. lia. Qed.

(** X2. The mapping [range(n)], which is what the configuration routines
    install when none is given, copies the first [n] rows of its input when
    their entries are handed on as they are (the entries of a float array,
    and the integers within 2^53 of zero): an input of exactly [n] such rows
    comes back with the same entries, as a rank-two float array (a rank-one
    input as one column). *)
Theorem Mapping_map_range (n : nat) (obj : Mapping.operand) (x : np.ndarray) :
  Mapping.as_array obj = Some x →
  (n ≤ length (np.rows (Mapping.as_2d x)))%nat →
  Forall (Forall (np.fits (Mapping.dtype_of obj))) (np.rows (Mapping.as_2d x)) →
  Forall (Forall (np.exact (Mapping.dtype_of obj))) (take n (np.rows (Mapping.as_2d x))) →
  Mapping.map (Mapping.Mapping (BiMapping.range n)) obj
  = Ok (np.Nd2 (np.Mat (np.ncols (Mapping.as_2d x)) (take n (np.rows (Mapping.as_2d x)))))
  ∧ (n = length (np.rows (Mapping.as_2d x)) →
     Mapping.map (Mapping.Mapping (BiMapping.range n)) obj = Ok (np.Nd2 (Mapping.as_2d x))).
Proof.
  intros Hobj Hn _ Hexact.
  assert (Hmap : Mapping.map (Mapping.Mapping (BiMapping.range n)) obj
    = Ok (np.Nd2 (np.Mat (np.ncols (Mapping.as_2d x))
                         (take n (np.rows (Mapping.as_2d x)))))).
  { destruct (map_rows_char (Mapping.Mapping (BiMapping.range n)) obj x Hobj)
      as (out & -> & Hlen & _ & Hrow).
    { intros v Hv. simpl in Hv. apply range_elem in Hv. unfold Mapping.source. lia. }
    do 3 f_equal. apply list_eq. intros i.
    unfold Mapping.len in Hlen. simpl in Hlen, Hrow. rewrite range_length in Hlen.
    destruct (decide (i < n)%nat) as [Hi|Hi].
    - rewrite (Hrow i (Z.of_nat i) (range_lookup n i Hi)) source_of_nat.
      rewrite lookup_take_lt //.
      destruct (np.rows (Mapping.as_2d x) !! i) as [r|] eqn:Hr; simpl; [|done].
      rewrite stored_exact_row.
      { apply (proj1 (Forall_lookup _ _) Hexact i). by rewrite lookup_take_lt. }
      by rewrite sign_of_nat scale_one.
    - rewrite lookup_ge_None_2; [lia|]. rewrite lookup_ge_None_2 //.
      rewrite length_take. lia. }
  split; [done|]. intros ->. rewrite Hmap firstn_all. by destruct (Mapping.as_2d x).
Qed.

Lemma Mapping_map_range_witness :
  Mapping.map (Mapping.Mapping (BiMapping.range 2))
    (Mapping.OArr (np.Nd2 (np.Mat 2 [[1; 2]; [3; 4]; [5; 6]])))
  = Ok (np.Nd2 (np.Mat 2 [[1; 2]; [3; 4]])).
Proof.
  apply (Mapping_map_range 2 _ (np.Nd2 (np.Mat 2 [[1; 2]; [3; 4]; [5; 6]]))).
  - reflexivity.
  - simpl. lia.
  - simpl. repeat constructor; lia.
  - simpl. repeat constructor; lia.
Defined.

(** X3. Expanding with [to_second] and reducing the float array obtained back
    with [to_first] gives the entries of the input back, when they are handed
    on as they are (the entries of a float array, and the integers within
    2^53 of zero). It does so for every [BiMapping] whose two index lists
    agree: each entry [v] of [to_first] points at an entry [w] of
    [to_second] that points back at the position of [v], with the two signs
    cancelling. *)
Theorem BiMapping_round_trip (b : BiMapping.t) (obj : Mapping.operand) (x : np.ndarray) :
  let s := Mapping.map_idx (BiMapping.to_second b) in
  let f := Mapping.map_idx (BiMapping.to_first b) in
  Mapping.as_array obj = Some x →
  Forall (Forall (np.exact (Mapping.dtype_of obj))) (np.rows (Mapping.as_2d x)) →
  length (np.rows (Mapping.as_2d x)) = length f →
  (∀ w, Some w ∈ s → (Mapping.source w < length f)%nat) →
  (∀ j v, f !! j = Some v →
     ∃ z w, v = Some z ∧ s !! Mapping.source z = Some (Some w)
            ∧ Mapping.source w = j ∧ Mapping.sign z * Mapping.sign w = 1) →
  ∃ y, Mapping.map (BiMapping.to_second b) obj = Ok y
       ∧ Mapping.map (BiMapping.to_first b) (Mapping.OFloat y)
         = Ok (np.Nd2 (Mapping.as_2d x)).
Proof.
  intros s f Hobj Hexact Hlen Hs Hf.
  destruct (map_rows_char (BiMapping.to_second b) obj x Hobj)
    as (y & Hy & Hly & _ & Hrow).
  { intros w Hw. rewrite Hlen. by apply Hs. }
  eexists. split; [exact Hy|].
  set (Y := np.Nd2 (np.Mat (np.ncols (Mapping.as_2d x)) y)).
  destruct (map_rows_char (BiMapping.to_first b) (Mapping.OFloat Y) Y eq_refl)
    as (out & -> & Hlo & _ & Hrow').
  { intros z Hz. simpl. rewrite Hly.
    apply list_elem_of_lookup in Hz as [j Hj].
    destruct (Hf j _ Hj) as (z' & w & [= <-] & Hw & _).
    apply lookup_lt_Some in Hw. done. }
  simpl. destruct (Mapping.as_2d x) as [cols rows] eqn:Hx. simpl in *.
  do 3 f_equal. apply list_eq. intros j.
  destruct (f !! j) as [v|] eqn:Hj.
  - destruct (Hf j v Hj) as (z & w & -> & Hw & Hsrc & Hsign).
    rewrite (Hrow' j z Hj) (Hrow _ w Hw) Hsrc.
    destruct (rows !! j) as [r|] eqn:Hr; simpl; [|done]. f_equal.
    assert (Hr' : Forall (np.exact (Mapping.dtype_of obj)) r).
    { by apply (proj1 (Forall_lookup _ _) Hexact j). }
    rewrite (stored_exact_row _ w r Hr').
    rewrite (stored_exact_row np.float64 z).
    { apply Forall_fmap. eapply Forall_impl; [exact Hr'|].
      intros a Ha. by eapply stored_is_float. }
    rewrite -list_fmap_compose.
    transitivity (id <$> r); [|apply list_fmap_id].
    apply list_fmap_ext. intros _ a _. unfold compose, id.
    rewrite Z.mul_assoc Hsign. lia.
  - apply lookup_ge_None in Hj. unfold Mapping.len in Hlo. fold f in Hlo.
    rewrite !lookup_ge_None_2 //; lia.
Qed.

Lemma BiMapping_round_trip_witness :
  ∃ y, Mapping.map (Mapping.Mapping [Some 0; Some (-1); None; Some 1])
         (Mapping.OArr (np.Nd2 (np.Mat 2 [[1; 2]; [3; 4]]))) = Ok y
       ∧ Mapping.map (Mapping.Mapping [Some 0; Some (-1)]) (Mapping.OFloat y)
         = Ok (np.Nd2 (np.Mat 2 [[1; 2]; [3; 4]])).
Proof.
  apply (BiMapping_round_trip
           (BiMapping.BiMapping (Mapping.Mapping [Some 0; Some (-1); None; Some 1])
                                (Mapping.Mapping [Some 0; Some (-1)]))
           (Mapping.OArr (np.Nd2 (np.Mat 2 [[1; 2]; [3; 4]])))
           (np.Nd2 (np.Mat 2 [[1; 2]; [3; 4]]))).
  - reflexivity.
  - simpl. repeat constructor; lia.
  - reflexivity.
  - intros w Hw. simpl in Hw.
    repeat (apply elem_of_cons in Hw as [Hw|Hw]; [simplify_eq; vm_compute; lia|]).
    by apply elem_of_nil in Hw.
  - intros [|[|j]] v Hj; simpl in Hj; simplify_eq.
    + exists 0, 0. by split_and!.
    + exists (-1), (-1). by split_and!.
Defined.

End mapping_more.

(** ** The merge routines: rank-one arrays, separate phases, odd inputs *)

Section merges_more.
Import utils.

(** X4. On a list of rank-one arrays, the first of them not empty,
    [concatenate_optimization_variables] returns their concatenation in
    which every array but the final one has lost its last entry when
    [continuous_phase] is set, and nothing is dropped otherwise;
    [continuous_interval] and [merge_phases] play no part. When no array is
    empty the result has one entry less per junction. *)
Theorem merge_rank_one_arrays (d : nat) (x : Z) (d0 : list Z) (rest : list (list Z))
    (c ci mp : bool) :
  concatenate_optimization_variables (S d) (PList (vector <$> (x :: d0) :: rest)) c ci mp
  = Ok (vector (merge1 c ((x :: d0) :: rest)))
  ∧ (Forall (λ b, b ≠ []) rest →
     (length (merge1 c ((x :: d0) :: rest)) + (if c then length rest else 0))%nat
     = sum_list (length <$> (x :: d0) :: rest)).
Proof.
  split; [by rewrite cov_vectors|].
  intros HF.
  rewrite -(merge1_length c ((x :: d0) :: rest)); [done|by constructor|].
  simpl. by rewrite Nat.sub_0_r.
Qed.

Lemma merge_rank_one_arrays_witness :
  length (merge1 true [[1; 2; 3]; [3; 4]; [4; 5; 6]]) = 6%nat.
Proof.
  destruct (merge_rank_one_arrays 0 1 [2; 3] [[3; 4]; [4; 5; 6]] true true true)
    as [_ Hlen].
  assert (HF : Forall (λ b : list Z, b ≠ []) [[3; 4]; [4; 5; 6]]) by (repeat constructor; done).
  specialize (Hlen HF). simpl in Hlen. simpl. lia.
Defined.

(** X5. A single rank-two array handed over in place of a list is merged as
    the list of its rows: its rows are laid end to end, every row but the
    last one losing its last entry when [continuous_phase] is set. *)
Theorem merge_array_as_its_rows (d : nat) (m : np.matrix) (c ci mp : bool) :
  concatenate_optimization_variables (S d) (block m) c ci mp
  = concatenate_optimization_variables (S d) (PList (vector <$> np.rows m)) c ci mp
  ∧ (∀ x r0 rs, np.rows m = (x :: r0) :: rs →
       concatenate_optimization_variables (S d) (block m) c ci mp
       = Ok (vector (merge1 c (np.rows m)))).
Proof.
  split; [by rewrite cov_rows cov_vectors|].
  intros x r0 rs Hrows. by rewrite cov_rows Hrows.
Qed.

Lemma merge_array_as_its_rows_witness :
  concatenate_optimization_variables 1 (block (np.Mat 3 [[1; 2; 3]; [3; 4; 5]])) true true true
  = Ok (vector [1; 2; 3; 4; 5]).
Proof.
  destruct (merge_array_as_its_rows 0 (np.Mat 3 [[1; 2; 3]; [3; 4; 5]]) true true true)
    as [_ Hrows].
  exact (Hrows 1 [2; 3] [[3; 4; 5]] eq_refl).
Defined.

Lemma cov_blocks_any (d : nat) (ms : list np.matrix) (c ci mp : bool) :
  concatenate_optimization_variables (S (S d)) (PList (block <$> ms)) c ci mp =
  match ms with
  | [] => Raise IndexError
  | m0 :: _ =>
      match np.rows m0 with
      | [] => Raise IndexError
      | _ =>
          z ← mapM (λ m, concatenate_optimization_variables (S d) (block m) ci true true) ms;
          if mp then concatenate_optimization_variables (S d) (PList z) c true true
          else Ok (PList z)
      end
  end.
Proof.
  destruct ms as [|[w [|r0 rs]] ms]; [done..|].
  change (concatenate_optimization_variables (S (S d)) ?v c ci mp) with
    (v0 ← getitem0 v; sh ← shape v0;
     if bool_decide (length sh ≠ 0%nat) then
       v00 ← getitem0 v0;
       if is_ndarray v00 then
         items ← iter v;
         z_final ← mapM (λ zi, concatenate_optimization_variables (S d) zi ci true true) items;
         if mp then concatenate_optimization_variables (S d) (PList z_final) c true true
         else Ok (PList z_final)
       else
         items ← iter v;
         final_tuple ←
           mapM (λ iy : nat * pyval,
                   if bool_decide (iy.1 < length items - 1)%nat && c
                   then sh_y ← shape iy.2;
                        if bool_decide (length sh_y = 2%nat)
                        then all_but_last_col iy.2 else all_but_last iy.2
                   else Ok iy.2)
                (enumerate 0 items);
         hstack final_tuple
     else Ok PNone).
  rewrite fmap_cons.
  cbn [block getitem0 np.rows shape np.shape mbind res_bind length bool_decide is_ndarray iter].
  rewrite (bool_decide_eq_true_2 (2%nat ≠ 0%nat)) //. cbn [mbind res_bind is_ndarray iter].
  by rewrite -(mapM_res_fmap
                (λ zi, concatenate_optimization_variables (S d) zi ci true true) block).
Qed.

(** X6. With [merge_phases=False], a list of rank-two arrays, each with a row
    and a column, comes back as the list of the arrays merged one by one
    (rows laid end to end under [continuous_interval]); [continuous_phase]
    is not used. With [merge_phases=True] the result is the merge of that
    very list under [continuous_phase]. *)
Theorem merge_phases_kept_apart (d : nat) (ms : list np.matrix) (c ci : bool) :
  ms ≠ [] → Forall (λ m, np.wf (np.Nd2 m)) ms → Forall nonempty_block ms →
  let apart := (λ m, vector (merge1 ci (np.rows m))) <$> ms in
  concatenate_optimization_variables (S (S d)) (PList (block <$> ms)) c ci false
  = Ok (PList apart)
  ∧ concatenate_optimization_variables (S (S d)) (PList (block <$> ms)) c ci true
    = concatenate_optimization_variables (S d) (PList apart) c true true.
Proof.
  intros Hne Hwf Hok apart. rewrite !cov_blocks_any.
  destruct ms as [|m0 ms']; [done|]. set (ms := m0 :: ms') in *.
  destruct (np.rows m0) eqn:Hr0; [by destruct (Forall_inv Hok) as [_ ?]|].
  rewrite (mapM_res_ok _ (λ m, vector (merge1 ci (np.rows m)))); [|done].
  intros m Hm. apply cov_block_ok.
  - by eapply (proj1 (Forall_forall _ _) Hwf).
  - by eapply (proj1 (Forall_forall _ _) Hok).
Qed.

Lemma merge_phases_kept_apart_witness :
  concatenate_optimization_variables 2
    (PList [block (np.Mat 2 [[1; 2]; [2; 3]]); block (np.Mat 3 [[3; 4; 5]])])
    true true false
  = Ok (PList [vector [1; 2; 3]; vector [3; 4; 5]]).
Proof.
  apply (merge_phases_kept_apart 0 [np.Mat 2 [[1; 2]; [2; 3]]; np.Mat 3 [[3; 4; 5]]]
           true true).
  - done.
  - repeat constructor.
  - repeat constructor; done.
Defined.

(** X7. Merged with [merge_phases=True], a list of rank-two arrays, each with a
    row and a column, comes back as one rank-one array: the rows of every
    array are laid end to end, each row but the last of its array losing its
    last entry under [continuous_interval], and the arrays so flattened are
    laid end to end, each but the last losing its last entry under
    [continuous_phase]. With both flags off the result holds every entry of
    every array, array by array and row by row. *)
Theorem merge_blocks_row_major (d : nat) (ms : list np.matrix) (c ci : bool) :
  ms ≠ [] → Forall (λ m, np.wf (np.Nd2 m)) ms → Forall nonempty_block ms →
  concatenate_optimization_variables (S (S d)) (PList (block <$> ms)) c ci true
  = Ok (vector (merge1 c ((λ m, merge1 ci (np.rows m)) <$> ms)))
  ∧ concatenate_optimization_variables (S (S d)) (PList (block <$> ms)) false false true
    = Ok (vector (concat ((λ m, concat (np.rows m)) <$> ms))).
Proof.
  intros Hne Hwf Hok. rewrite !cov_blocks_ok //. split; [done|].
  unfold merge1 at 1. rewrite trim_false. do 3 f_equal.
  apply list_fmap_ext. intros _ m _. unfold merge1. by rewrite trim_false.
Qed.

Lemma merge_blocks_row_major_witness :
  concatenate_optimization_variables 2
    (PList [block (np.Mat 2 [[1; 2]; [2; 3]]); block (np.Mat 3 [[3; 4; 5]])])
    false false true
  = Ok (vector [1; 2; 2; 3; 3; 4; 5]).
Proof.
  apply (merge_blocks_row_major 0 [np.Mat 2 [[1; 2]; [2; 3]]; np.Mat 3 [[3; 4; 5]]]
           true true).
  - done.
  - repeat constructor.
  - repeat constructor; done.
Defined.

(** X8. Inputs that carry no block. An empty list makes both routines raise
    [IndexError]. A list that starts with a numpy scalar, and likewise a bare
    rank-one array, makes [concatenate_optimization_variables] return [None]:
    no error is raised and no data comes back, whatever the flags are. *)
Theorem merge_without_blocks (d : nat) (c ci mp : bool) :
  concatenate_optimization_variables (S d) (PList []) c ci mp = Raise IndexError
  ∧ concatenate_optimization_variables_dict (PList []) c = Raise IndexError
  ∧ (∀ z rest, concatenate_optimization_variables (S d) (PList (PNum z :: rest)) c ci mp
               = Ok PNone)
  ∧ (∀ z l, concatenate_optimization_variables (S d) (vector (z :: l)) c ci mp = Ok PNone).
Proof. by split_and!. Qed.

End merges_more.

(** ** The dictionary merge: idempotence, the keys it reads, widths *)

Section dict_more.
Import utils.

Lemma for_fold_ext_in {A B} (f g : A → B → res A) (acc : A) (l : list B) :
  (∀ a x, x ∈ l → f a x = g a x) → for_fold f acc l = for_fold g acc l.
Proof.
  revert acc. induction l as [|x l IH]; intros acc Hfg; [done|].
  simpl. rewrite Hfg; [by left|]. destruct (g acc x); simpl; [|done..].
  apply IH. intros a' y Hy. apply Hfg. by right.
Qed.

Lemma for_fold_inv {A B} (I : A → Prop) (body : A → B → res A) (l : list B) (acc r : A) :
  (∀ a x a', I a → body a x = Ok a' → I a') →
  I acc → for_fold body acc l = Ok r → I r.
Proof.
  intros Hstep HI Hfold.
  by apply (for_fold_count (λ _, I) body l 0 acc r).
Qed.

Lemma dict_set_fresh (d : list (string * pyval)) (k : string) (v : pyval) :
  k ∉ keys d → dict_set d k v = d ++ [(k, v)].
Proof.
  unfold keys. induction d as [|[k0 w] d IH]; intros Hk; [done|].
  simpl in *. apply not_elem_of_cons in Hk as [Hne Hk].
  rewrite decide_False; [done|]. by rewrite IH.
Qed.

Lemma dict_set_NoDup (d : list (string * pyval)) (k : string) (v : pyval) :
  NoDup (keys d) → NoDup (keys (dict_set d k v)).
Proof.
  unfold keys. induction d as [|[k0 w] d IH]; intros Hnd; simpl.
  - repeat constructor. set_solver.
  - apply NoDup_cons in Hnd as [Hk0 Hnd]. destruct (decide (k0 = k)) as [->|Hne]; simpl.
    + by constructor.
    + constructor; [|by apply IH].
      intros Hin. apply (keys_dict_set d k k0 v) in Hin as [?|?]; done.
Qed.

Lemma dict_get_Some_keys (d : list (string * pyval)) (k : string) (v : pyval) :
  dict_get d k = Some v → k ∈ keys d.
Proof.
  unfold keys. induction d as [|[k0 w] d IH]; [done|]. simpl.
  destruct (decide (k0 = k)) as [->|Hne]; [intros _; by left|].
  intros Hd. right. by apply IH.
Qed.

Lemma dict_get_app_fresh (d1 d2 : list (string * pyval)) (k : string) :
  k ∉ keys d1 → dict_get (d1 ++ d2) k = dict_get d2 k.
Proof.
  unfold keys. induction d1 as [|[k0 w] d1 IH]; intros Hk; [done|].
  simpl in *. apply not_elem_of_cons in Hk as [Hne Hk].
  rewrite decide_False; [done|]. by apply IH.
Qed.

Lemma zip_with_app_nil {A} (rows : list (list A)) :
  zip_with app rows (replicate (length rows) []) = rows.
Proof.
  induction rows as [|r rows IH]; [done|]. simpl. by rewrite app_nil_r IH.
Qed.

Lemma hstack_single (a : np.ndarray) : hstack [PArr a] = Ok (PArr a).
Proof.
  destruct a as [d|[w rows]]; unfold hstack; simpl.
  - by rewrite app_nil_r.
  - rewrite decide_True //. simpl. unfold np.hcat. simpl.
    by rewrite Nat.add_0_r zip_with_app_nil.
Qed.

Lemma hstack_is_array (tup : list pyval) (v : pyval) :
  hstack tup = Ok v → ∃ a, v = PArr a.
Proof.
  unfold hstack. destruct (mapM atleast_1d tup) as [[|[d|m0] arrs]| |]; simpl; [done| | |done..].
  - destruct (mapM as_rank1 arrs); simpl; [|done..]. intros [= <-]. by eexists.
  - destruct (decide _); simpl; [|done].
    destruct (mapM (as_rank2 _) arrs); simpl; [|done..]. intros [= <-]. by eexists.
Qed.

Lemma merge_key_is_array (c : bool) (variable : list pyval) (k : string) (v : pyval) :
  merge_key c variable k = Ok v → ∃ a, v = PArr a.
Proof.
  unfold merge_key, merge_columns.
  destruct (mapM _ variable) as [column| |]; simpl; [|done..].
  destruct (mapM _ (enumerate 0 column)) as [final_tuple| |]; simpl; [|done..].
  apply hstack_is_array.
Qed.

Lemma merge_key_single (c : bool) (d : list (string * pyval)) (k : string) (a : np.ndarray) :
  dict_get d k = Some (PArr a) → merge_key c [PDict d] k = Ok (PArr a).
Proof.
  intros Hk. unfold merge_key, merge_columns. simpl. rewrite Hk. simpl.
  apply hstack_single.
Qed.

(** The values of a dictionary are arrays, and no key occurs twice. *)
Local Abbreviation merged_dict d :=
  (NoDup (keys d) ∧ Forall (λ kv : string * pyval, ∃ a, kv.2 = PArr a) d).

Lemma merged_dict_set (d : list (string * pyval)) (k : string) (a : np.ndarray) :
  merged_dict d → merged_dict (dict_set d k (PArr a)).
Proof.
  intros [Hnd Harr]. split; [by apply dict_set_NoDup|].
  clear Hnd. induction d as [|[k0 w] d IH]; simpl.
  - repeat constructor. by eexists.
  - apply Forall_cons in Harr as [Hw Harr].
    destruct (decide (k0 = k)); constructor; simpl; eauto.
Qed.

Lemma refold_merged (c : bool) (D acc d : list (string * pyval)) :
  NoDup (keys (acc ++ d)) →
  (∀ k v, (k, v) ∈ d → ∃ a, v = PArr a ∧ dict_get D k = Some v) →
  for_fold (λ acc key, merged ← merge_key c [PDict D] key; Ok (dict_set acc key merged))
           acc (keys d)
  = Ok (acc ++ d).
Proof.
  revert acc. induction d as [|[k v] d IH]; intros acc Hnd Hd.
  - by rewrite app_nil_r.
  - destruct (Hd k v) as (a & -> & Hk); [by left|].
    unfold keys in *. simpl. rewrite (merge_key_single c D k a Hk). simpl.
    rewrite fmap_app in Hnd. simpl in Hnd.
    apply NoDup_app in Hnd as (Hacc & Hdisj & Hnd').
    rewrite dict_set_fresh.
    { intros Hin. apply (Hdisj k Hin). by left. }
    rewrite (IH (acc ++ [(k, PArr a)])).
    + rewrite -app_assoc fmap_app. simpl. apply NoDup_app. split_and!; [done| |done].
      intros k' Hk'. by apply Hdisj.
    + intros k' v' Hin. apply Hd. by right.
    + by rewrite -app_assoc.
Qed.

Lemma dict_get_NoDup (d : list (string * pyval)) (k : string) (v : pyval) :
  NoDup (keys d) → (k, v) ∈ d → dict_get d k = Some v.
Proof.
  unfold keys. induction d as [|[k0 w] d IH]; intros Hnd Hin.
  - by apply elem_of_nil in Hin.
  - simpl in *. apply NoDup_cons in Hnd as [Hk0 Hnd].
    apply elem_of_cons in Hin as [[= -> ->]|Hin]; [by rewrite decide_True|].
    destruct (decide (k0 = k)) as [->|Hne]; [|by apply IH].
    destruct Hk0. apply list_elem_of_fmap. by exists (k, v).
Qed.

Lemma dict_merge_merged (d0 : list (string * pyval)) (rest : list pyval) (c : bool)
    (r : pyval) :
  concatenate_optimization_variables_dict (PList (PDict d0 :: rest)) c = Ok r →
  ∃ d, r = PList [PDict d] ∧ merged_dict d.
Proof.
  rewrite dict_unfold. intros Hr.
  destruct (for_fold _ _ _) as [d| |] eqn:Hd; simpl in Hr; [|done..].
  injection Hr as <-. exists d. split; [done|].
  revert Hd. apply (for_fold_inv (λ d, merged_dict d)).
  - intros acc key acc' Hacc Hbody.
    destruct (merge_key c (PDict d0 :: rest) key) as [m| |] eqn:Hm; simpl in Hbody; [|done..].
    injection Hbody as <-. destruct (merge_key_is_array _ _ _ _ Hm) as [a ->].
    by apply merged_dict_set.
  - split; [constructor|constructor].
Qed.

(** X9. The dictionary merge is idempotent: applied to the list it returned,
    with either value of [continuous], it returns that list again. *)
Theorem dict_merge_idempotent (variable r : pyval) (c c' : bool) :
  concatenate_optimization_variables_dict variable c = Ok r → r ≠ PNone →
  concatenate_optimization_variables_dict r c' = Ok r.
Proof.
  intros Hr Hnone.
  destruct variable as [| | |[|[| | | |d0] rest]|]; try done;
    try (simpl in Hr; by injection Hr as <-).
  destruct (dict_merge_merged d0 rest c r Hr) as (d & -> & Hnd & Harr).
  rewrite dict_unfold (refold_merged c' d [] d); [done| |done].
  intros k v Hin. destruct (proj1 (Forall_forall _ _) Harr (k, v) Hin) as [a Ha].
  simpl in Ha. subst v. exists a. split; [done|]. by apply dict_get_NoDup.
Qed.

Lemma dict_merge_idempotent_witness :
  concatenate_optimization_variables_dict
    (PList [PDict [("q", block (np.Mat 3 [[1; 2; 3]]))]]) false
  = Ok (PList [PDict [("q", block (np.Mat 3 [[1; 2; 3]]))]]).
Proof.
  apply (dict_merge_idempotent
           (PList [PDict [("q", block (np.Mat 2 [[1; 2]])) ];
                   PDict [("q", block (np.Mat 2 [[2; 3]])) ]])
           _ true false).
  - reflexivity.
  - done.
Defined.

Lemma mapM_res_ext_Forall2 {A B} (f : A → res B) (l l' : list A) :
  Forall2 (λ x x', f x = f x') l l' → mapM f l = mapM f l'.
Proof.
  induction 1 as [|x x' l l' Hx _ IH]; [done|].
  by rewrite !mapM_res_cons Hx IH.
Qed.

Lemma mapM_res_Ok_inv {A B} (f : A → res B) (l : list A) (k : list B) (x : A) :
  mapM f l = Ok k → x ∈ l → ∃ y, f x = Ok y.
Proof.
  revert k. induction l as [|x0 l IH]; intros k Hk Hx; [by apply elem_of_nil in Hx|].
  rewrite mapM_res_cons in Hk.
  destruct (f x0) as [y0| |] eqn:Hy0; simpl in Hk; [|done..].
  destruct (mapM f l) as [k'| |]; simpl in Hk; [|done..].
  apply elem_of_cons in Hx as [->|Hx]; [by eexists|]. by eapply IH.
Qed.

(** X10. The dictionary merge reads the later dictionaries under the keys of
    the first one only. It returns a result only if every later dictionary
    has each of these keys, and whatever else the later dictionaries hold
    has no influence on the outcome. *)
Theorem dict_merge_reads_first_keys (d0 : list (string * pyval)) (rest : list pyval)
    (c : bool) :
  (∀ r, concatenate_optimization_variables_dict (PList (PDict d0 :: rest)) c = Ok r →
        ∀ k d, k ∈ keys d0 → PDict d ∈ rest → k ∈ keys d)
  ∧ (∀ rest',
       Forall2 (λ v v', ∀ k, k ∈ keys d0 → getitem_key v k = getitem_key v' k) rest rest' →
       concatenate_optimization_variables_dict (PList (PDict d0 :: rest)) c
       = concatenate_optimization_variables_dict (PList (PDict d0 :: rest')) c).
Proof.
  split.
  - intros r Hr k d Hk Hd.
    destruct (dict_merge_result d0 rest c r Hr) as (dr & _ & _ & Hmerge).
    destruct (Hmerge k Hk) as (m & Hm & _). unfold merge_key in Hm.
    destruct (mapM _ (PDict d0 :: rest)) as [column| |] eqn:Hcol; simpl in Hm; [|done..].
    destruct (mapM_res_Ok_inv _ _ _ (PDict d) Hcol) as [y Hy]; [by right|].
    simpl in Hy. destruct (dict_get d k) eqn:Hget; [|done].
    by eapply dict_get_Some_keys.
  - intros rest' Hsame. rewrite !dict_unfold. f_equal.
    apply for_fold_ext_in. intros acc k Hk. unfold merge_key.
    rewrite (mapM_res_ext_Forall2 (λ v_i, getitem_key v_i k) (PDict d0 :: rest)
               (PDict d0 :: rest')); [|done].
    constructor; [done|]. eapply Forall2_impl; [exact Hsame|]. intros v v' Hv. by apply Hv.
Qed.

Lemma dict_merge_reads_first_keys_witness :
  concatenate_optimization_variables_dict
    (PList [PDict [("q", block (np.Mat 2 [[1; 2]]))];
            PDict [("q", block (np.Mat 2 [[2; 3]])); ("tau", PNone)]]) true
  = concatenate_optimization_variables_dict
      (PList [PDict [("q", block (np.Mat 2 [[1; 2]]))];
              PDict [("q", block (np.Mat 2 [[2; 3]]))]]) true.
Proof.
  apply (dict_merge_reads_first_keys [("q", block (np.Mat 2 [[1; 2]]))]
           [PDict [("q", block (np.Mat 2 [[2; 3]])); ("tau", PNone)]] true).
  repeat constructor. intros k Hk. unfold keys in Hk. simpl in Hk.
  apply list_elem_of_singleton in Hk as ->. reflexivity.
Defined.

Lemma hcat_shape (n : nat) (ms : list np.matrix) :
  Forall (λ m, length (np.rows m) = n ∧ np.wf (np.Nd2 m)) ms →
  np.ncols (np.hcat n ms) = sum_list (np.ncols <$> ms)
  ∧ length (np.rows (np.hcat n ms)) = n
  ∧ np.wf (np.Nd2 (np.hcat n ms)).
Proof.
  unfold np.hcat. simpl. induction 1 as [|m ms [Hm Hwf] _ (IHc & IHn & IHwf)]; simpl.
  - split_and!; [done|by rewrite length_replicate|].
    apply Forall_replicate. done.
  - rewrite IHc. split_and!; [done| |].
    + rewrite length_zip_with. simpl in IHn. lia.
    + simpl in *. apply Forall_forall. intros r Hr.
      apply list_elem_of_lookup in Hr as [i Hi].
      apply lookup_zip_with_Some in Hi as (r1 & r2 & -> & H1 & H2).
      rewrite length_app.
      rewrite (proj1 (Forall_forall _ _) Hwf r1); [by eapply list_elem_of_lookup_2|].
      rewrite (proj1 (Forall_forall _ _) IHwf r2); [by eapply list_elem_of_lookup_2|].
      by rewrite IHc.
Qed.

Lemma trim_cols_shape (c : bool) (n : nat) (ms : list np.matrix) :
  Forall (λ m, length (np.rows m) = n ∧ np.wf (np.Nd2 m) ∧ np.ncols m ≠ 0%nat) ms →
  Forall (λ m, length (np.rows m) = n ∧ np.wf (np.Nd2 m)) (trim_cols c ms)
  ∧ (sum_list (np.ncols <$> trim_cols c ms) + (if c then length ms - 1 else 0))%nat
    = sum_list (np.ncols <$> ms).
Proof.
  induction ms as [|m [|m' ms] IH]; intros HF.
  - split; [constructor|]. destruct c; done.
  - apply Forall_inv in HF as (Hn & Hwf & _). split; [by repeat constructor|].
    simpl. destruct c; lia.
  - apply Forall_cons in HF as [(Hn & Hwf & Hc) HF]. destruct (IH HF) as [IH1 IH2].
    change (trim_cols c (m :: m' :: ms)) with
      ((if c then np.drop_last_col m else m) :: trim_cols c (m' :: ms)).
    split.
    + constructor; [|done]. destruct c; [|done]. simpl. rewrite length_fmap.
      split; [done|]. simpl in Hwf. apply Forall_fmap. eapply Forall_impl; [exact Hwf|].
      intros r Hr. simpl. unfold np.drop_last.
      destruct r as [|x r] using rev_ind.
      * simpl in Hr. lia.
      * rewrite removelast_last. rewrite length_app /= in Hr. lia.
    + rewrite (fmap_cons np.ncols m) (fmap_cons np.ncols (if c then _ else _)).
      change (sum_list (?a :: ?l)) with (a + sum_list l)%nat.
      destruct c; simpl in *; lia.
Qed.

(** X11. In the dictionary merge the width law holds. When the blocks filed
    under a key are rank-two arrays of [n] rows and of at least one column
    each, the merged block has [n] rows, and its number of columns is the sum
    of the widths, less one per junction when [continuous] is set. *)
Theorem dict_merge_width (d0 : list (string * pyval)) (rest : list pyval) (c : bool)
    (k : string) (n : nat) (ms : list np.matrix) (r : pyval) :
  mapM (λ v_i, getitem_key v_i k) (PDict d0 :: rest) = Ok (block <$> ms) →
  Forall (λ m, length (np.rows m) = n ∧ np.wf (np.Nd2 m) ∧ np.ncols m ≠ 0%nat) ms →
  concatenate_optimization_variables_dict (PList (PDict d0 :: rest)) c = Ok r →
  ∃ d M, r = PList [PDict d] ∧ dict_get d k = Some (block M)
         ∧ length (np.rows M) = n ∧ np.wf (np.Nd2 M)
         ∧ (np.ncols M + (if c then length ms - 1 else 0))%nat = sum_list (np.ncols <$> ms).
Proof.
  intros Hcol Hms Hr.
  destruct (dict_merge_result d0 rest c r Hr) as (d & -> & _ & Hmerge).
  assert (Hk : k ∈ keys d0).
  { rewrite mapM_res_cons in Hcol. simpl in Hcol.
    destruct (dict_get d0 k) eqn:Hget; [|done]. by eapply dict_get_Some_keys. }
  destruct (Hmerge k Hk) as (m & Hm & Hget).
  assert (Hne : ms ≠ []).
  { intros ->. by apply mapM_res_length in Hcol. }
  unfold merge_key in Hm. rewrite Hcol /= in Hm.
  rewrite (merge_columns_blocks c n ms Hne) in Hm.
  { eapply Forall_impl; [exact Hms|]. by intros ? [? _]. }
  injection Hm as <-.
  destruct (trim_cols_shape c n ms Hms) as [Hshape Hsum].
  destruct (hcat_shape n (trim_cols c ms) Hshape) as (Hc & Hn & Hwf).
  exists d, (np.hcat n (trim_cols c ms)). split_and!; [done..|].
  by rewrite Hc.
Qed.

Lemma dict_merge_width_witness :
  ∃ d M,
    concatenate_optimization_variables_dict
      (PList [PDict [("q", block (np.Mat 4 [[1; 2; 3; 4]; [5; 6; 7; 8]]))];
              PDict [("q", block (np.Mat 5 [[4; 1; 1; 1; 2]; [8; 1; 1; 1; 3]]))];
              PDict [("q", block (np.Mat 6 [[2; 0; 0; 0; 0; 0]; [3; 0; 0; 0; 0; 0]]))]])
      true = Ok (PList [PDict d])
    ∧ dict_get d "q" = Some (block M) ∧ np.ncols M = 13%nat.
Proof.
  destruct (dict_merge_width
              [("q", block (np.Mat 4 [[1; 2; 3; 4]; [5; 6; 7; 8]]))]
              [PDict [("q", block (np.Mat 5 [[4; 1; 1; 1; 2]; [8; 1; 1; 1; 3]]))];
               PDict [("q", block (np.Mat 6 [[2; 0; 0; 0; 0; 0]; [3; 0; 0; 0; 0; 0]]))]]
              true "q" 2
              [np.Mat 4 [[1; 2; 3; 4]; [5; 6; 7; 8]];
               np.Mat 5 [[4; 1; 1; 1; 2]; [8; 1; 1; 1; 3]];
               np.Mat 6 [[2; 0; 0; 0; 0; 0]; [3; 0; 0; 0; 0; 0]]]
              (PList [PDict [("q", block (np.Mat 13
                                [[1; 2; 3; 4; 1; 1; 1; 2; 0; 0; 0; 0; 0];
                                 [5; 6; 7; 8; 1; 1; 1; 3; 0; 0; 0; 0; 0]]))]])
              eq_refl)
    as (d & M & Hr & Hget & _ & _ & Hw).
  - repeat constructor; simpl; lia.
  - reflexivity.
  - exists d, M. split_and!; [by rewrite -Hr|done|]. simpl in Hw. lia.
Defined.

End dict_more.

(** ** The configuration routines: labels, defaults, muscles, contacts *)

Section problem_more.
Import Problem.

Lemma append_empty_r (s : string) : s +:+ "" = s.
Proof.
  induction s as [|a s IH]; [done|].
  change (String a (s +:+ "") = String a s). by rewrite IH.
Qed.

Lemma fmap_no_suffix (prefix : string) (l : list string) :
  (λ n, prefix +:+ n +:+ "") <$> l = (λ n, prefix +:+ n) <$> l.
Proof. apply list_fmap_ext. intros _ n _. by rewrite append_empty_r. Qed.

(** Stacking one more scalar symbol under a column of symbols. *)
Lemma column_snoc (ls : list string) (name : string) :
  casadi.vertcat [casadi.column ls; casadi.sym name 1 1]
  = Ok (casadi.column (ls ++ [name])).
Proof.
  destruct ls as [|l ls]; [reflexivity|].
  change (casadi.sym name 1 1) with (casadi.mkMX 1 [[name]]).
  unfold casadi.vertcat. cbn [filter list_filter].
  destruct (decide (casadi.is_empty (casadi.column (l :: ls)) = false)) as [_|H];
    [|by destruct H].
  destruct (decide (casadi.is_empty (casadi.mkMX 1 [[name]]) = false)) as [_|H];
    [|by destruct H].
  cbn [forallb casadi.size2 casadi.column].
  rewrite bool_decide_eq_true_2 //. cbn [andb fmap list_fmap casadi.entries concat].
  change (casadi.column ((l :: ls) ++ [name]))
    with (casadi.mkMX 1 ((λ l0 : string, [l0]) <$> ((l :: ls) ++ [name]))).
  change (casadi.entries (casadi.column (l :: ls)))
    with ((λ l0 : string, [l0]) <$> (l :: ls)).
  by rewrite fmap_app app_nil_r.
Qed.

Lemma muscle_column_closed (label : string → string) (names ls : list string) :
  muscle_column label names (casadi.column ls)
  = Ok (casadi.column (ls ++ (label <$> names))).
Proof.
  unfold muscle_column. revert ls. induction names as [|n names IH]; intros ls.
  - simpl. by rewrite app_nil_r.
  - cbn [utils.for_fold]. rewrite column_snoc. cbn [mbind res_bind].
    by rewrite IH fmap_cons -app_assoc.
Qed.

Lemma reduced_column_closed (prefix suffix : string) (dof_names : list string)
    (map_idx : list (option Z)) (ls : list string) :
  reduced_column prefix suffix dof_names map_idx (casadi.column ls)
  = (names ← mapM (dof_name dof_names) map_idx;
     Ok (casadi.column (ls ++ ((λ n, prefix +:+ n +:+ suffix) <$> names)))).
Proof.
  unfold reduced_column. revert ls. induction map_idx as [|i l IH]; intros ls.
  - simpl. by rewrite app_nil_r.
  - cbn [utils.for_fold]. rewrite mapM_res_cons.
    destruct (dof_name dof_names i) as [name| |]; cbn [mbind res_bind]; [|done..].
    rewrite column_snoc. cbn [mbind res_bind]. rewrite IH.
    destruct (mapM _ l); cbn [mbind res_bind]; [|done..].
    by rewrite fmap_cons -app_assoc.
Qed.

Lemma full_column_closed_from (prefix : string) (dof_names : list string)
    (l : list (option Z)) (k : nat) (ls : list string) :
  utils.for_fold (λ (q_mx : casadi.MX) (iv : nat * option Z),
      name ← dof_name dof_names (Some (Z.of_nat iv.1));
      casadi.vertcat [q_mx; casadi.sym (prefix +:+ name) 1 1])
    (casadi.column ls) (enumerate k l)
  = (names ← mapM (dof_name dof_names) ((λ i, Some (Z.of_nat i)) <$> seq k (length l));
     Ok (casadi.column (ls ++ ((λ n, prefix +:+ n) <$> names)))).
Proof.
  revert k ls. induction l as [|x l IH]; intros k ls.
  - simpl. by rewrite app_nil_r.
  - cbn [utils.for_fold enumerate length seq fst]. rewrite fmap_cons mapM_res_cons.
    destruct (dof_name dof_names (Some (Z.of_nat k))) as [name| |];
      cbn [mbind res_bind]; [|done..].
    rewrite column_snoc. cbn [mbind res_bind]. rewrite IH.
    destruct (mapM _ _); cbn [mbind res_bind]; [|done..].
    by rewrite fmap_cons -app_assoc.
Qed.

Lemma full_column_closed (prefix : string) (dof_names : list string)
    (map_idx : list (option Z)) :
  full_column prefix dof_names map_idx
  = (names ← mapM (dof_name dof_names) (BiMapping.range (length map_idx));
     Ok (casadi.column ((λ n, prefix +:+ n) <$> names))).
Proof. apply (full_column_closed_from prefix dof_names map_idx 0 []). Qed.

Lemma make_legend_closed (prefix : string) (dof_names : list string)
    (map_idx : list (option Z)) :
  make_legend prefix dof_names map_idx
  = (names ← mapM (dof_name dof_names) map_idx; Ok ((λ n, prefix +:+ n) <$> names)).
Proof.
  unfold make_legend. induction map_idx as [|i l IH]; [done|].
  rewrite !mapM_res_cons IH.
  destruct (dof_name dof_names i); cbn [mbind res_bind]; [|done..].
  destruct (mapM (dof_name dof_names) l); cbn [mbind res_bind]; done.
Qed.

Lemma enumerate_fmap_seq {A} (f : nat → A) (k n : nat) :
  enumerate k (f <$> seq k n) = (λ j, (j, f j)) <$> seq k n.
Proof.
  revert k. induction n as [|n IH]; intros k; [done|].
  cbn [seq]. rewrite !fmap_cons. cbn [enumerate]. by rewrite IH.
Qed.

Lemma replicate_fmap_seq {A} (x : A) (k n : nat) :
  replicate n x = (λ _, x) <$> seq k n.
Proof.
  revert k. induction n as [|n IH]; intros k; [done|].
  cbn [replicate seq]. by rewrite fmap_cons -IH.
Qed.

Lemma control_columns_closed (prefix : string) (dof_names : list string)
    (map_idx : list (option Z)) (n_col : nat) (names : list string) :
  mapM (dof_name dof_names) map_idx = Ok names →
  control_columns prefix dof_names map_idx n_col
  = Ok ((λ j, casadi.column ((λ n, prefix +:+ n +:+ "_" +:+ pretty j) <$> names))
          <$> seq 0 n_col).
Proof.
  unfold control_columns.
  set (lab := λ (j : nat) (n : string), prefix +:+ n +:+ "_" +:+ pretty j).
  rewrite (replicate_fmap_seq casadi.empty 0).
  change (λ _ : nat, casadi.empty) with (λ j : nat, casadi.column (lab j <$> [])).
  change (λ j, casadi.column ((λ n, prefix +:+ n +:+ "_" +:+ pretty j) <$> names))
    with (λ j, casadi.column (lab j <$> ([] ++ names))).
  generalize (@nil string) as done. revert names.
  induction map_idx as [|i l IH]; intros names done Hnames.
  - injection Hnames as <-. simpl. by rewrite app_nil_r.
  - rewrite mapM_res_cons in Hnames.
    destruct (dof_name dof_names i) as [name| |] eqn:Hi; simpl in Hnames; [|done..].
    destruct (mapM (dof_name dof_names) l) as [names'| |] eqn:Hl; simpl in Hnames; [|done..].
    injection Hnames as <-. cbn [utils.for_fold].
    rewrite enumerate_fmap_seq mapM_res_fmap.
    rewrite (mapM_res_ok _ (λ j, casadi.column (lab j <$> (done ++ [name])))).
    { intros j _. simpl. rewrite Hi. cbn [mbind res_bind].
      by rewrite column_snoc fmap_app. }
    cbn [mbind res_bind]. rewrite (IH names' (done ++ [name]) eq_refl).
    by rewrite -app_assoc.
Qed.

Lemma dof_name_is_Ok (dof_names : list string) (i : option Z) :
  (∃ name, dof_name dof_names i = Ok name)
  ↔ ∃ z, i = Some z ∧ - Z.of_nat (length dof_names) ≤ z < Z.of_nat (length dof_names).
Proof.
  unfold dof_name. destruct i as [z|]; [|split; [by intros [? ?]|by intros (? & ? & ?)]].
  set (n := Z.of_nat (length dof_names)).
  set (k := if bool_decide (z < 0) then z + n else z).
  assert (Hk : 0 ≤ k < n ↔ - n ≤ z < n).
  { unfold k. case_bool_decide; lia. }
  case_bool_decide as Hin.
  - destruct (lookup_lt_is_Some_2 dof_names (Z.to_nat k)) as [s Hs]; [lia|].
    rewrite Hs. split; [|by eexists]. intros _. exists z. split; [done|]. by apply Hk.
  - split; [by intros [? ?]|]. intros (z' & [= <-] & Hz). destruct Hin. by apply Hk.
Qed.

Lemma mapM_res_is_Ok {A B} (f : A → res B) (l : list A) :
  (∃ k, mapM f l = Ok k) ↔ Forall (λ x, ∃ y, f x = Ok y) l.
Proof.
  induction l as [|x l IH].
  - split; [constructor|by eexists].
  - rewrite mapM_res_cons Forall_cons -IH. split.
    + intros [k Hk]. destruct (f x) as [y| |]; simpl in Hk; [|done..].
      destruct (mapM f l) as [k'| |]; simpl in Hk; [|done..]. split; by eexists.
    + intros [[y ->] [k' ->]]. by eexists.
Qed.

Lemma dof_name_of_nat (dof_names : list string) (k : nat) (s : string) :
  dof_names !! k = Some s → dof_name dof_names (Some (Z.of_nat k)) = Ok s.
Proof.
  intros Hs. pose proof (lookup_lt_Some _ _ _ Hs) as Hk. unfold dof_name.
  rewrite (bool_decide_eq_false_2 (Z.of_nat k < 0)); [lia|].
  rewrite bool_decide_eq_true_2; [lia|]. by rewrite Nat2Z.id Hs.
Qed.

Lemma mapM_dof_name_range (dof_names : list string) (n : nat) :
  (n ≤ length dof_names)%nat →
  mapM (dof_name dof_names) (BiMapping.range n) = Ok (take n dof_names).
Proof.
  intros Hn. unfold BiMapping.range. rewrite mapM_res_fmap.
  assert (Hgen : ∀ k, (k + n ≤ length dof_names)%nat →
    mapM (dof_name dof_names ∘ (λ i, Some (Z.of_nat i))) (seq k n)
    = Ok (take n (drop k dof_names))).
  { clear Hn. induction n as [|n IH]; intros k Hk; [done|].
    cbn [seq]. rewrite mapM_res_cons.
    destruct (lookup_lt_is_Some_2 dof_names k) as [s Hs]; [lia|].
    cbn [compose]. rewrite (dof_name_of_nat _ _ _ Hs). cbn [mbind res_bind].
    rewrite IH; [lia|]. cbn [mbind res_bind].
    by rewrite (drop_S _ _ _ Hs). }
  rewrite (Hgen 0%nat); [lia|done].
Qed.

Lemma range_is_Ok (dof_names : list string) (n : nat) :
  (∃ k, mapM (dof_name dof_names) (BiMapping.range n) = Ok k) ↔ (n ≤ length dof_names)%nat.
Proof.
  split; [|intros Hn; rewrite mapM_dof_name_range //; by eexists].
  rewrite mapM_res_is_Ok. intros HF.
  destruct n as [|n]; [lia|].
  assert (Hin : Some (Z.of_nat n) ∈ BiMapping.range (S n)).
  { unfold BiMapping.range. apply list_elem_of_fmap. exists n. split; [done|].
    apply elem_of_seq. lia. }
  apply (proj1 (Forall_forall _ _) HF) in Hin.
  apply dof_name_is_Ok in Hin as (z & [= <-] & Hz). lia.
Qed.

Lemma configure_q_closed (nlp : NonLinearProgram) (m : BiMapping.t) :
  mapping nlp !! "q" = Some m →
  configure_q nlp
  = (names_f ← mapM (dof_name (nameDof nlp)) (Mapping.map_idx (BiMapping.to_first m));
     names_s ← mapM (dof_name (nameDof nlp))
                 (BiMapping.range (Mapping.len (BiMapping.to_second m)));
     Ok (nlp, mkPlaceholders [casadi.column ((λ name, "Q_" +:+ name) <$> names_f)]
                             (casadi.column ((λ name, "Q_" +:+ name) <$> names_s))
                             ((λ name, "q_" +:+ name) <$> names_f))).
Proof.
  intros Hm. unfold configure_q, default_mapping, get_mapping. rewrite Hm.
  cbn [mbind res_bind]. rewrite Hm. cbn [mbind res_bind].
  change casadi.empty with (casadi.column []).
  rewrite (reduced_column_closed "Q_" "" _ _ []) full_column_closed make_legend_closed.
  destruct (mapM _ (Mapping.map_idx _)) as [names_f| |]; cbn [mbind res_bind]; [|done..].
  unfold Mapping.len.
  destruct (mapM _ (BiMapping.range _)) as [names_s| |]; cbn [mbind res_bind]; [|done..].
  by rewrite fmap_no_suffix.
Qed.


(** X12. With a mapping on file for ["q"], when [configure_q] gets as far as
    registering its placeholders it has built: the reduced placeholder, a
    column with the symbol [Q_<name>] of the degree of freedom each entry of
    [to_first] names, in order; the full placeholder, the column of the
    symbols [Q_<name>] of the first [len(to_second)] degrees of freedom, the
    entries of [to_second] not being read; and the legend [q_<name>] along
    [to_first]. The names are looked up as Python indexes a sequence, a
    negative entry counting from the end: every entry of [to_first] is then
    an integer within [-n, n) and [to_second] has at most [n] entries, [n]
    being the number of degrees of freedom. *)
Theorem configure_q_labels (nlp nlp' : NonLinearProgram) (m : BiMapping.t)
    (ph : placeholders) :
  mapping nlp !! "q" = Some m →
  configure_q nlp = Ok (nlp', ph) →
  let n := Z.of_nat (length (nameDof nlp)) in
  ∃ names_f names_s,
    mapM (dof_name (nameDof nlp)) (Mapping.map_idx (BiMapping.to_first m)) = Ok names_f
    ∧ mapM (dof_name (nameDof nlp)) (BiMapping.range (Mapping.len (BiMapping.to_second m)))
      = Ok names_s
    ∧ reduced ph = [casadi.column ((λ name, "Q_" +:+ name) <$> names_f)]
    ∧ full ph = casadi.column ((λ name, "Q_" +:+ name) <$> names_s)
    ∧ legend ph = (λ name, "q_" +:+ name) <$> names_f
    ∧ Forall (λ i, ∃ z, i = Some z ∧ - n ≤ z < n) (Mapping.map_idx (BiMapping.to_first m))
    ∧ Z.of_nat (Mapping.len (BiMapping.to_second m)) ≤ n.
Proof.
  intros Hm Hcfg n. rewrite (configure_q_closed nlp m Hm) in Hcfg.
  destruct (mapM _ (Mapping.map_idx _)) as [names_f| |] eqn:Hf;
    cbn [mbind res_bind] in Hcfg; [|done..].
  destruct (mapM _ (BiMapping.range _)) as [names_s| |] eqn:Hs;
    cbn [mbind res_bind] in Hcfg; [|done..].
  injection Hcfg as <- <-. exists names_f, names_s. split_and!; [done..| |].
  - assert (HF : ∃ k, mapM (dof_name (nameDof nlp))
                        (Mapping.map_idx (BiMapping.to_first m)) = Ok k) by by eexists.
    apply mapM_res_is_Ok in HF. eapply Forall_impl; [exact HF|].
    intros i Hi. by apply dof_name_is_Ok.
  - unfold n. apply Nat2Z.inj_le, range_is_Ok. by eexists.
Qed.

Lemma configure_q_labels_witness :
  ∃ names_f names_s,
    mapM (dof_name ["TransY"; "RotX"; "RotZ"]) [Some 0; Some (-1)] = Ok names_f
    ∧ mapM (dof_name ["TransY"; "RotX"; "RotZ"]) (BiMapping.range 3) = Ok names_s
    ∧ names_f = ["TransY"; "RotZ"] ∧ names_s = ["TransY"; "RotX"; "RotZ"].
Proof.
  edestruct (configure_q_labels
               (mkNlp ["TransY"; "RotX"; "RotZ"] 3 3 3 1
                  (<["q" := BiMapping.BiMapping (Mapping.Mapping [Some 5; None; Some 0])
                                                (Mapping.Mapping [Some 0; Some (-1)])]> ∅)
                  0 0 0 ∅ None))
    as (names_f & names_s & Hf & Hs & _); [reflexivity|reflexivity|].
  exists names_f, names_s. split_and!; [exact Hf|exact Hs| |].
  - vm_compute in Hf. by injection Hf as <-.
  - vm_compute in Hs. by injection Hs as <-.
Defined.







Lemma configure_tau_closed (nlp : NonLinearProgram) (m : BiMapping.t) :
  mapping nlp !! "tau" = Some m →
  configure_tau nlp
  = (all_tau ← control_columns "Tau_" (nameDof nlp)
                 (Mapping.map_idx (BiMapping.to_first m)) (control_type_value nlp);
     names_s ← mapM (dof_name (nameDof nlp))
                 (BiMapping.range (Mapping.len (BiMapping.to_second m)));
     names_f ← mapM (dof_name (nameDof nlp)) (Mapping.map_idx (BiMapping.to_first m));
     Ok (nlp, mkPlaceholders all_tau
                (casadi.column ((λ name, "Tau_" +:+ name) <$> names_s))
                ((λ name, "tau_" +:+ name) <$> names_f))).
Proof.
  intros Hm. unfold configure_tau, default_mapping, get_mapping. rewrite Hm.
  cbn [mbind res_bind]. rewrite Hm. cbn [mbind res_bind].
  destruct (control_columns _ _ _ _) as [all_tau| |]; cbn [mbind res_bind]; [|done..].
  rewrite full_column_closed. unfold Mapping.len.
  destruct (mapM _ (BiMapping.range _)) as [names_s| |]; cbn [mbind res_bind]; [|done..].
  rewrite make_legend_closed.
  by destruct (mapM _ (Mapping.map_idx _)) as [names_f| |]; cbn [mbind res_bind].
Qed.

(** X14. With a mapping on file for ["tau"], when [configure_tau] gets as far
    as registering its placeholders it has built one column per column of
    the control type, column [j] holding the symbol [Tau_<name>_<j>] for each
    entry of [to_first] in order; the full placeholder is the column of the
    symbols [Tau_<name>] of the first [len(to_second)] degrees of freedom,
    and the legend is [tau_<name>] along [to_first]. *)
Theorem configure_tau_columns (nlp nlp' : NonLinearProgram) (m : BiMapping.t)
    (ph : placeholders) :
  mapping nlp !! "tau" = Some m →
  configure_tau nlp = Ok (nlp', ph) →
  ∃ names_f names_s,
    mapM (dof_name (nameDof nlp)) (Mapping.map_idx (BiMapping.to_first m)) = Ok names_f
    ∧ mapM (dof_name (nameDof nlp)) (BiMapping.range (Mapping.len (BiMapping.to_second m)))
      = Ok names_s
    ∧ reduced ph
      = (λ j, casadi.column ((λ name, "Tau_" +:+ name +:+ "_" +:+ pretty j) <$> names_f))
          <$> seq 0 (control_type_value nlp)
    ∧ full ph = casadi.column ((λ name, "Tau_" +:+ name) <$> names_s)
    ∧ legend ph = (λ name, "tau_" +:+ name) <$> names_f.
Proof.
  intros Hm Hcfg. rewrite (configure_tau_closed nlp m Hm) in Hcfg.
  destruct (control_columns _ _ _ _) as [all_tau| |] eqn:Hcc;
    cbn [mbind res_bind] in Hcfg; [|done..].
  destruct (mapM _ (BiMapping.range _)) as [names_s| |] eqn:Hs;
    cbn [mbind res_bind] in Hcfg; [|done..].
  destruct (mapM _ (Mapping.map_idx _)) as [names_f| |] eqn:Hf;
    cbn [mbind res_bind] in Hcfg; [|done..].
  injection Hcfg as <- <-. exists names_f, names_s.
  rewrite (control_columns_closed "Tau_" _ _ _ names_f Hf) in Hcc. injection Hcc as <-.
  by split_and!.
Qed.

Lemma configure_tau_columns_witness :
  ∃ names_f names_s,
    mapM (dof_name ["TransY"; "RotX"]) [Some 1] = Ok names_f
    ∧ mapM (dof_name ["TransY"; "RotX"]) (BiMapping.range 2) = Ok names_s
    ∧ names_f = ["RotX"] ∧ names_s = ["TransY"; "RotX"].
Proof.
  edestruct (configure_tau_columns
               (mkNlp ["TransY"; "RotX"] 2 2 2 2
                  (<["tau" := BiMapping.BiMapping (Mapping.Mapping [None; Some 0])
                                                  (Mapping.Mapping [Some 1])]> ∅)
                  0 0 0 ∅ None))
    as (names_f & names_s & Hf & Hs & _); [reflexivity|reflexivity|].
  exists names_f, names_s. split_and!; [exact Hf|exact Hs| |].
  - vm_compute in Hf. by injection Hf as <-.
  - vm_compute in Hs. by injection Hs as <-.
Defined.

Lemma configure_muscles_closed (nlp : NonLinearProgram) (model : PhaseModel)
    (as_states as_controls : bool) :
  let idx := pretty (phase_idx model) in
  let column_of_muscles label := casadi.column (label <$> muscleNames model) in
  configure_muscles nlp model as_states as_controls
  = Ok (mkMusclePlaceholders
          (column_of_muscles (λ name, "Muscle_" +:+ name +:+ "_" +:+ idx))
          (if as_states
           then Some (column_of_muscles (λ name, "Muscle_" +:+ name +:+ "_activation_" +:+ idx))
           else None)
          (if as_controls
           then Some ((λ j, column_of_muscles
                              (λ name, "Muscle_" +:+ name +:+ "_excitation_" +:+ pretty j
                                         +:+ "_" +:+ idx))
                        <$> seq 0 (control_type_value nlp))
           else None)
          (if as_states then Some "muscles_states" else None)).
Proof.
  intros idx column_of_muscles. unfold configure_muscles. fold idx.
  change casadi.empty with (casadi.column []).
  rewrite (muscle_column_closed _ _ []). cbn [mbind res_bind app].
  assert (Hcols :
    mapM (λ jc : nat * casadi.MX,
            muscle_column
              (λ name, "Muscle_" +:+ name +:+ "_excitation_" +:+ pretty jc.1 +:+ "_" +:+ idx)
              (muscleNames model) jc.2)
         (enumerate 0 (replicate (control_type_value nlp) casadi.empty))
    = Ok ((λ j, column_of_muscles
                  (λ name, "Muscle_" +:+ name +:+ "_excitation_" +:+ pretty j +:+ "_" +:+ idx))
            <$> seq 0 (control_type_value nlp))).
  { rewrite (replicate_fmap_seq casadi.empty 0) enumerate_fmap_seq mapM_res_fmap.
    apply mapM_res_ok. intros j _. simpl.
    apply (muscle_column_closed _ _ []). }
  destruct as_states, as_controls; cbn [mbind res_bind];
    rewrite ?(muscle_column_closed _ _ []) ?Hcols; reflexivity.
Qed.

(** X16. When [configure_muscles] has built its placeholders: the full
    placeholder holds the symbol [Muscle_<name>_<phase>] of every muscle of
    the model, in order; when the muscles are states, [muscles] holds
    [Muscle_<name>_activation_<phase>] and the plot of the controls is
    combined with ["muscles_states"]; when they are controls, there is one
    column per column of the control type, column [j] holding
    [Muscle_<name>_excitation_<j>_<phase>]. *)
Theorem configure_muscles_labels (nlp : NonLinearProgram) (model : PhaseModel)
    (as_states as_controls : bool) (built : muscle_placeholders) :
  configure_muscles nlp model as_states as_controls = Ok built →
  let idx := pretty (phase_idx model) in
  let column_of_muscles label := casadi.column (label <$> muscleNames model) in
  muscles_mx built = column_of_muscles (λ name, "Muscle_" +:+ name +:+ "_" +:+ idx)
  ∧ muscles built
    = (if as_states
       then Some (column_of_muscles (λ name, "Muscle_" +:+ name +:+ "_activation_" +:+ idx))
       else None)
  ∧ all_muscles built
    = (if as_controls
       then Some ((λ j, column_of_muscles
                          (λ name, "Muscle_" +:+ name +:+ "_excitation_" +:+ pretty j
                                     +:+ "_" +:+ idx))
                    <$> seq 0 (control_type_value nlp))
       else None)
  ∧ combine built = (if as_states then Some "muscles_states" else None).
Proof.
  intros Hcfg idx column_of_muscles.
  rewrite (configure_muscles_closed nlp model as_states as_controls) in Hcfg.
  injection Hcfg as <-. by split_and!.
Qed.

Lemma configure_muscles_labels_witness :
  ∃ built,
    configure_muscles (mkNlp [] 0 0 0 2 ∅ 0 0 0 ∅ None)
      (mkPhaseModel 1 ["biceps"; "triceps"] [] None) true true = Ok built
    ∧ casadi.entries (muscles_mx built) = [["Muscle_biceps_1"]; ["Muscle_triceps_1"]]
    ∧ combine built = Some "muscles_states".
Proof.
  eexists. split; [reflexivity|].
  edestruct (configure_muscles_labels (mkNlp [] 0 0 0 2 ∅ 0 0 0 ∅ None)
               (mkPhaseModel 1 ["biceps"; "triceps"] [] None) true true)
    as (Hmx & _ & _ & Hcombine); [reflexivity|].
  split; [by rewrite Hmx|exact Hcombine].
Defined.

End problem_more.

(** ** [configure_contact]: the names of the contacts and the axes of a phase *)

Section contact.
Import Problem.

Local Abbreviation extend_names :=
  (λ (all_contact_names : list string) (elt : PhaseModel),
     all_contact_names
       ++ filter (λ name, name ∉ all_contact_names) (contactNames elt)).

Lemma extend_names_elem (acc : list string) (phases : list PhaseModel) (name : string) :
  name ∈ foldl extend_names acc phases
  ↔ name ∈ acc ∨ ∃ elt, elt ∈ phases ∧ name ∈ contactNames elt.
Proof.
  revert acc. induction phases as [|elt phases IH]; intros acc.
  - simpl. split; [by left|]. intros [?|(elt & Helt & _)]; [done|].
    by apply elem_of_nil in Helt.
  - cbn [foldl]. rewrite IH elem_of_app list_elem_of_filter. split.
    + intros [[?|[_ ?]]|(elt' & Helt' & Hn)].
      * by left.
      * right. exists elt. split; [by left|done].
      * right. exists elt'. split; [by right|done].
    + intros [?|(elt' & Helt' & Hn)]; [by left; left|].
      apply elem_of_cons in Helt' as [->|Helt'].
      * destruct (decide (name ∈ acc)); [by left; left|by left; right].
      * right. by exists elt'.
Qed.

Lemma extend_names_NoDup (acc : list string) (phases : list PhaseModel) :
  NoDup acc → Forall (λ elt, NoDup (contactNames elt)) phases →
  NoDup (foldl extend_names acc phases).
Proof.
  revert acc. induction phases as [|elt phases IH]; intros acc Hacc HF; [done|].
  apply Forall_cons in HF as [Helt HF]. cbn [foldl]. apply IH; [|done].
  apply NoDup_app. split_and!; [done| |by apply NoDup_filter].
  intros name Hin [Hnot _]%list_elem_of_filter. done.
Qed.

Lemma extend_names_prefix (acc : list string) (phases : list PhaseModel) :
  acc `prefix_of` foldl extend_names acc phases.
Proof.
  revert acc. induction phases as [|elt phases IH]; intros acc; [done|].
  cbn [foldl]. etrans; [|apply IH]. by apply prefix_app_r.
Qed.

(** X17. The legend [configure_contact] collects over the phases of the
    program holds exactly the contact names of the models; it lists every
    name once when no model lists a name twice; the names found in the first
    phases keep their places when further phases follow; and within the
    names of one phase nothing is removed, the test being made against the
    list as it stood before that phase. *)
Theorem all_contact_names_collects (ocp_nlp : list PhaseModel) :
  (∀ name, name ∈ all_contact_names ocp_nlp
           ↔ ∃ elt, elt ∈ ocp_nlp ∧ name ∈ contactNames elt)
  ∧ (Forall (λ elt, NoDup (contactNames elt)) ocp_nlp → NoDup (all_contact_names ocp_nlp))
  ∧ (∀ more, all_contact_names ocp_nlp `prefix_of` all_contact_names (ocp_nlp ++ more))
  ∧ (∀ elt, all_contact_names [elt] = contactNames elt).
Proof.
  unfold all_contact_names. split_and!.
  - intros name. rewrite extend_names_elem. split; [|by right].
    intros [Hnil|?]; [by apply elem_of_nil in Hnil|done].
  - apply extend_names_NoDup. constructor.
  - intros more. rewrite foldl_app. apply extend_names_prefix.
  - intros elt. cbn [foldl app]. induction (contactNames elt) as [|c l IH]; [done|].
    rewrite filter_cons_True; [apply not_elem_of_nil|]. by rewrite IH.
Qed.

Lemma all_contact_names_collects_witness :
  NoDup (all_contact_names [mkPhaseModel 0 [] ["heel"; "toe"] None;
                            mkPhaseModel 1 [] ["toe"; "hand"] None])
  ∧ all_contact_names [mkPhaseModel 0 [] ["heel"; "toe"] None;
                       mkPhaseModel 1 [] ["toe"; "hand"] None]
    = ["heel"; "toe"; "hand"].
Proof.
  split; [|reflexivity].
  apply (all_contact_names_collects [mkPhaseModel 0 [] ["heel"; "toe"] None;
                                     mkPhaseModel 1 [] ["toe"; "hand"] None]).
  repeat constructor; set_solver.
Defined.

Local Abbreviation axes_from k all in_phase :=
  (omap (λ ic : nat * string,
           if decide (ic.2 ∈ in_phase) then Some (Some (Z.of_nat ic.1)) else None)
        (enumerate k all)).

Lemma axes_elem (all in_phase : list string) (k : nat) (o : option Z) :
  o ∈ axes_from k all in_phase
  ↔ ∃ i c, o = Some (Z.of_nat i) ∧ (k ≤ i)%nat ∧ all !! (i - k)%nat = Some c ∧ c ∈ in_phase.
Proof.
  rewrite list_elem_of_omap. split.
  - intros ([i c] & Hin & Hc). apply elem_of_enumerate in Hin as [Hk Hi].
    simpl in Hc. destruct (decide (c ∈ in_phase)); [|done]. injection Hc as <-.
    by exists i, c.
  - intros (i & c & -> & Hk & Hi & Hc). exists (i, c). split.
    + by apply elem_of_enumerate.
    + simpl. by rewrite decide_True.
Qed.

Lemma axes_increasing (all in_phase : list string) (k j1 j2 : nat) (o1 o2 : option Z) :
  (j1 < j2)%nat →
  axes_from k all in_phase !! j1 = Some o1 → axes_from k all in_phase !! j2 = Some o2 →
  ∃ i1 i2, o1 = Some (Z.of_nat i1) ∧ o2 = Some (Z.of_nat i2) ∧ (k ≤ i1 < i2)%nat.
Proof.
  revert k j1 j2. induction all as [|c all IH]; intros k j1 j2 Hlt H1 H2; [done|].
  cbn [enumerate omap list_omap fst snd] in H1, H2.
  assert (Hnext : ∀ j1' j2', (j1' < j2')%nat →
            axes_from (S k) all in_phase !! j1' = Some o1 →
            axes_from (S k) all in_phase !! j2' = Some o2 →
            ∃ i1 i2, o1 = Some (Z.of_nat i1) ∧ o2 = Some (Z.of_nat i2) ∧ (k ≤ i1 < i2)%nat).
  { intros j1' j2' Hlt' H1' H2'.
    destruct (IH (S k) j1' j2' Hlt' H1' H2') as (i1 & i2 & -> & -> & Hi).
    exists i1, i2. split_and!; [done..|lia|lia]. }
  destruct (decide (c ∈ in_phase)); [|by eapply Hnext].
  destruct j2 as [|j2]; [lia|]. destruct j1 as [|j1].
  - simpl in H1, H2. injection H1 as <-.
    apply list_elem_of_lookup_2, axes_elem in H2 as (i2 & c2 & -> & Hk & _).
    exists k, i2. split_and!; [done..|lia|lia].
  - simpl in H1, H2. apply (Hnext j1 j2); [lia|done..].
Qed.

Lemma axes_length (all in_phase : list string) (k : nat) :
  length (axes_from k all in_phase) = length (filter (λ c, c ∈ in_phase) all).
Proof.
  revert k. induction all as [|c all IH]; intros k; [done|].
  cbn [enumerate omap list_omap fst snd].
  destruct (decide (c ∈ in_phase)) as [Hc|Hc].
  - rewrite filter_cons_True //. simpl. by rewrite IH.
  - rewrite filter_cons_False //.
Qed.

Lemma axes_count (all in_phase : list string) :
  NoDup all → NoDup in_phase → (∀ c, c ∈ in_phase → c ∈ all) →
  length (axes_from 0 all in_phase) = length in_phase.
Proof.
  intros Hall Hin Hsub. rewrite axes_length. apply Permutation_length.
  apply NoDup_Permutation; [by apply NoDup_filter|done|].
  intros c. rewrite list_elem_of_filter. naive_solver.
Qed.

(** X18. The axes [configure_contact] computes for a phase are the positions,
    in the legend, of the names that are contacts of the phase: every entry
    is such a position (none is [None] or negative), every such position is
    an entry, the entries increase strictly, and there is one per contact of
    the phase when neither list repeats a name and the legend holds the
    contacts of the phase. *)
Theorem phase_mappings_selects (all_names in_phase : list string) :
  let idx := Mapping.map_idx (phase_mappings all_names in_phase) in
  (∀ o, o ∈ idx ↔ ∃ i c, o = Some (Z.of_nat i) ∧ all_names !! i = Some c ∧ c ∈ in_phase)
  ∧ (∀ j1 j2 o1 o2, (j1 < j2)%nat → idx !! j1 = Some o1 → idx !! j2 = Some o2 →
       ∃ i1 i2, o1 = Some (Z.of_nat i1) ∧ o2 = Some (Z.of_nat i2) ∧ (i1 < i2)%nat)
  ∧ (NoDup all_names → NoDup in_phase → (∀ c, c ∈ in_phase → c ∈ all_names) →
     length idx = length in_phase).
Proof.
  intros idx. unfold idx, phase_mappings. cbn [Mapping.map_idx]. split_and!.
  - intros o. rewrite axes_elem. split.
    + intros (i & c & -> & _ & Hi & Hc). rewrite Nat.sub_0_r in Hi. by exists i, c.
    + intros (i & c & -> & Hi & Hc). exists i, c. rewrite Nat.sub_0_r.
      split_and!; [done|lia|done..].
  - intros j1 j2 o1 o2 Hlt H1 H2.
    destruct (axes_increasing _ _ _ _ _ _ _ Hlt H1 H2) as (i1 & i2 & -> & -> & Hi).
    exists i1, i2. split_and!; [done..|lia].
  - apply axes_count.
Qed.

Lemma phase_mappings_selects_witness :
  length (Mapping.map_idx (phase_mappings ["heel"; "toe"; "hand"] ["hand"; "heel"])) = 2%nat
  ∧ Mapping.map_idx (phase_mappings ["heel"; "toe"; "hand"] ["hand"; "heel"])
    = [Some 0; Some 2].
Proof.
  split; [|reflexivity].
  apply (phase_mappings_selects ["heel"; "toe"; "hand"] ["hand"; "heel"]).
  - repeat constructor; set_solver.
  - repeat constructor; set_solver.
  - set_solver.
Defined.

(** X19. When [configure_contact] returns, the contact function has returned
    one expression and the phase has a dictionary of plot mappings; the
    compiled function has that expression as its output [contact_forces],
    over the inputs [x], [u], [p] sized by the states, the controls and the
    parameters of the phase; the legend lists the contact names of all the
    phases; the axes are the mapping stored under ["contact_forces"] when
    there is one, and otherwise one position per contact of the phase, each
    pointing at the name of that contact in the legend. *)
Theorem configure_contact_plot (ocp_nlp : list PhaseModel) (nlp : NonLinearProgram)
    (model : PhaseModel)
    (dyn_func : casadi.MX → casadi.MX → casadi.MX → NonLinearProgram → res dyn_result)
    (cp : contact_plot) :
  let x := casadi.sym "x" (states_n nlp) 1 in
  let u := casadi.sym "u" (controls_n nlp) 1 in
  let p := casadi.sym "p" (parameters_n nlp) 1 in
  configure_contact ocp_nlp nlp model dyn_func = Ok cp →
  ∃ e plot,
    dyn_func x u p nlp = Ok (DynExpr e)
    ∧ plot_mapping model = Some plot
    ∧ casadi.f_in (contact_forces_func cp) = [x; u; p]
    ∧ casadi.f_out (contact_forces_func cp) = [e]
    ∧ casadi.name_in (contact_forces_func cp) = ["x"; "u"; "p"]
    ∧ casadi.name_out (contact_forces_func cp) = ["contact_forces"]
    ∧ plot_legend cp = all_contact_names ocp_nlp
    ∧ (∀ stored, plot !! "contact_forces" = Some stored → axes_idx cp = stored)
    ∧ (plot !! "contact_forces" = None → model ∈ ocp_nlp →
       Forall (λ elt, NoDup (contactNames elt)) ocp_nlp →
       length (Mapping.map_idx (axes_idx cp)) = length (contactNames model)
       ∧ ∀ c, c ∈ contactNames model
              ↔ ∃ i, Some (Z.of_nat i) ∈ Mapping.map_idx (axes_idx cp)
                     ∧ plot_legend cp !! i = Some c).
Proof.
  intros x u p. unfold configure_contact. fold x u p. intros Hcfg.
  destruct (dyn_func x u p nlp) as [[e|es]| |]; cbn [mbind res_bind] in Hcfg; [|done..].
  destruct (casadi.new_Function _ _ _ _ _) as [f| |] eqn:Hf;
    cbn [mbind res_bind] in Hcfg; [|done..].
  apply new_Function_inv in Hf as ->.
  destruct (plot_mapping model) as [plot|]; cbn [mbind res_bind] in Hcfg; [|done].
  injection Hcfg as <-. exists e, plot.
  cbn [contact_forces_func axes_idx plot_legend].
  split_and!; [done..| |].
  - by intros stored ->.
  - intros -> Hmodel Hnd.
    assert (Hall : NoDup (all_contact_names ocp_nlp)).
    { unfold all_contact_names. apply extend_names_NoDup; [constructor|done]. }
    assert (Hsub : ∀ c, c ∈ contactNames model → c ∈ all_contact_names ocp_nlp).
    { intros c Hc. unfold all_contact_names. apply extend_names_elem. right. by exists model. }
    unfold phase_mappings. cbn [Mapping.map_idx]. split.
    + apply axes_count; [done| |done].
      by apply (proj1 (Forall_forall _ _) Hnd model).
    + intros c. split.
      * intros Hc. destruct (proj1 (list_elem_of_lookup _ _) (Hsub c Hc)) as [i Hi].
        exists i. split; [|done]. apply axes_elem. exists i, c.
        rewrite Nat.sub_0_r. split_and!; [done|lia|done..].
      * intros (i & Hin & Hi). apply axes_elem in Hin as (i' & c' & Heq & _ & Hi' & Hc').
        rewrite Nat.sub_0_r in Hi'. assert (i' = i) as -> by (injection Heq; lia).
        congruence.
Qed.

Lemma configure_contact_plot_witness :
  ∃ cp,
    configure_contact [mkPhaseModel 0 [] ["heel"; "toe"] (Some ∅);
                       mkPhaseModel 1 [] ["toe"; "hand"] (Some ∅)]
      (mkNlp [] 0 0 0 1 ∅ 2 1 0 ∅ None)
      (mkPhaseModel 1 [] ["toe"; "hand"] (Some ∅))
      (λ x u p _, Ok (DynExpr x)) = Ok cp
    ∧ casadi.f_out (contact_forces_func cp) = [casadi.sym "x" 2 1]
    ∧ plot_legend cp = ["heel"; "toe"; "hand"]
    ∧ axes_idx cp = Mapping.Mapping [Some 1; Some 2].
Proof.
  eexists. split; [reflexivity|].
  edestruct (configure_contact_plot
               [mkPhaseModel 0 [] ["heel"; "toe"] (Some ∅);
                mkPhaseModel 1 [] ["toe"; "hand"] (Some ∅)]
               (mkNlp [] 0 0 0 1 ∅ 2 1 0 ∅ None)
               (mkPhaseModel 1 [] ["toe"; "hand"] (Some ∅))
               (λ x u p _, Ok (DynExpr x)))
    as (e & plot & He & _ & _ & Hout & _); [reflexivity|].
  injection He as <-. split; [exact Hout|]. by split.
Defined.

(** X20. [configure_dynamics_function] writes two attributes of the phase and
    no other: the parameters, which become those of the program, and the
    compiled function; the mappings, the shapes and the widths of the states
    and of the controls are as before. An exception raised by the derivative
    function comes out of the routine unchanged. *)
Theorem configure_dynamics_function_frame (ocp : OptimalControlProgram)
    (nlp : NonLinearProgram)
    (dyn_func : casadi.MX → casadi.MX → casadi.MX → NonLinearProgram → res dyn_result) :
  (∀ nlp', configure_dynamics_function ocp nlp dyn_func = Ok nlp' →
     parameters_n nlp' = v_parameters_n ocp
     ∧ is_Some (dynamics_func nlp')
     ∧ mapping nlp' = mapping nlp ∧ shape nlp' = shape nlp
     ∧ states_n nlp' = states_n nlp ∧ controls_n nlp' = controls_n nlp
     ∧ nameDof nlp' = nameDof nlp ∧ control_type_value nlp' = control_type_value nlp)
  ∧ (∀ e, dyn_func (casadi.sym "x" (states_n nlp) 1) (casadi.sym "u" (controls_n nlp) 1)
            (casadi.sym "p" (v_parameters_n ocp) 1)
            (set_parameters_n nlp (v_parameters_n ocp)) = Raise e →
          configure_dynamics_function ocp nlp dyn_func = Raise e).
Proof.
  unfold configure_dynamics_function. cbn [parameters_n set_parameters_n]. split.
  - intros nlp' H.
    destruct (dyn_func _ _ _ _) as [d| |]; cbn [mbind res_bind] in H; [|done..].
    destruct (match d with DynSeq es => casadi.vertcat es | DynExpr e => Ok e end)
      as [out| |]; cbn [mbind res_bind] in H; [|done..].
    destruct (casadi.new_Function _ _ _ _ _) as [f| |]; cbn [mbind res_bind] in H; [|done..].
    injection H as <-. by split_and!.
  - by intros e ->.
Qed.

Lemma configure_dynamics_function_frame_witness :
  configure_dynamics_function (mkOcp 0) (mkNlp [] 0 0 0 1 ∅ 2 1 0 ∅ None)
    (λ x u p _, Raise KeyError) = Raise KeyError.
Proof.
  apply (configure_dynamics_function_frame (mkOcp 0) (mkNlp [] 0 0 0 1 ∅ 2 1 0 ∅ None)
           (λ x u p _, Raise KeyError)).
  reflexivity.
Defined.

(** X21. Called after [configure_dynamics_function], as the configurations
    with contact do, [configure_contact] compiles the contact function over
    inputs that have the names and the shapes of the inputs of the dynamics
    function: [x], [u] and [p], columns sized by the states, the controls
    and [ocp.v.parameters_in_list]. A list or tuple returned by the contact
    function is not concatenated. *)
Theorem contact_after_dynamics (ocp : OptimalControlProgram) (nlp nlp' : NonLinearProgram)
    (dyn_func contact_func :
       casadi.MX → casadi.MX → casadi.MX → NonLinearProgram → res dyn_result)
    (ocp_nlp : list PhaseModel) (model : PhaseModel) (cp : contact_plot) :
  configure_dynamics_function ocp nlp dyn_func = Ok nlp' →
  configure_contact ocp_nlp nlp' model contact_func = Ok cp →
  ∃ f e, dynamics_func nlp' = Some f
    ∧ casadi.name_in (contact_forces_func cp) = casadi.name_in f
    ∧ casadi.name_in f = ["x"; "u"; "p"]
    ∧ casadi.size1 <$> casadi.f_in (contact_forces_func cp) = casadi.size1 <$> casadi.f_in f
    ∧ casadi.size1 <$> casadi.f_in f = [states_n nlp; controls_n nlp; v_parameters_n ocp]
    ∧ casadi.size2 <$> casadi.f_in (contact_forces_func cp) = [1; 1; 1]%nat
    ∧ casadi.size2 <$> casadi.f_in f = [1; 1; 1]%nat
    ∧ contact_func (casadi.sym "x" (states_n nlp) 1) (casadi.sym "u" (controls_n nlp) 1)
        (casadi.sym "p" (v_parameters_n ocp) 1) nlp' = Ok (DynExpr e)
    ∧ casadi.f_out (contact_forces_func cp) = [e].
Proof.
  unfold configure_dynamics_function. intros Hdyn Hcontact.
  destruct (dyn_func _ _ _ _) as [d| |]; cbn [mbind res_bind] in Hdyn; [|done..].
  destruct (match d with DynSeq es => casadi.vertcat es | DynExpr e => Ok e end)
    as [out| |]; cbn [mbind res_bind] in Hdyn; [|done..].
  destruct (casadi.new_Function _ _ _ _ _) as [f| |] eqn:Hf;
    cbn [mbind res_bind] in Hdyn; [|done..].
  apply new_Function_inv in Hf as ->.
  injection Hdyn as <-. revert Hcontact. unfold configure_contact.
  cbn [states_n controls_n parameters_n set_dynamics_func set_parameters_n dynamics_func].
  destruct (contact_func _ _ _ _) as [[e|es]| |]; cbn [mbind res_bind]; [|done..].
  destruct (casadi.new_Function _ _ _ _ _) as [f| |] eqn:Hf;
    cbn [mbind res_bind]; [|done..].
  apply new_Function_inv in Hf as ->.
  destruct (plot_mapping model); cbn [mbind res_bind]; [|done].
  intros [= <-]. eexists _, e. split; [reflexivity|].
  cbn [contact_forces_func casadi.expand casadi.f_in casadi.f_out casadi.name_in].
  rewrite !fmap_cons !sym_size1 !sym_size2. split_and!; reflexivity.
Qed.

Lemma contact_after_dynamics_witness :
  ∃ nlp' cp f,
    configure_dynamics_function (mkOcp 3) (mkNlp [] 0 0 0 1 ∅ 2 1 0 ∅ None)
      (λ x u p _, Ok (DynExpr x)) = Ok nlp'
    ∧ configure_contact [] nlp' (mkPhaseModel 0 [] [] (Some ∅))
        (λ x u p _, Ok (DynExpr p)) = Ok cp
    ∧ dynamics_func nlp' = Some f
    ∧ casadi.size1 <$> casadi.f_in (contact_forces_func cp) = casadi.size1 <$> casadi.f_in f
    ∧ casadi.size1 <$> casadi.f_out (contact_forces_func cp) = [3%nat].
Proof.
  do 2 eexists.
  edestruct (contact_after_dynamics (mkOcp 3) (mkNlp [] 0 0 0 1 ∅ 2 1 0 ∅ None))
    with (dyn_func := λ (x u p : casadi.MX) (_ : NonLinearProgram), Ok (DynExpr x))
         (contact_func := λ (x u p : casadi.MX) (_ : NonLinearProgram), Ok (DynExpr p))
         (ocp_nlp := @nil PhaseModel) (model := mkPhaseModel 0 [] [] (Some ∅))
    as (f & e & Hf & _ & _ & Hin & _ & _ & _ & He & Hout); [reflexivity|reflexivity|].
  exists f. split_and!; [reflexivity|reflexivity|exact Hf|exact Hin|].
  rewrite Hout. vm_compute in He. injection He as <-. reflexivity.
Defined.

End contact.
